(** * DarkPoolEngine: a shallow embedding of the dark-pool matching engine

    The engine (class [DarkPoolEngine]) keeps per-token order books of
    encrypted orders, pairs pending buys with pending sells on a timer, and
    settles each pair after a random delay.  This file embeds the engine as
    pure functions over an explicit engine state and proves properties of
    admission, cancellation, matching and settlement.

    Modelling conventions.
    - JavaScript values that reach the engine from a JSON request body are
      the primitives of [jsval]; a missing property is [JUndefined].
    - JavaScript numbers are [num]: exact rationals extended with
      [+Infinity], [-Infinity] and [NaN].  Rounding of binary64 arithmetic
      and the sign of zero are not modelled.
    - Order objects are shared between a book and the matches that refer to
      them, and their [status] field is mutated through either path.  They
      live in an object store ([objects]) and are referred to by reference.
    - [uuidv4()], [Date.now()] and [Math.random()] are inputs: a counter of
      fresh identifiers, a clock reading per operation, and a stream of
      random draws.
    - [Buffer.from(_, 'base64')] and [JSON.parse] belong to the platform;
      the functions that call them take them as parameters.
    - Logging is not modelled. *)

From Stdlib Require Import QArith Qcanon Qround Lia Lqa Ascii String.
From stdpp Require Import gmap strings list.

#[local] Set Warnings "-clear-no-such-hyp".

Local Open Scope Qc_scope.

(** ** JavaScript numbers *)

Inductive num := Fin (q : Qc) | PInf | NInf | NaN.

Global Instance num_eq_dec : EqDecision num.
Proof. solve_decision. Defined.

Definition num_sgn (x : num) : comparison :=
  match x with
  | Fin q => q ?= 0
  | PInf => Gt
  | NInf => Lt
  | NaN => Eq
  end.

Definition sgn_mul (a b : comparison) : comparison :=
  match a, b with
  | Eq, _ | _, Eq => Eq
  | Gt, Gt | Lt, Lt => Gt
  | _, _ => Lt
  end.

(** The infinity of a given sign; a zero sign stands for [0 * Infinity]. *)
Definition inf_sgn (c : comparison) : num :=
  match c with Gt => PInf | Lt => NInf | Eq => NaN end.

Definition num_neg (x : num) : num :=
  match x with Fin q => Fin (- q) | PInf => NInf | NInf => PInf | NaN => NaN end.

Definition num_add (x y : num) : num :=
  match x, y with
  | NaN, _ | _, NaN => NaN
  | Fin a, Fin b => Fin (a + b)
  | PInf, NInf | NInf, PInf => NaN
  | PInf, _ | _, PInf => PInf
  | NInf, _ | _, NInf => NInf
  end.

Definition num_sub (x y : num) : num := num_add x (num_neg y).

Definition num_mul (x y : num) : num :=
  match x, y with
  | NaN, _ | _, NaN => NaN
  | Fin a, Fin b => Fin (a * b)
  | _, _ => inf_sgn (sgn_mul (num_sgn x) (num_sgn y))
  end.

Definition num_div (x y : num) : num :=
  match x, y with
  | NaN, _ | _, NaN => NaN
  | Fin a, Fin b => if decide (b = 0) then inf_sgn (a ?= 0) else Fin (a / b)
  | Fin _, _ => Fin 0
  | _, Fin b => inf_sgn (sgn_mul (num_sgn x) (if decide (b = 0) then Gt else b ?= 0))
  | _, _ => NaN
  end.

(** [x <= y] on numbers; every comparison with [NaN] is false. *)
Definition num_leb (x y : num) : bool :=
  match x, y with
  | NaN, _ | _, NaN => false
  | NInf, _ | _, PInf => true
  | Fin a, Fin b => bool_decide (a ≤ b)
  | _, _ => false
  end.

Definition Math_max (x y : num) : num :=
  match x, y with
  | NaN, _ | _, NaN => NaN
  | _, _ => if num_leb x y then y else x
  end.

Definition Math_min (x y : num) : num :=
  match x, y with
  | NaN, _ | _, NaN => NaN
  | _, _ => if num_leb x y then x else y
  end.


Definition num_of_Z (z : Z) : num := Fin (Q2Qc (inject_Z z)).

(** ** JavaScript values *)

Inductive jsval :=
  | JUndefined
  | JNull
  | JBool (b : bool)
  | JNum (n : num)
  | JStr (s : string).

Global Instance jsval_eq_dec : EqDecision jsval.
Proof. solve_decision. Defined.

Global Instance num_countable : Countable num.
Proof.
  refine (inj_countable'
    (λ x, match x with
          | Fin q => inl q
          | PInf => inr 0%nat | NInf => inr 1%nat | NaN => inr 2%nat
          end)
    (λ y, match y with
          | inl q => Fin q
          | inr 0%nat => PInf | inr 1%nat => NInf | inr _ => NaN
          end) _).
  by intros [].
Defined.

Global Instance jsval_countable : Countable jsval.
Proof.
  refine (inj_countable'
    (λ v, match v with
          | JUndefined => inl (inl false)
          | JNull => inl (inl true)
          | JBool b => inl (inr b)
          | JNum n => inr (inl n)
          | JStr s => inr (inr s)
          end)
    (λ y, match y with
          | inl (inl false) => JUndefined
          | inl (inl true) => JNull
          | inl (inr b) => JBool b
          | inr (inl n) => JNum n
          | inr (inr s) => JStr s
          end) _).
  by intros [].
Defined.

(** ToBoolean: [undefined], [null], [false], [0], [NaN] and [''] are falsy. *)
Definition truthy (v : jsval) : bool :=
  match v with
  | JUndefined | JNull => false
  | JBool b => b
  | JNum (Fin q) => negb (bool_decide (q = 0))
  | JNum NaN => false
  | JNum _ => true
  | JStr s => negb (bool_decide (s = ""%string))
  end.

(** [a && b] *)
Definition js_and (a b : jsval) : jsval := if truthy a then b else a.

(** [a === b]: equality of primitives by value, [NaN] equal to nothing. *)
Definition strict_eq (a b : jsval) : bool :=
  match a with
  | JNum NaN => false
  | _ => bool_decide (a = b)
  end.

(** [a || d] on numbers ([undefined] when the property is absent). *)
Definition num_or (a : option num) (d : num) : num :=
  match a with
  | Some x => if truthy (JNum x) then x else d
  | None => d
  end.

Local Close Scope Qc_scope.

(** ** A JavaScript [Map] in insertion order *)

Section JsMap.
Context {V : Type}.

Fixpoint jm_get (k : jsval) (m : list (jsval * V)) : option V :=
  match m with
  | [] => None
  | (k', v) :: m' => if decide (k = k') then Some v else jm_get k m'
  end.

Definition jm_has (k : jsval) (m : list (jsval * V)) : bool :=
  bool_decide (is_Some (jm_get k m)).

(** [set] replaces the value of a present key in place and appends an
    absent one. *)
Fixpoint jm_set (k : jsval) (v : V) (m : list (jsval * V)) : list (jsval * V) :=
  match m with
  | [] => [(k, v)]
  | (k', v') :: m' =>
      if decide (k = k') then (k, v) :: m' else (k', v') :: jm_set k v m'
  end.

End JsMap.

(** [array.findIndex(p)], with [None] for [-1]. *)
Fixpoint findIndex {A} (p : A → bool) (l : list A) : option nat :=
  match l with
  | [] => None
  | x :: l' => if p x then Some 0%nat else S <$> findIndex p l'
  end.

(** ** Exceptions and results *)

Inductive exn :=
  | Error (message : string)
  | TypeError (message : string).

Inductive outcome (A : Type) :=
  | Returned (a : A)
  | Threw (e : exn).
Arguments Returned {A} a.
Arguments Threw {A} e.

(** ** The data model *)

(** The object handed to [submitOrder]. *)
Module EncryptedOrder.
Record t := mk {
  payload : jsval;
  commitment : jsval;
  nullifier : jsval;
  tokenAddress : jsval;
  encryptedSide : jsval
}.
End EncryptedOrder.

Module Order.
Record t := mk {
  id : nat;
  encryptedPayload : jsval;
  commitment : jsval;
  nullifier : jsval;
  tokenAddress : jsval;
  timestamp : Z;
  status : string;
  encryptedSide : jsval
}.

Definition set_status (st : string) (o : t) : t :=
  mk (id o) (encryptedPayload o) (commitment o) (nullifier o) (tokenAddress o)
     (timestamp o) st (encryptedSide o).
End Order.

Global Instance order_inhabited : Inhabited Order.t :=
  populate (Order.mk 0 JUndefined JUndefined JUndefined JUndefined 0 "" JUndefined).

(** The confirmation returned by [submitOrder]. *)
Module Receipt.
Record t := mk {
  orderId : nat;
  timestamp : Z;
  status : string;
  estimatedMatchTime : Qc;
  commitment : jsval
}.
End Receipt.

(** A match refers to its two order objects. *)
Module Match.
Record t := mk {
  id : nat;
  buyOrder : nat;
  sellOrder : nat;
  tokenAddress : jsval;
  timestamp : Z
}.
End Match.

Module Execution.
Record t := mk {
  id : nat;
  matchId : nat;
  tokenAddress : jsval;
  price : num;
  amount : num;
  timestamp : Z;
  buyCommitment : jsval;
  sellCommitment : jsval;
  executedOnChain : bool;
  swapStatus : string
}.
End Execution.

(** An entry of [pendingMatches]: [{...execution, side, fillAmount}]. *)
Module Fill.
Record t := mk {
  execution : Execution.t;
  side : string;
  fillAmount : num
}.
End Fill.

(** The numeric properties read from a decoded payload; [None] is an absent
    property. *)
Module Payload.
Record t := mk {
  amount : option num;
  maxPrice : option num;
  minPrice : option num
}.
End Payload.

Module Details.
Record t := mk {
  amount : num;
  maxPrice : num;
  minPrice : num
}.
End Details.

(** The argument of [anoncoinService.executeSwap]. *)
Module Swap.
Record t := mk {
  fromToken : jsval;
  toToken : jsval;
  amount : num;
  slippage : Qc;
  executionPrice : num;
  stealthAddress : jsval;
  commitment : jsval;
  nullifier : jsval
}.
End Swap.

(** The payload of the ['execution'] event sent to the token's room. *)
Module Emitted.
Record t := mk {
  tokenAddress : jsval;
  price : num;
  amount : num;
  timestamp : Z;
  executedOnChain : bool
}.
End Emitted.

Module Config.
Record t := mk {
  matchingInterval : Z;
  minBatchSize : nat;
  maxBatchSize : nat;
  executionDelayMin : Z;
  executionDelayMax : Z;
  feeRate : Qc
}.
End Config.

Module Stats.
Record t := mk {
  totalOrders : nat;
  totalMatches : nat;
  totalVolume : num;
  totalExecuted : nat;
  lastMatchTime : option Z;
  lastExecutionTime : option Z
}.
End Stats.

Module CancelResult.
Record t := mk {
  success : bool;
  message : string
}.
End CancelResult.

(** What the awaited [executeSwap] call does: it resolves with a result
    object, or it fails.  [SwapThrew] stands for every way the inner [try]
    block can be left by an exception. *)
Inductive swapOutcome :=
  | SwapResolved (transactionId : jsval)
  | SwapThrew (e : exn).

(** ** The engine *)

Record DarkPoolEngine := mkEngine {
  (** whether a settlement service was given to the constructor *)
  anoncoinService : bool;
  (** the order objects, by reference *)
  objects : list Order.t;
  (** [Map] tokenAddress -> array of order references *)
  orderBooks : list (jsval * list nat);
  (** [Map] nullifier -> fill *)
  pendingMatches : gmap jsval Fill.t;
  config : Config.t;
  stats : Stats.t;
  (** the [setTimeout] callbacks of [executeMatches] that have not fired *)
  timers : list Match.t;
  (** the next identifier [uuidv4()] hands out *)
  uuids : nat;
  (** the calls made to [anoncoinService.executeSwap] *)
  swaps : list Swap.t;
  (** the events sent through [io] *)
  emitted : list Emitted.t
}.

Definition set_objects (f : list Order.t → list Order.t) (s : DarkPoolEngine) :=
  mkEngine (anoncoinService s) (f (objects s)) (orderBooks s) (pendingMatches s)
    (config s) (stats s) (timers s) (uuids s) (swaps s) (emitted s).

Definition set_orderBooks (f : list (jsval * list nat) → list (jsval * list nat))
    (s : DarkPoolEngine) :=
  mkEngine (anoncoinService s) (objects s) (f (orderBooks s)) (pendingMatches s)
    (config s) (stats s) (timers s) (uuids s) (swaps s) (emitted s).

Definition set_pendingMatches (f : gmap jsval Fill.t → gmap jsval Fill.t)
    (s : DarkPoolEngine) :=
  mkEngine (anoncoinService s) (objects s) (orderBooks s) (f (pendingMatches s))
    (config s) (stats s) (timers s) (uuids s) (swaps s) (emitted s).


Definition set_stats (f : Stats.t → Stats.t) (s : DarkPoolEngine) :=
  mkEngine (anoncoinService s) (objects s) (orderBooks s) (pendingMatches s)
    (config s) (f (stats s)) (timers s) (uuids s) (swaps s) (emitted s).

Definition set_timers (f : list Match.t → list Match.t) (s : DarkPoolEngine) :=
  mkEngine (anoncoinService s) (objects s) (orderBooks s) (pendingMatches s)
    (config s) (stats s) (f (timers s)) (uuids s) (swaps s) (emitted s).

Definition set_swaps (f : list Swap.t → list Swap.t) (s : DarkPoolEngine) :=
  mkEngine (anoncoinService s) (objects s) (orderBooks s) (pendingMatches s)
    (config s) (stats s) (timers s) (uuids s) (f (swaps s)) (emitted s).

Definition set_emitted (f : list Emitted.t → list Emitted.t) (s : DarkPoolEngine) :=
  mkEngine (anoncoinService s) (objects s) (orderBooks s) (pendingMatches s)
    (config s) (stats s) (timers s) (uuids s) (swaps s) (f (emitted s)).


(** [uuidv4()]: hands out the next identifier. *)
Definition uuidv4 (s : DarkPoolEngine) : nat * DarkPoolEngine :=
  (uuids s,
   mkEngine (anoncoinService s) (objects s) (orderBooks s) (pendingMatches s)
     (config s) (stats s) (timers s) (S (uuids s)) (swaps s) (emitted s)).

(** [order.status = st] through a reference. *)
Definition set_status (r : nat) (st : string) (s : DarkPoolEngine) : DarkPoolEngine :=
  set_objects (alter (Order.set_status st) r) s.

(** [constructor(io, logger, anoncoinService)]; [interval] is what
    [parseInt(process.env.DARK_POOL_MATCHING_INTERVAL_MS)] yields, [None]
    for [NaN]. *)
Definition constructor (service : bool) (interval : option Z) : DarkPoolEngine :=
  {| anoncoinService := service;
     objects := [];
     orderBooks := [];
     pendingMatches := ∅;
     config :=
       Config.mk
         (match interval with
          | Some z => if (z =? 0)%Z then 5000%Z else z
          | None => 5000%Z
          end)
         2 100 1000%Z 10000%Z (Q2Qc (3 # 1000));
     stats := Stats.mk 0 0 (Fin 0) 0 None None;
     timers := [];
     uuids := 0;
     swaps := [];
     emitted := [] |}.

(** ** Admission *)

(** [order && order.payload && order.commitment && order.nullifier &&
    order.tokenAddress && order.encryptedSide]; an absent argument is
    [undefined]. *)
Definition validateEncryptedOrder (order : option EncryptedOrder.t) : jsval :=
  match order with
  | None => JUndefined
  | Some o =>
      js_and (js_and (js_and (js_and
        (EncryptedOrder.payload o)
        (EncryptedOrder.commitment o))
        (EncryptedOrder.nullifier o))
        (EncryptedOrder.tokenAddress o))
        (EncryptedOrder.encryptedSide o)
  end.

Definition getEstimatedMatchTime (now : Z) (s : DarkPoolEngine) : Qc :=
  let nextCycle := Config.matchingInterval (config s) in
  let executionDelay :=
    (Q2Qc (inject_Z (Config.executionDelayMin (config s)
                     + Config.executionDelayMax (config s))) / Q2Qc 2)%Qc in
  (Q2Qc (inject_Z now) + Q2Qc (inject_Z nextCycle) + executionDelay)%Qc.

(** [orderBooks.get(token).push(r)], after creating the book if absent. *)
Definition book_push (token : jsval) (r : nat) (books : list (jsval * list nat))
    : list (jsval * list nat) :=
  let books1 := if jm_has token books then books else jm_set token [] books in
  jm_set token (default [] (jm_get token books1) ++ [r]) books1.

(** [submitOrder(encryptedOrder)].  The log line at the end calls
    [substring] on the token address, which only a string has. *)
Definition submitOrder (encryptedOrder : option EncryptedOrder.t) (now : Z)
    (s : DarkPoolEngine) : DarkPoolEngine * outcome Receipt.t :=
  let '(orderId, s) := uuidv4 s in
  let timestamp := now in
  match encryptedOrder with
  | Some eo =>
      if negb (truthy (validateEncryptedOrder encryptedOrder)) then
        (s, Threw (Error "Invalid order structure"))
      else
        let order :=
          Order.mk orderId (EncryptedOrder.payload eo) (EncryptedOrder.commitment eo)
            (EncryptedOrder.nullifier eo) (EncryptedOrder.tokenAddress eo)
            timestamp "pending" (EncryptedOrder.encryptedSide eo) in
        let r := length (objects s) in
        let s := set_objects (λ h, h ++ [order]) s in
        let s := set_orderBooks (book_push (Order.tokenAddress order) r) s in
        let s :=
          set_stats (λ st,
            Stats.mk (S (Stats.totalOrders st)) (Stats.totalMatches st)
              (Stats.totalVolume st) (Stats.totalExecuted st)
              (Stats.lastMatchTime st) (Stats.lastExecutionTime st)) s in
        match Order.tokenAddress order with
        | JStr _ =>
            (s, Returned
                  (Receipt.mk orderId timestamp "pending"
                     (getEstimatedMatchTime now s) (Order.commitment order)))
        | _ => (s, Threw (TypeError "order.tokenAddress.substring is not a function"))
        end
  | None => (s, Threw (Error "Invalid order structure"))
  end.

(** ** Cancellation *)

Definition cancel_pred (h : list Order.t) (nullifier commitment : jsval) (r : nat) : bool :=
  strict_eq (Order.nullifier (h !!! r)) nullifier
  && strict_eq (Order.commitment (h !!! r)) commitment
  && bool_decide (Order.status (h !!! r) = "pending"%string).

(** The loop over the books: the first book with a hit loses that entry. *)
Fixpoint cancelLoop (p : nat → bool) (books : list (jsval * list nat))
    : option (list (jsval * list nat)) :=
  match books with
  | [] => None
  | (token, orders) :: rest =>
      match findIndex p orders with
      | Some index => Some ((token, delete index orders) :: rest)
      | None => ((token, orders) ::.) <$> cancelLoop p rest
      end
  end.

Definition cancelOrder (nullifier commitment : jsval) (s : DarkPoolEngine)
    : DarkPoolEngine * CancelResult.t :=
  match cancelLoop (cancel_pred (objects s) nullifier commitment) (orderBooks s) with
  | Some books =>
      (set_orderBooks (λ _, books) s, CancelResult.mk true "Order cancelled")
  | None => (s, CancelResult.mk false "Order not found or already matched")
  end.

(** ** Status lookup *)

Definition checkMatchStatus (nullifier : jsval) (s : DarkPoolEngine) : option Fill.t :=
  pendingMatches s !! nullifier.

(** ** Shuffling *)

(** [[a[i], a[j]] = [a[j], a[i]]] *)
Definition swap_at {A} (i j : nat) (a : list A) : list A :=
  match a !! i, a !! j with
  | Some x, Some y => <[i := y]> (<[j := x]> a)
  | _, _ => a
  end.

(** The transposition of two indices. *)
Definition transpose (i j k : nat) : nat :=
  if decide (k = i) then j else if decide (k = j) then i else k.

(** The loop of [shuffleArray] from index [i] down to 1; each draw
    [Math.floor(Math.random() * (i + 1))] is a number in [0..i], taken
    from the stream. *)
Fixpoint shuffleLoop {A} (i : nat) (rs : list nat) (a : list A) : list A * list nat :=
  match i with
  | 0 => (a, rs)
  | S i' =>
      let j := (hd 0 rs mod (i + 1))%nat in
      shuffleLoop i' (tl rs) (swap_at i j a)
  end.

Definition shuffleArray {A} (rs : list nat) (a : list A) : list A * list nat :=
  shuffleLoop (length a - 1) rs a.

(** ** Price and amount *)

Definition calculateExecutionPrice (random : Qc) (buyDetails sellDetails : Details.t) : num :=
  let midpoint :=
    num_div (num_add (Details.maxPrice buyDetails) (Details.minPrice sellDetails))
            (Fin (Q2Qc 2)) in
  let noise :=
    num_mul (num_mul (num_sub (Fin random) (Fin (Q2Qc (1 # 2)))) (Fin (Q2Qc (1 # 1000))))
            midpoint in
  Math_max (Fin 0) (num_add midpoint noise).

(** ** Statistics *)

(** [o.status === 'pending'] *)
Definition is_pending (h : list Order.t) (r : nat) : Prop :=
  Order.status (h !!! r) = "pending"%string.

Global Instance is_pending_dec h r : Decision (is_pending h r).
Proof. unfold is_pending. apply _. Defined.

Definition pendingCount (h : list Order.t) (orders : list nat) : nat :=
  length (filter (is_pending h) orders).


Section Platform.

(** [Buffer.from(x, 'base64')]: the bytes, or [None] when it throws. *)
Variable Buffer_from_base64 : jsval → option (list Z).

(** [JSON.parse(Buffer.from(x, 'base64').toString())] read at its numeric
    properties, or [None] when decoding, parsing or the property access
    throws. *)
Variable JSON_parse_payload : jsval → option Payload.t.

(** ** Side resolution *)

(** [buffer[0] % 2 === 0 ? 'buy' : 'sell'], and ['buy'] when decoding
    throws.  An empty buffer has [buffer[0]] undefined, so the test fails. *)
Definition decryptSide (encryptedSide : jsval) : string :=
  match Buffer_from_base64 encryptedSide with
  | Some buffer =>
      match buffer !! 0%nat with
      | Some b => if (b mod 2 =? 0)%Z then "buy" else "sell"
      | None => "sell"
      end
  | None => "buy"
  end.

Definition decryptOrderForExecution (order : Order.t) : Details.t :=
  match JSON_parse_payload (Order.encryptedPayload order) with
  | Some payload =>
      Details.mk (num_or (Payload.amount payload) (num_of_Z 100))
                 (num_or (Payload.maxPrice payload) PInf)
                 (num_or (Payload.minPrice payload) (Fin 0))
  | None => Details.mk (num_of_Z 100) PInf (Fin 0)
  end.

(** ** Matching *)

(** [decryptSide(order.encryptedSide) === 'buy'] *)
Definition is_buy (h : list Order.t) (r : nat) : Prop :=
  decryptSide (Order.encryptedSide (h !!! r)) = "buy"%string.

Global Instance is_buy_dec h r : Decision (is_buy h r).
Proof. unfold is_buy. apply _. Defined.

(** The pending orders of a book that resolve to a buy, and those that do
    not, in book order. *)
Definition pendingBuys (orders : list nat) (s : DarkPoolEngine) : list nat :=
  filter (is_buy (objects s)) (filter (is_pending (objects s)) orders).

Definition pendingSells (orders : list nat) (s : DarkPoolEngine) : list nat :=
  filter (λ r, ¬ is_buy (objects s) r) (filter (is_pending (objects s)) orders).

(** The pairing loop of [findMatches], [n] iterations from index [i]. *)
Fixpoint pairLoop (n i : nat) (buyOrders sellOrders : list nat) (tokenAddress : jsval)
    (now : Z) (matches : list Match.t) (s : DarkPoolEngine)
    : DarkPoolEngine * list Match.t :=
  match n with
  | 0 => (s, matches)
  | S n' =>
      let '(mid, s) := uuidv4 s in
      let matches :=
        matches ++ [Match.mk mid (buyOrders !!! i) (sellOrders !!! i) tokenAddress now] in
      let s := set_status (buyOrders !!! i) "matched" s in
      let s := set_status (sellOrders !!! i) "matched" s in
      pairLoop n' (S i) buyOrders sellOrders tokenAddress now matches s
  end.

Definition findMatches (tokenAddress : jsval) (orders : list nat) (rs : list nat)
    (now : Z) (s : DarkPoolEngine) : DarkPoolEngine * list Match.t * list nat :=
  let pendingOrders := filter (is_pending (objects s)) orders in
  let buyOrders := filter (is_buy (objects s)) pendingOrders in
  let sellOrders := filter (λ r, ¬ is_buy (objects s) r) pendingOrders in
  let '(buyOrders, rs) := shuffleArray rs buyOrders in
  let '(sellOrders, rs) := shuffleArray rs sellOrders in
  let minMatches := length buyOrders `min` length sellOrders in
  let '(s, matches) := pairLoop minMatches 0 buyOrders sellOrders tokenAddress now [] s in
  (s, matches, rs).

(** [executeMatches]: one timer per match. *)
Definition executeMatches (matches : list Match.t) (s : DarkPoolEngine) : DarkPoolEngine :=
  set_timers (λ q, q ++ matches) s.

(** The body of the loop of [runMatchingCycle] for one book; the matches
    found are returned along with the state ([[]] when the book is
    skipped). *)
Definition cycleBody (tokenAddress : jsval) (orders : list nat) (rs : list nat) (now : Z)
    (s : DarkPoolEngine) : DarkPoolEngine * list Match.t * list nat :=
  if bool_decide (length orders < Config.minBatchSize (config s))%nat then (s, [], rs)
  else
    let '(s, matches, rs) := findMatches tokenAddress orders rs now s in
    if bool_decide (0 < length matches)%nat then (executeMatches matches s, matches, rs)
    else (s, matches, rs).

Fixpoint cycleLoop (books : list (jsval * list nat)) (rs : list nat) (now : Z)
    (s : DarkPoolEngine) : DarkPoolEngine :=
  match books with
  | [] => s
  | (tokenAddress, orders) :: rest =>
      let '(s, _, rs) := cycleBody tokenAddress orders rs now s in
      cycleLoop rest rs now s
  end.

Definition runMatchingCycle (rs : list nat) (now : Z) (s : DarkPoolEngine) : DarkPoolEngine :=
  cycleLoop (orderBooks s) rs now s.

(** ** Settlement *)

Definition removeMatchedOrders (m : Match.t) (s : DarkPoolEngine) : DarkPoolEngine :=
  match jm_get (Match.tokenAddress m) (orderBooks s) with
  | Some orders =>
      let h := objects s in
      let filtered :=
        filter (λ o, Order.id (h !!! o) ≠ Order.id (h !!! Match.buyOrder m)
                     ∧ Order.id (h !!! o) ≠ Order.id (h !!! Match.sellOrder m)) orders in
      set_orderBooks (jm_set (Match.tokenAddress m) filtered) s
  | None => s
  end.

(** [executeMatch(match)], run to completion.  Before the awaited call the
    function only reads fields of the two orders that never change, so the
    whole body is evaluated at the moment the call settles: [swap] is what
    the call did, [random] the draw of [Math.random()]. *)
Definition executeMatch (swap : swapOutcome) (random : Qc) (now : Z) (m : Match.t)
    (s : DarkPoolEngine) : DarkPoolEngine * outcome Execution.t :=
  let '(executionId, s) := uuidv4 s in
  let buy := objects s !!! Match.buyOrder m in
  let sell := objects s !!! Match.sellOrder m in
  let buyDetails := decryptOrderForExecution buy in
  let sellDetails := decryptOrderForExecution sell in
  let executionPrice := calculateExecutionPrice random buyDetails sellDetails in
  let matchedAmount := Math_min (Details.amount buyDetails) (Details.amount sellDetails) in
  let called :=
    set_swaps (λ l, l ++ [Swap.mk (Match.tokenAddress m) (JStr "SOL") matchedAmount
                            (Q2Qc (1 # 100)) executionPrice JUndefined
                            (Order.commitment buy) (Order.nullifier buy)]) s in
  let failed :=
    match swap with
    | SwapThrew e => if anoncoinService s then Some e else None
    | SwapResolved _ => None
    end in
  match failed with
  | Some swapError =>
      let s := set_status (Match.buyOrder m) "pending" called in
      let s := set_status (Match.sellOrder m) "pending" s in
      (s, Threw swapError)
  | None =>
      let s := if anoncoinService s then called else s in
      let execution :=
        Execution.mk executionId (Match.id m) (Match.tokenAddress m) executionPrice
          matchedAmount now (Order.commitment buy) (Order.commitment sell)
          true "completed" in
      let s :=
        set_stats (λ st,
          Stats.mk (Stats.totalOrders st) (S (Stats.totalMatches st))
            (num_add (Stats.totalVolume st) (num_mul matchedAmount executionPrice))
            (S (Stats.totalExecuted st)) (Some now) (Some now)) s in
      let s := removeMatchedOrders m s in
      let s :=
        set_emitted (λ l, l ++ [Emitted.mk (Match.tokenAddress m) executionPrice
                                  matchedAmount (Execution.timestamp execution) true]) s in
      let s :=
        set_pendingMatches
          (insert (Order.nullifier buy) (Fill.mk execution "buy" matchedAmount)) s in
      let s :=
        set_pendingMatches
          (insert (Order.nullifier sell) (Fill.mk execution "sell" matchedAmount)) s in
      (s, Returned execution)
  end.

(** The [setTimeout] callback of [executeMatches]: a failed execution
    returns both orders to the pool. *)
Definition timerCallback (swap : swapOutcome) (random : Qc) (now : Z) (m : Match.t)
    (s : DarkPoolEngine) : DarkPoolEngine :=
  match executeMatch swap random now m s with
  | (s, Returned _) => s
  | (s, Threw _) =>
      let s := set_status (Match.buyOrder m) "pending" s in
      set_status (Match.sellOrder m) "pending" s
  end.

(** ** Runs of the engine *)

Inductive event :=
  | Submit (encryptedOrder : option EncryptedOrder.t) (now : Z)
  | Cancel (nullifier commitment : jsval)
  | Cycle (rs : list nat) (now : Z)
  | Fire (i : nat) (swap : swapOutcome) (random : Qc) (now : Z).

(** One event: a request, a tick of the matching timer, or the firing of
    the [i]-th waiting settlement timer (in any order). *)
Definition step (s : DarkPoolEngine) (e : event) : DarkPoolEngine :=
  match e with
  | Submit eo now => (submitOrder eo now s).1
  | Cancel n c => (cancelOrder n c s).1
  | Cycle rs now => runMatchingCycle rs now s
  | Fire i swap random now =>
      match timers s !! i with
      | Some m => timerCallback swap random now m (set_timers (delete i) s)
      | None => s
      end
  end.

Definition run (s : DarkPoolEngine) (es : list event) : DarkPoolEngine :=
  foldl step s es.

End Platform.

(** ** A model of the platform for closed examples *)

(** The value of a base64 digit; both the standard and the URL-safe
    alphabet are accepted. *)
Definition base64_digit (c : ascii) : option Z :=
  let n := Z.of_nat (nat_of_ascii c) in
  if ((65 <=? n) && (n <=? 90))%Z then Some (n - 65)%Z
  else if ((97 <=? n) && (n <=? 122))%Z then Some (n - 71)%Z
  else if ((48 <=? n) && (n <=? 57))%Z then Some (n + 4)%Z
  else if ((n =? 43) || (n =? 45))%Z then Some 62%Z
  else if ((n =? 47) || (n =? 95))%Z then Some 63%Z
  else None.

(** The digits of a base64 text up to the first padding character, other
    characters dropped. *)
Fixpoint base64_digits (cs : list ascii) : list Z :=
  match cs with
  | [] => []
  | c :: cs' =>
      if bool_decide (c = "="%char) then []
      else match base64_digit c with
           | Some d => d :: base64_digits cs'
           | None => base64_digits cs'
           end
  end.

Fixpoint base64_bytes (ds : list Z) : list Z :=
  match ds with
  | a :: b :: c :: d :: ds' =>
      (a * 4 + b / 16)%Z :: ((b mod 16) * 16 + c / 4)%Z :: ((c mod 4) * 64 + d)%Z
        :: base64_bytes ds'
  | [a; b; c] => [(a * 4 + b / 16)%Z; ((b mod 16) * 16 + c / 4)%Z]
  | [a; b] => [(a * 4 + b / 16)%Z]
  | _ => []
  end.

(** [Buffer.from(x, 'base64')] on primitives: a string is decoded, anything
    else is a [TypeError]. *)
Definition node_Buffer_from_base64 (x : jsval) : option (list Z) :=
  match x with
  | JStr s => Some (base64_bytes (base64_digits (list_ascii_of_string s)))
  | _ => None
  end.

(** A payload decoder given by a table of base64 texts and the payloads
    they encode; every other value does not parse. *)
Definition table_JSON_parse_payload (table : list (string * Payload.t)) (x : jsval)
    : option Payload.t :=
  match x with
  | JStr s =>
      match list_find (λ e, e.1 = s) table with
      | Some (_, e) => Some e.2
      | None => None
      end
  | _ => None
  end.

(** [{"amount":10,"maxPrice":6,"minPrice":4}],
    [{"amount":15,"maxPrice":6,"minPrice":4}] *)
Definition sample_payloads : list (string * Payload.t) :=
  [ ("eyJhbW91bnQiOjEwLCJtYXhQcmljZSI6NiwibWluUHJpY2UiOjR9"%string,
     Payload.mk (Some (num_of_Z 10)) (Some (num_of_Z 6)) (Some (num_of_Z 4)));
    ("eyJhbW91bnQiOjE1LCJtYXhQcmljZSI6NiwibWluUHJpY2UiOjR9"%string,
     Payload.mk (Some (num_of_Z 15)) (Some (num_of_Z 6)) (Some (num_of_Z 4))) ].

Definition sample_parse : jsval → option Payload.t :=
  table_JSON_parse_payload sample_payloads.

(** Sample orders on token ["T"]: sides ["AA=="] (byte 0, a buy) and
    ["AQ=="] (byte 1, a sell). *)
Definition sample_order (payload nullifier commitment side : string) : option EncryptedOrder.t :=
  Some (EncryptedOrder.mk (JStr payload) (JStr commitment) (JStr nullifier)
          (JStr "T") (JStr side)).

Definition buyA : option EncryptedOrder.t :=
  sample_order "eyJhbW91bnQiOjEwLCJtYXhQcmljZSI6NiwibWluUHJpY2UiOjR9" "nA" "cA" "AA==".

Definition sellB : option EncryptedOrder.t :=
  sample_order "eyJhbW91bnQiOjE1LCJtYXhQcmljZSI6NiwibWluUHJpY2UiOjR9" "nB" "cB" "AQ==".

(** A second buy and a second sell, with their own nullifiers. *)
Definition buyC : option EncryptedOrder.t :=
  sample_order "eyJhbW91bnQiOjEwLCJtYXhQcmljZSI6NiwibWluUHJpY2UiOjR9" "nC" "cC" "AA==".


Definition sample_run (service : bool) : list event → DarkPoolEngine :=
  run node_Buffer_from_base64 sample_parse (constructor service None).

(** An order whose side is the number 5, which does not decode. *)
Definition sidelessX : option EncryptedOrder.t :=
  Some (EncryptedOrder.mk (JStr "eyJhbW91bnQiOjEwLCJtYXhQcmljZSI6NiwibWluUHJpY2UiOjR9")
          (JStr "cX") (JStr "nX") (JStr "T") (JNum (num_of_Z 5))).

(** A buy and a sell that carry the same nullifier. *)
Definition buyN : option EncryptedOrder.t :=
  sample_order "eyJhbW91bnQiOjEwLCJtYXhQcmljZSI6NiwibWluUHJpY2UiOjR9" "n" "c1" "AA==".

Definition sellN : option EncryptedOrder.t :=
  sample_order "eyJhbW91bnQiOjE1LCJtYXhQcmljZSI6NiwibWluUHJpY2UiOjR9" "n" "c2" "AQ==".


(** ** Vocabulary of the properties *)

(** A property of the submitted object is missing when it is [undefined]
    or [null], and empty when it is one of the remaining falsy primitives:
    the empty string, [0], [NaN] or [false]. *)
Definition missing (v : jsval) : Prop := v = JUndefined ∨ v = JNull.

Definition empty (v : jsval) : Prop :=
  v = JStr "" ∨ v = JNum (Fin 0) ∨ v = JNum NaN ∨ v = JBool false.

Definition required_fields (o : EncryptedOrder.t) : list jsval :=
  [EncryptedOrder.payload o; EncryptedOrder.commitment o; EncryptedOrder.nullifier o;
   EncryptedOrder.tokenAddress o; EncryptedOrder.encryptedSide o].

(** At least one required property is missing or empty (all of them are
    when no object is passed at all). *)
Definition lacks_field (encryptedOrder : option EncryptedOrder.t) : Prop :=
  match encryptedOrder with
  | None => True
  | Some o => ∃ v, v ∈ required_fields o ∧ (missing v ∨ empty v)
  end.

Definition with_payload (p : jsval) (o : EncryptedOrder.t) : EncryptedOrder.t :=
  EncryptedOrder.mk p (EncryptedOrder.commitment o) (EncryptedOrder.nullifier o)
    (EncryptedOrder.tokenAddress o) (EncryptedOrder.encryptedSide o).

(** An order carries the credentials of a cancellation request. *)
Definition addressed (s : DarkPoolEngine) (nullifier commitment : jsval) (r : nat) : Prop :=
  strict_eq (Order.nullifier (objects s !!! r)) nullifier = true
  ∧ strict_eq (Order.commitment (objects s !!! r)) commitment = true.

(** Some book holds a pending order with these credentials. *)
Definition cancellable (s : DarkPoolEngine) (nullifier commitment : jsval) : Prop :=
  ∃ token orders r,
    (token, orders) ∈ orderBooks s ∧ r ∈ orders
    ∧ addressed s nullifier commitment r ∧ is_pending (objects s) r.

(** The engine fields that matching leaves alone. *)
Definition same_outside_objects (s s' : DarkPoolEngine) : Prop :=
  orderBooks s' = orderBooks s ∧ pendingMatches s' = pendingMatches s
  ∧ stats s' = stats s ∧ config s' = config s
  ∧ anoncoinService s' = anoncoinService s ∧ swaps s' = swaps s
  ∧ emitted s' = emitted s.

(** The midpoint of the buyer's ceiling and the seller's floor, the bound
    on the noise (0.05% of the midpoint), and the test
    [|executionPrice - midpoint| <= bound]. *)
Definition midpoint (buyDetails sellDetails : Details.t) : num :=
  num_div (num_add (Details.maxPrice buyDetails) (Details.minPrice sellDetails))
          (Fin (Q2Qc 2)).



(** Every book is free of repeated entries and refers to live objects. *)
Definition books_ok (s : DarkPoolEngine) : Prop :=
  ∀ token orders, (token, orders) ∈ orderBooks s →
    NoDup orders ∧ ∀ r, r ∈ orders → r < length (objects s).

Definition nullifiers_of (h : list Order.t) (orders : list nat) : list jsval :=
  (λ r, Order.nullifier (h !!! r)) <$> orders.

(** No two orders of a book share a nullifier. *)
Definition nullifier_unique (s : DarkPoolEngine) : Prop :=
  ∀ token orders, (token, orders) ∈ orderBooks s →
    NoDup (nullifiers_of (objects s) orders).

(** Two object stores that differ at most in the [status] of their
    orders. *)
Definition status_only (h h' : list Order.t) : Prop :=
  length h' = length h
  ∧ ∀ r, Order.set_status "" (h' !!! r) = Order.set_status "" (h !!! r).

(** Every book is what is left of a book under the same token. *)
Definition shrinks (books books' : list (jsval * list nat)) : Prop :=
  ∀ token orders', (token, orders') ∈ books' →
    ∃ orders, (token, orders) ∈ books ∧ orders' `sublist_of` orders.

(** A submission that passes validation brings a nullifier that no order in
    its token's book carries. *)
Definition fresh_submit (s : DarkPoolEngine) (e : event) : Prop :=
  match e with
  | Submit (Some eo) _ =>
      truthy (validateEncryptedOrder (Some eo)) = true →
      ∀ orders, jm_get (EncryptedOrder.tokenAddress eo) (orderBooks s) = Some orders →
        EncryptedOrder.nullifier eo ∉ nullifiers_of (objects s) orders
  | _ => True
  end.

(** Every submission of a run is fresh at the moment it arrives. *)
Fixpoint fresh_run (Buffer_from_base64 : jsval → option (list Z))
    (JSON_parse_payload : jsval → option Payload.t)
    (s : DarkPoolEngine) (es : list event) : Prop :=
  match es with
  | [] => True
  | e :: es' =>
      fresh_submit s e
      ∧ fresh_run Buffer_from_base64 JSON_parse_payload
          (step Buffer_from_base64 JSON_parse_payload s e) es'
  end.

(** ** The scheduler *)

(** The part of the engine that [start] and [stop] touch: the [running]
    flag, the handle kept in [matchingTimer], the interval timers that are
    active, and the next handle [setInterval] hands out. *)
Module Scheduler.
Record t := mk {
  running : bool;
  matchingTimer : option nat;
  intervals : list nat;
  handles : nat
}.
End Scheduler.

(** The scheduler of a new engine. *)
Definition scheduler_init : Scheduler.t := Scheduler.mk false None [] 0.

(** [start()] *)
Definition start (k : Scheduler.t) : Scheduler.t :=
  if Scheduler.running k then k
  else
    Scheduler.mk true (Some (Scheduler.handles k))
      (Scheduler.intervals k ++ [Scheduler.handles k]) (S (Scheduler.handles k)).

(** [stop()]; [clearInterval(h)] drops the handle [h]. *)
Definition stop (k : Scheduler.t) : Scheduler.t :=
  if negb (Scheduler.running k) then k
  else
    Scheduler.mk false (Scheduler.matchingTimer k)
      (match Scheduler.matchingTimer k with
       | Some h => filter (λ x, x ≠ h) (Scheduler.intervals k)
       | None => Scheduler.intervals k
       end)
      (Scheduler.handles k).

Definition isRunning (k : Scheduler.t) : bool := Scheduler.running k.

Inductive control := Start | Stop.

Definition control_step (k : Scheduler.t) (c : control) : Scheduler.t :=
  match c with Start => start k | Stop => stop k end.

(** ** The settlement delay *)


(** ** The HTTP routes of the dark pool *)

(** The body of [POST /order]. *)
Module OrderRequest.
Record t := mk {
  encryptedPayload : jsval;
  commitment : jsval;
  nullifier : jsval;
  tokenAddress : jsval;
  encryptedSide : jsval
}.
End OrderRequest.

(** What a handler answers: a JSON body under a status code, or an error
    passed to [next]. *)
Inductive reply :=
  | ErrorJson (code : nat) (error : string)
  | ReceiptJson (code : nat) (receipt : Receipt.t)
  | NotFoundJson (code : nat) (status message : string)
  | FillJson (code : nat) (fill : Fill.t)
  | CancelJson (code : nat) (result : CancelResult.t)
  | Next (error : exn).

(** [router.post('/order', ...)] *)
Definition postOrder (body : OrderRequest.t) (now : Z) (s : DarkPoolEngine)
    : DarkPoolEngine * reply :=
  if negb (truthy (OrderRequest.encryptedPayload body))
     || negb (truthy (OrderRequest.commitment body))
     || negb (truthy (OrderRequest.nullifier body))
     || negb (truthy (OrderRequest.tokenAddress body))
  then (s, ErrorJson 400 "Missing required fields")
  else
    match submitOrder
            (Some (EncryptedOrder.mk (OrderRequest.encryptedPayload body)
                     (OrderRequest.commitment body) (OrderRequest.nullifier body)
                     (OrderRequest.tokenAddress body) (OrderRequest.encryptedSide body)))
            now s with
    | (s, Returned result) => (s, ReceiptJson 200 result)
    | (s, Threw error) => (s, Next error)
    end.

(** [router.get('/status/:nullifier', ...)]; a route parameter is a
    string. *)
Definition getStatus (nullifier : string) (s : DarkPoolEngine) : reply :=
  match checkMatchStatus (JStr nullifier) s with
  | Some status => FillJson 200 status
  | None => NotFoundJson 404 "not_found" "Order not found or not yet matched"
  end.

(** [router.delete('/order', ...)] *)
Definition deleteOrder (nullifier commitment : jsval) (s : DarkPoolEngine)
    : DarkPoolEngine * reply :=
  if negb (truthy nullifier) || negb (truthy commitment)
  then (s, ErrorJson 400 "Nullifier and commitment required")
  else
    let '(s, result) := cancelOrder nullifier commitment s in
    (s, CancelJson 200 result).

(** The side indicator of [router.post('/encrypt', ...)]:
    [crypto.randomBytes(32)] with its first byte replaced by 0 for a buy
    and 1 otherwise. *)
Definition encryptSide (side : jsval) (randomBytes : list Z) : list Z :=
  <[0 := if strict_eq side (JStr "buy") then 0%Z else 1%Z]> randomBytes.

(** ** Vocabulary of the invariants *)

(** Every order either is as it was or has become ['matched']. *)
Definition only_matched (h h' : list Order.t) : Prop :=
  length h' = length h
  ∧ ∀ r, h' !!! r = h !!! r ∨ h' !!! r = Order.set_status "matched" (h !!! r).

(** The counters agree with what the engine holds: [totalOrders] counts the
    order objects ever created, [totalMatches] and [totalExecuted] both
    count the execution events sent, every execution of an engine with a
    settlement service was preceded by a call to the service, and an engine
    without one never calls it. *)
Definition stats_consistent (s : DarkPoolEngine) : Prop :=
  Stats.totalOrders (stats s) = length (objects s)
  ∧ Stats.totalMatches (stats s) = length (emitted s)
  ∧ Stats.totalExecuted (stats s) = length (emitted s)
  ∧ (if anoncoinService s then length (emitted s) ≤ length (swaps s)
     else swaps s = []).

(** Every order is ['pending'] or ['matched']. *)
Definition statuses_known (s : DarkPoolEngine) : Prop :=
  ∀ r, r < length (objects s) →
    Order.status (objects s !!! r) = "pending"%string
    ∨ Order.status (objects s !!! r) = "matched"%string.

(** Order identifiers were all handed out already, and no two orders share
    one. *)
Definition ids_distinct (s : DarkPoolEngine) : Prop :=
  (∀ r, r < length (objects s) → Order.id (objects s !!! r) < uuids s)
  ∧ ∀ r1 r2, r1 < length (objects s) → r2 < length (objects s) →
      Order.id (objects s !!! r1) = Order.id (objects s !!! r2) → r1 = r2.

(** Each book holds orders of its token only. *)
Definition books_by_token (s : DarkPoolEngine) : Prop :=
  ∀ token orders r, (token, orders) ∈ orderBooks s → r ∈ orders →
    Order.tokenAddress (objects s !!! r) = token.

(** The orders of a list of matches: the buy orders, then the sell
    orders. *)
Definition matched_orders (matches : list Match.t) : list nat :=
  (Match.buyOrder <$> matches) ++ (Match.sellOrder <$> matches).

(** The orders of the matches that wait for settlement. *)
Definition in_flight (s : DarkPoolEngine) : list nat := matched_orders (timers s).

(** No order waits in two matches or on both sides of one, and the orders
    that wait are live objects with status ['matched'], of the token of
    their match, and still in a book of that token. *)
Definition in_flight_ok (s : DarkPoolEngine) : Prop :=
  NoDup (in_flight s)
  ∧ (∀ r, r ∈ in_flight s →
       r < length (objects s) ∧ Order.status (objects s !!! r) = "matched"%string)
  ∧ ∀ m r, m ∈ timers s → r = Match.buyOrder m ∨ r = Match.sellOrder m →
      Order.tokenAddress (objects s !!! r) = Match.tokenAddress m
      ∧ ∃ orders, (Match.tokenAddress m, orders) ∈ orderBooks s ∧ r ∈ orders.

(** ** The encoder of the platform model *)

(** The character of a base64 digit in the standard alphabet. *)
Definition base64_char (d : Z) : ascii :=
  if (d <? 26)%Z then ascii_of_nat (Z.to_nat (d + 65))
  else if (d <? 52)%Z then ascii_of_nat (Z.to_nat (d + 71))
  else if (d <? 62)%Z then ascii_of_nat (Z.to_nat (d - 4))
  else if (d =? 62)%Z then "+"%char
  else "/"%char.

Fixpoint base64_text (bytes : list Z) : list ascii :=
  match bytes with
  | a :: b :: c :: bytes' =>
      base64_char (a / 4) :: base64_char ((a mod 4) * 16 + b / 16)
        :: base64_char ((b mod 16) * 4 + c / 64) :: base64_char (c mod 64)
        :: base64_text bytes'
  | [a; b] =>
      [base64_char (a / 4); base64_char ((a mod 4) * 16 + b / 16);
       base64_char ((b mod 16) * 4); "="%char]
  | [a] => [base64_char (a / 4); base64_char ((a mod 4) * 16); "="%char; "="%char]
  | [] => []
  end.

(** [buffer.toString('base64')] *)
Definition node_toString_base64 (buffer : list Z) : string :=
  string_of_list_ascii (base64_text buffer).

(** Thirty-two bytes standing for a draw of [crypto.randomBytes(32)]. *)
Definition sample_randomBytes : list Z :=
  (λ i, (Z.of_nat i * 37 + 11) mod 256)%Z <$> seq 0 32.

(** The books and the waiting matches are consistent with the order
    objects. *)
Definition well_formed (s : DarkPoolEngine) : Prop :=
  books_ok s ∧ NoDup (orderBooks s).*1 ∧ ids_distinct s ∧ books_by_token s
  ∧ in_flight_ok s.

(** Every recorded fill repeats the amount of its execution, is the buy or
    the sell side of it, and is filed under the nullifier of an order that
    was admitted. *)
Definition fills_ok (s : DarkPoolEngine) : Prop :=
  ∀ nullifier fill, pendingMatches s !! nullifier = Some fill →
    Fill.fillAmount fill = Execution.amount (Fill.execution fill)
    ∧ (Fill.side fill = "buy"%string ∨ Fill.side fill = "sell"%string)
    ∧ Execution.executedOnChain (Fill.execution fill) = true
    ∧ ∃ r, r < length (objects s) ∧ Order.nullifier (objects s !!! r) = nullifier.


(** The five submitted fields of an order object. *)
Definition order_fields (o : Order.t) : list jsval :=
  [Order.encryptedPayload o; Order.commitment o; Order.nullifier o;
   Order.tokenAddress o; Order.encryptedSide o].

(** Every order object carries five truthy fields. *)
Definition orders_valid (s : DarkPoolEngine) : Prop :=
  ∀ r, r < length (objects s) →
    Forall (λ v, truthy v = true) (order_fields (objects s !!! r)).

(** * Properties *)

(** ** The model on sample inputs *)

Example decode_AA : node_Buffer_from_base64 (JStr "AA==") = Some [0%Z].
Proof. reflexivity. Qed.

Example decode_AQ : node_Buffer_from_base64 (JStr "AQ==") = Some [1%Z].
Proof. reflexivity. Qed.

Example decode_number : node_Buffer_from_base64 (JNum (num_of_Z 5)) = None.
Proof. reflexivity. Qed.

Example sample_two_orders :
  let s := sample_run true [Submit buyA 1; Submit sellB 2] in
  orderBooks s = [(JStr "T", [0; 1])] ∧ Stats.totalOrders (stats s) = 2.
Proof. vm_compute. done. Qed.

Example sample_matched :
  let s := sample_run true [Submit buyA 1; Submit sellB 2; Cycle [] 3] in
  Order.status <$> objects s = ["matched"%string; "matched"%string]
  ∧ timers s = [Match.mk 2 0 1 (JStr "T") 3].
Proof. vm_compute. done. Qed.

Example sample_settled :
  let s := sample_run true
             [Submit buyA 1; Submit sellB 2; Cycle [] 3;
              Fire 0 (SwapResolved (JStr "tx")) 0 4] in
  orderBooks s = [(JStr "T", [])]
  ∧ (Fill.side <$> checkMatchStatus (JStr "nA") s) = Some "buy"%string
  ∧ (Fill.side <$> checkMatchStatus (JStr "nB") s) = Some "sell"%string.
Proof. vm_compute. done. Qed.

(** ** Maps in insertion order *)

Section JsMapFacts.
Context {V : Type}.
Implicit Types (k : jsval) (v : V) (m : list (jsval * V)).

Lemma jm_get_set_eq k v m : jm_get k (jm_set k v m) = Some v.
Proof.
  induction m as [|[k' v'] m IH]; simpl.
  - by rewrite decide_True.
  - destruct (decide (k = k')) as [->|Hne]; simpl.
    + by rewrite decide_True.
    + by rewrite decide_False.
Qed.

Lemma jm_get_set_ne k k' v m : k ≠ k' → jm_get k' (jm_set k v m) = jm_get k' m.
Proof.
  intros Hne. induction m as [|[k0 v0] m IH]; simpl.
  - by rewrite decide_False.
  - destruct (decide (k = k0)) as [->|Hk]; simpl.
    + by rewrite !decide_False.
    + destruct (decide (k' = k0)); [done|apply IH].
Qed.

Lemma jm_get_elem_of k v m : jm_get k m = Some v → (k, v) ∈ m.
Proof.
  induction m as [|[k0 v0] m IH]; simpl; [done|].
  destruct (decide (k = k0)) as [->|Hk].
  - intros [= ->]. left.
  - intros H. right. by apply IH.
Qed.

(** Every entry after a [set] is the new one or an old one. *)
Lemma jm_set_elem_of k v m kx vx :
  (kx, vx) ∈ jm_set k v m → (kx = k ∧ vx = v) ∨ (kx, vx) ∈ m.
Proof.
  induction m as [|[k0 v0] m IH]; simpl.
  - intros [= -> ->]%list_elem_of_singleton. by left.
  - destruct (decide (k = k0)) as [->|Hk].
    + intros [[= -> ->]|Hin]%elem_of_cons; [by left|]. right. by right.
    + intros [[= -> ->]|Hin]%elem_of_cons; [right; left|].
      destruct (IH Hin) as [?|?]; [by left|]. right. by right.
Qed.

End JsMapFacts.

(** ** Admission *)

Lemma truthy_js_and a b : truthy (js_and a b) = truthy a && truthy b.
Proof. unfold js_and. by destruct (truthy a) eqn:E; simpl; [|rewrite E]. Qed.

Lemma falsy_iff v : truthy v = false ↔ missing v ∨ empty v.
Proof.
  unfold missing, empty. split.
  - destruct v as [| |[]|[q| | |]|s]; simpl; intros H; try discriminate;
      try (apply negb_false_iff, bool_decide_eq_true in H; subst); naive_solver.
  - intros [[->| ->]|[->|[->|[->| ->]]]]; reflexivity.
Qed.

Lemma validate_truthy o :
  truthy (validateEncryptedOrder (Some o)) = true ↔
  Forall (λ v, truthy v = true) (required_fields o).
Proof.
  unfold validateEncryptedOrder, required_fields.
  rewrite !truthy_js_and, !andb_true_iff. split.
  - intros ((((? & ?) & ?) & ?) & ?). by repeat constructor.
  - intros H. repeat (apply Forall_cons in H as [? H]). done.
Qed.

Lemma validate_falsy eo :
  truthy (validateEncryptedOrder eo) = false ↔ lacks_field eo.
Proof.
  destruct eo as [o|]; [|by split].
  rewrite <-not_true_iff_false, validate_truthy. unfold lacks_field.
  rewrite <-Exists_Forall_neg by (intros x; destruct (truthy x); auto).
  rewrite Exists_exists.
  apply exist_proper. intros v.
  by rewrite not_true_iff_false, falsy_iff.
Qed.

(** C8.  [submitOrder] throws the structural-validation error exactly when
    one of [payload], [commitment], [nullifier], [tokenAddress],
    [encryptedSide] is missing or empty.  When it does, nothing is admitted:
    the order books, the order objects, the statistics (with
    [totalOrders]), the recorded fills and the waiting settlements are as
    before.  Validation looks at the payload only to see whether it is
    there: replacing it by any other payload that is likewise present, or
    likewise absent, does not change the verdict. *)
Theorem submitOrder_structural_validation
    (encryptedOrder : option EncryptedOrder.t) (now : Z) (s : DarkPoolEngine) :
  ((submitOrder encryptedOrder now s).2 = Threw (Error "Invalid order structure")
   ↔ lacks_field encryptedOrder)
  ∧ (lacks_field encryptedOrder →
     let s' := (submitOrder encryptedOrder now s).1 in
     orderBooks s' = orderBooks s ∧ objects s' = objects s ∧ stats s' = stats s
     ∧ pendingMatches s' = pendingMatches s ∧ timers s' = timers s)
  ∧ (∀ o p, encryptedOrder = Some o → truthy p = truthy (EncryptedOrder.payload o) →
     truthy (validateEncryptedOrder (Some (with_payload p o)))
     = truthy (validateEncryptedOrder (Some o))).
Proof.
  split; [|split].
  - rewrite <-validate_falsy. unfold submitOrder. simpl.
    destruct encryptedOrder as [o|]; [|done].
    destruct (truthy (validateEncryptedOrder (Some o))) eqn:E; simpl; [|done].
    split; [|done]. by destruct (EncryptedOrder.tokenAddress o).
  - intros H%validate_falsy. unfold submitOrder. simpl.
    destruct encryptedOrder as [o|]; [|done]. by rewrite H.
  - intros o p _ Hp. unfold validateEncryptedOrder, with_payload. simpl.
    rewrite !truthy_js_and. by rewrite Hp.
Qed.

(** ** Cancellation *)

Lemma findIndex_Some {A} (p : A → bool) l i :
  findIndex p l = Some i → ∃ x, l !! i = Some x ∧ p x = true.
Proof.
  revert i. induction l as [|y l IH]; intros i; simpl; [done|].
  destruct (p y) eqn:E.
  - intros [= <-]. by exists y.
  - destruct (findIndex p l) as [j|]; simpl; [|done].
    intros [= <-]. by apply IH.
Qed.

Lemma findIndex_None {A} (p : A → bool) l :
  findIndex p l = None ↔ ∀ x, x ∈ l → p x = false.
Proof.
  induction l as [|y l IH]; simpl.
  - split; [by intros _ x ?%elem_of_nil|done].
  - destruct (p y) eqn:E.
    + split; [done|]. intros H. specialize (H y). rewrite E in H.
      discriminate H. by left.
    + destruct (findIndex p l) as [j|]; simpl.
      * split; [done|]. intros H. exfalso.
        assert (Some j = None) as [=]. apply IH. intros x Hx. apply H. by right.
      * split; [|done]. intros _ x [->|Hx]%elem_of_cons; [done|].
        by apply IH.
Qed.

Lemma cancelLoop_None p books :
  cancelLoop p books = None ↔
  ∀ token orders r, (token, orders) ∈ books → r ∈ orders → p r = false.
Proof.
  induction books as [|[t os] books IH]; simpl.
  - split; [by intros _ ? ? ? ?%elem_of_nil|done].
  - destruct (findIndex p os) as [i|] eqn:E.
    + split; [done|]. intros H. exfalso.
      apply findIndex_Some in E as (x & Hx & Hp).
      rewrite (H t os x) in Hp; [done|by left|by eapply list_elem_of_lookup_2].
    + rewrite fmap_None, IH. split.
      * intros H token orders r [[= -> ->]|Hin]%elem_of_cons Hr.
        -- by eapply findIndex_None.
        -- by eapply H.
      * intros H token orders r Hin Hr. eapply H; [by right|done].
Qed.

Lemma cancelLoop_Some p books books' :
  cancelLoop p books = Some books' →
  ∃ pre token orders rest index r,
    books = pre ++ (token, orders) :: rest
    ∧ orders !! index = Some r ∧ p r = true
    ∧ books' = pre ++ (token, delete index orders) :: rest.
Proof.
  revert books'. induction books as [|[t os] books IH]; intros books'; simpl; [done|].
  destruct (findIndex p os) as [i|] eqn:E.
  - intros [= <-]. apply findIndex_Some in E as (x & Hx & Hp).
    by exists [], t, os, books, i, x.
  - destruct (cancelLoop p books) as [b|]; simpl; [|done].
    intros [= <-].
    destruct (IH b eq_refl) as (pre & token & orders & rest & index & r & -> & ? & ? & ->).
    by exists ((t, os) :: pre), token, orders, rest, index, r.
Qed.

Lemma cancel_pred_true s nullifier commitment r :
  cancel_pred (objects s) nullifier commitment r = true ↔
  addressed s nullifier commitment r ∧ is_pending (objects s) r.
Proof.
  unfold cancel_pred, addressed, is_pending.
  rewrite !andb_true_iff, bool_decide_eq_true. tauto.
Qed.

Lemma elem_of_delete_ne {A} (l : list A) i x y :
  l !! i = Some y → x ∈ l → x ≠ y → x ∈ delete i l.
Proof.
  intros Hi Hx Hne. rewrite delete_take_drop.
  rewrite <-(take_drop_middle l i y Hi) in Hx.
  rewrite elem_of_app, elem_of_cons in Hx. rewrite elem_of_app. naive_solver.
Qed.

(** C4 (as amended).  [cancelOrder(nullifier, commitment)] reports success
    exactly when some book holds an order with that nullifier, that
    commitment (both compared with [===]) and status ['pending'].  On
    success one such order, and nothing else, is taken out of its book;
    otherwise the result is the not-found answer and the engine is as it
    was.  An order whose status is not ['pending'] (['matched'] or later)
    is never taken out, whatever the credentials.  When the orders that
    carry the credentials all have a status other than ['pending'], the
    answer is not-found and every book is unchanged.  The order objects,
    the fills and the statistics are never touched. *)
Theorem cancelOrder_pending_only (nullifier commitment : jsval) (s : DarkPoolEngine) :
  let s' := (cancelOrder nullifier commitment s).1 in
  let result := (cancelOrder nullifier commitment s).2 in
  (CancelResult.success result = true ↔ cancellable s nullifier commitment)
  ∧ (CancelResult.success result = true →
     ∃ pre token orders rest index r,
       orderBooks s = pre ++ (token, orders) :: rest
       ∧ orders !! index = Some r
       ∧ addressed s nullifier commitment r ∧ is_pending (objects s) r
       ∧ orderBooks s' = pre ++ (token, delete index orders) :: rest)
  ∧ (CancelResult.success result = false →
     result = CancelResult.mk false "Order not found or already matched" ∧ s' = s)
  ∧ (∀ token orders r, (token, orders) ∈ orderBooks s → r ∈ orders →
       Order.status (objects s !!! r) ≠ "pending"%string →
       ∃ orders', (token, orders') ∈ orderBooks s' ∧ r ∈ orders')
  ∧ ((∀ token orders r, (token, orders) ∈ orderBooks s → r ∈ orders →
        addressed s nullifier commitment r →
        Order.status (objects s !!! r) ≠ "pending"%string) →
     result = CancelResult.mk false "Order not found or already matched"
     ∧ orderBooks s' = orderBooks s)
  ∧ objects s' = objects s ∧ pendingMatches s' = pendingMatches s
  ∧ stats s' = stats s ∧ timers s' = timers s.
Proof.
  unfold cancelOrder.
  destruct (cancelLoop _ _) as [books|] eqn:E; simpl.
  - apply cancelLoop_Some in E
      as (pre & token & orders & rest & index & r & Hb & Hr & Hp & ->).
    apply cancel_pred_true in Hp as [Ha Hpend].
    assert (Hc : cancellable s nullifier commitment).
    { exists token, orders, r. rewrite Hb.
      split_and!; [|by eapply list_elem_of_lookup_2|done..].
      apply elem_of_app. right. left. }
    split_and!; try done.
    + by exists pre, token, orders, rest, index, r.
    + intros t os x Hin Hx Hst. rewrite Hb in Hin.
      apply elem_of_app in Hin as [Hin|[[= -> ->]|Hin]%elem_of_cons].
      * exists os. split; [|done]. apply elem_of_app. by left.
      * exists (delete index orders). split; [apply elem_of_app; right; left|].
        eapply elem_of_delete_ne; [done..|]. intros ->. by apply Hst.
      * exists os. split; [|done]. apply elem_of_app. right. by right.
    + intros H. exfalso. destruct Hc as (t & os & x & ? & ? & ? & ?).
      by eapply H.
  - pose proof (proj1 (cancelLoop_None _ _) E) as Hnone.
    split_and!; try done.
    + split; [done|].
      intros (token & orders & r & Hin & Hr & Ha & Hp).
      assert (cancel_pred (objects s) nullifier commitment r = true) as Ht
        by by apply cancel_pred_true.
      by rewrite (Hnone _ _ _ Hin Hr) in Ht.
    + intros t os x Hin Hx _. by exists os.
Qed.

(** ** Settlement *)

Section Settlement.
Variable JSON_parse_payload : jsval → option Payload.t.

Local Abbreviation executeMatch := (executeMatch JSON_parse_payload).
Local Abbreviation timerCallback := (timerCallback JSON_parse_payload).
Local Abbreviation decryptOrderForExecution :=
  (decryptOrderForExecution JSON_parse_payload).

Lemma status_set_status r st s :
  r < length (objects s) → Order.status (objects (set_status r st s) !!! r) = st.
Proof. intros Hr. simpl. by rewrite list_lookup_total_alter_eq. Qed.

Lemma status_set_status_other r r' st s :
  Order.status (objects (set_status r st s) !!! r') = st
  ∨ objects (set_status r st s) !!! r' = objects s !!! r'.
Proof.
  simpl. rewrite list_lookup_total_alter. case_decide as H; [|by right].
  destruct H as [-> _]. by left.
Qed.

Lemma length_set_status r st s :
  length (objects (set_status r st s)) = length (objects s).
Proof. simpl. apply length_alter. Qed.

(** Setting both orders of a match to a status leaves both with it. *)
Lemma status_set_both b sl st s :
  b < length (objects s) → sl < length (objects s) →
  let s' := set_status sl st (set_status b st s) in
  Order.status (objects s' !!! b) = st ∧ Order.status (objects s' !!! sl) = st.
Proof.
  intros Hb Hs s'. split.
  - destruct (status_set_status_other sl b st (set_status b st s)) as [H|H]; [done|].
    subst s'. rewrite H. by apply status_set_status.
  - apply status_set_status. by rewrite length_set_status.
Qed.

(** What a failed settlement leaves behind, for [executeMatch] alone. *)
Lemma executeMatch_threw e random now m s :
  anoncoinService s = true →
  let s' := (executeMatch (SwapThrew e) random now m s).1 in
  (executeMatch (SwapThrew e) random now m s).2 = Threw e
  ∧ objects s' =
      alter (Order.set_status "pending") (Match.sellOrder m)
        (alter (Order.set_status "pending") (Match.buyOrder m) (objects s))
  ∧ pendingMatches s' = pendingMatches s ∧ orderBooks s' = orderBooks s
  ∧ stats s' = stats s ∧ timers s' = timers s.
Proof. intros Hsvc. unfold executeMatch. simpl. rewrite Hsvc. by simpl. Qed.

(** C1 (as amended).  When the settlement call throws, the deferred task
    leaves both orders of the match with status ['pending'], still in their
    book, and records nothing: [pendingMatches] is as before, so
    [checkMatchStatus] answers for every nullifier what it answered before
    the attempt, and in particular nothing for the two orders unless an
    earlier settlement stored a fill under the same nullifier. *)
Theorem settlement_failure_reverts (e : exn) (random : Qc) (now : Z) (m : Match.t)
    (s : DarkPoolEngine) :
  anoncoinService s = true →
  Match.buyOrder m < length (objects s) →
  Match.sellOrder m < length (objects s) →
  let s' := timerCallback (SwapThrew e) random now m s in
  let buy := objects s !!! Match.buyOrder m in
  let sell := objects s !!! Match.sellOrder m in
  (executeMatch (SwapThrew e) random now m s).2 = Threw e
  ∧ Order.status (objects s' !!! Match.buyOrder m) = "pending"%string
  ∧ Order.status (objects s' !!! Match.sellOrder m) = "pending"%string
  ∧ orderBooks s' = orderBooks s
  ∧ pendingMatches s' = pendingMatches s
  ∧ (∀ nullifier, checkMatchStatus nullifier s' = checkMatchStatus nullifier s)
  ∧ (checkMatchStatus (Order.nullifier buy) s = None →
     checkMatchStatus (Order.nullifier buy) s' = None)
  ∧ (checkMatchStatus (Order.nullifier sell) s = None →
     checkMatchStatus (Order.nullifier sell) s' = None).
Proof.
  intros Hsvc Hb Hs s' buy sell.
  destruct (executeMatch_threw e random now m s Hsvc) as (Hres & Hobj & Hpm & Hbooks & _).
  assert (Hs' : s' = set_status (Match.sellOrder m) "pending"
                  (set_status (Match.buyOrder m) "pending"
                     (executeMatch (SwapThrew e) random now m s).1)).
  { subst s'. unfold timerCallback.
    destruct (executeMatch (SwapThrew e) random now m s) as [s1 [ex|e']]; [done|done]. }
  set (s1 := (executeMatch (SwapThrew e) random now m s).1) in *.
  assert (Hlen : length (objects s1) = length (objects s)).
  { rewrite Hobj. by rewrite !length_alter. }
  destruct (status_set_both (Match.buyOrder m) (Match.sellOrder m) "pending" s1)
    as [H1 H2]; [by rewrite Hlen..|].
  assert (Hpm' : pendingMatches s' = pendingMatches s) by (by rewrite Hs').
  split_and!; try done.
  - by rewrite Hs'.
  - by rewrite Hs'.
  - by rewrite Hs'.
  - intros n. unfold checkMatchStatus. by rewrite Hpm'.
  - unfold checkMatchStatus. by rewrite Hpm'.
  - unfold checkMatchStatus. by rewrite Hpm'.
Qed.

Lemma removeMatchedOrders_frame m s :
  objects (removeMatchedOrders m s) = objects s
  ∧ pendingMatches (removeMatchedOrders m s) = pendingMatches s
  ∧ stats (removeMatchedOrders m s) = stats s
  ∧ timers (removeMatchedOrders m s) = timers s
  ∧ swaps (removeMatchedOrders m s) = swaps s
  ∧ uuids (removeMatchedOrders m s) = uuids s
  ∧ config (removeMatchedOrders m s) = config s
  ∧ anoncoinService (removeMatchedOrders m s) = anoncoinService s.
Proof. unfold removeMatchedOrders. by destruct (jm_get _ _). Qed.

Lemma removeMatchedOrders_books m s :
  orderBooks (removeMatchedOrders m s) =
    match jm_get (Match.tokenAddress m) (orderBooks s) with
    | Some orders =>
        jm_set (Match.tokenAddress m)
          (filter (λ o, Order.id (objects s !!! o)
                          ≠ Order.id (objects s !!! Match.buyOrder m)
                        ∧ Order.id (objects s !!! o)
                          ≠ Order.id (objects s !!! Match.sellOrder m)) orders)
          (orderBooks s)
    | None => orderBooks s
    end.
Proof. unfold removeMatchedOrders. by destruct (jm_get _ _). Qed.

(** What a successful settlement returns and stores. *)
Lemma executeMatch_returned swap random now m s s' execution :
  executeMatch swap random now m s = (s', Returned execution) →
  let buy := objects s !!! Match.buyOrder m in
  let sell := objects s !!! Match.sellOrder m in
  let amount :=
    Math_min (Details.amount (decryptOrderForExecution buy))
             (Details.amount (decryptOrderForExecution sell)) in
  let price :=
    calculateExecutionPrice random (decryptOrderForExecution buy)
      (decryptOrderForExecution sell) in
  execution =
    Execution.mk (uuids s) (Match.id m) (Match.tokenAddress m) price amount now
      (Order.commitment buy) (Order.commitment sell) true "completed"
  ∧ pendingMatches s' =
      <[Order.nullifier sell := Fill.mk execution "sell" amount]>
        (<[Order.nullifier buy := Fill.mk execution "buy" amount]> (pendingMatches s))
  ∧ stats s' =
      Stats.mk (Stats.totalOrders (stats s)) (S (Stats.totalMatches (stats s)))
        (num_add (Stats.totalVolume (stats s)) (num_mul amount price))
        (S (Stats.totalExecuted (stats s))) (Some now) (Some now)
  ∧ orderBooks s' =
      match jm_get (Match.tokenAddress m) (orderBooks s) with
      | Some orders =>
          jm_set (Match.tokenAddress m)
            (filter (λ o, Order.id (objects s !!! o) ≠ Order.id buy
                          ∧ Order.id (objects s !!! o) ≠ Order.id sell) orders)
            (orderBooks s)
      | None => orderBooks s
      end
  ∧ objects s' = objects s
  ∧ swaps s' = (if anoncoinService s
                then swaps s ++ [Swap.mk (Match.tokenAddress m) (JStr "SOL") amount
                                   (Q2Qc (1 # 100)) price JUndefined
                                   (Order.commitment buy) (Order.nullifier buy)]
                else swaps s).
Proof.
  unfold executeMatch. simpl.
  destruct swap as [tx|e], (anoncoinService s) eqn:Hsvc; simpl;
    try discriminate; intros [= <- <-]; simpl;
    rewrite removeMatchedOrders_books;
    match goal with
    | |- context [removeMatchedOrders m ?x] =>
        destruct (removeMatchedOrders_frame m x) as (-> & -> & -> & _ & -> & _)
    end; simpl; rewrite ?Hsvc; split_and!; reflexivity.
Qed.


(** C10 (as amended).  After a successful settlement the sell order's
    nullifier looks up a fill with [side] ['sell'] and [fillAmount] the
    matched amount.  The buy order's nullifier looks up a fill with [side]
    ['buy'] and the same amount when it differs from the sell order's
    nullifier; when the two orders carry one nullifier the fill stored
    second wins and the lookup answers ['sell']. *)
Theorem status_lookup_after_settlement (swap : swapOutcome) (random : Qc) (now : Z)
    (m : Match.t) (s s' : DarkPoolEngine) (execution : Execution.t) :
  executeMatch swap random now m s = (s', Returned execution) →
  let buy := objects s !!! Match.buyOrder m in
  let sell := objects s !!! Match.sellOrder m in
  checkMatchStatus (Order.nullifier sell) s'
    = Some (Fill.mk execution "sell" (Execution.amount execution))
  ∧ (Order.nullifier buy ≠ Order.nullifier sell →
     checkMatchStatus (Order.nullifier buy) s'
       = Some (Fill.mk execution "buy" (Execution.amount execution)))
  ∧ (Order.nullifier buy = Order.nullifier sell →
     checkMatchStatus (Order.nullifier buy) s'
       = Some (Fill.mk execution "sell" (Execution.amount execution))).
Proof.
  intros E buy sell.
  apply executeMatch_returned in E as (Hex & Hpm & _).
  unfold checkMatchStatus. rewrite Hpm.
  assert (Execution.amount execution
          = Math_min (Details.amount (decryptOrderForExecution buy))
                     (Details.amount (decryptOrderForExecution sell))) as ->
    by by rewrite Hex.
  split_and!.
  - by rewrite lookup_insert_eq.
  - intros Hne. rewrite lookup_insert_ne by done. by rewrite lookup_insert_eq.
  - intros Heq. fold buy sell. rewrite Heq. by rewrite lookup_insert_eq.
Qed.

End Settlement.

(** ** Shuffling *)

Section Shuffle.
Context {A : Type}.
Implicit Types (a : list A) (rs : list nat).

Lemma swap_at_length i j a : length (swap_at i j a) = length a.
Proof.
  unfold swap_at. destruct (a !! i), (a !! j); [|done..].
  by rewrite !length_insert.
Qed.

Lemma swap_at_lookup i j a k :
  i < length a → j < length a → swap_at i j a !! k = a !! transpose i j k.
Proof.
  intros Hi Hj. unfold swap_at, transpose.
  destruct (lookup_lt_is_Some_2 a i Hi) as [x Hx].
  destruct (lookup_lt_is_Some_2 a j Hj) as [y Hy].
  rewrite Hx, Hy, !list_lookup_insert, !length_insert.
  repeat case_decide; naive_solver.
Qed.

Lemma swap_at_Permutation i j a : swap_at i j a ≡ₚ a.
Proof.
  destruct (decide (i < length a ∧ j < length a)) as [[Hi Hj]|Hout].
  - apply Permutation_inj. split; [apply swap_at_length|].
    exists (transpose i j). split; [|intros k; by apply swap_at_lookup].
    intros k1 k2. unfold transpose. repeat case_decide; congruence.
  - unfold swap_at.
    destruct (a !! i) eqn:Ei; [|done]. destruct (a !! j) eqn:Ej; [|done].
    apply lookup_lt_Some in Ei, Ej. tauto.
Qed.

Lemma shuffleLoop_Permutation i rs a : (shuffleLoop i rs a).1 ≡ₚ a.
Proof.
  revert rs a. induction i as [|i IH]; intros rs a; simpl; [done|].
  rewrite IH. apply swap_at_Permutation.
Qed.

Lemma shuffleArray_Permutation rs a : (shuffleArray rs a).1 ≡ₚ a.
Proof. apply shuffleLoop_Permutation. Qed.

End Shuffle.

(** ** Matching *)

Lemma filter_ext_in {A} (P1 P2 : A → Prop)
    `{!∀ x, Decision (P1 x), !∀ x, Decision (P2 x)} (l : list A) :
  (∀ x, x ∈ l → P1 x ↔ P2 x) → filter P1 l = filter P2 l.
Proof.
  induction l as [|a l IH]; intros Hiff; [done|].
  rewrite !filter_cons.
  rewrite IH by (intros x Hx; apply Hiff; by right).
  apply decide_ext, Hiff. left.
Qed.

Lemma filter_all {A} (P : A → Prop) `{!∀ x, Decision (P x)} (l : list A) :
  (∀ x, x ∈ l → P x) → filter P l = l.
Proof.
  induction l as [|a l IH]; intros Hall; [done|].
  rewrite filter_cons_True by (apply Hall; left).
  f_equal. apply IH. intros x Hx. apply Hall. by right.
Qed.

Lemma filter_none {A} (P : A → Prop) `{!∀ x, Decision (P x)} (l : list A) :
  (∀ x, x ∈ l → ¬ P x) → filter P l = [].
Proof.
  induction l as [|a l IH]; intros Hall; [done|].
  rewrite filter_cons_False by (apply Hall; left).
  apply IH. intros x Hx. apply Hall. by right.
Qed.

(** In a duplicate-free list the elements outside the first [n] are the
    rest. *)
Lemma filter_not_in_take {A} `{EqDecision A} (l : list A) n :
  NoDup l → filter (λ x, x ∉ take n l) l = drop n l.
Proof.
  intros Hnd. rewrite <-(take_drop n l) in Hnd.
  apply NoDup_app in Hnd as (_ & Hdis & _).
  transitivity (filter (λ x, x ∉ take n l) (take n l ++ drop n l)).
  { by rewrite take_drop. }
  rewrite filter_app, filter_none, filter_all; [done| |].
  - intros x Hx Ht. by eapply Hdis.
  - intros x Hx Hn. by apply Hn.
Qed.

Lemma set_status_idemp st o : Order.set_status st (Order.set_status st o) = Order.set_status st o.
Proof. done. Qed.

(** Marking two orders: what a later read of any order sees. *)
Lemma mark_two (h : list Order.t) st b sl r :
  r < length h →
  alter (Order.set_status st) sl (alter (Order.set_status st) b h) !!! r
  = if decide (r = b ∨ r = sl) then Order.set_status st (h !!! r) else h !!! r.
Proof.
  intros Hr. rewrite !list_lookup_total_alter, !length_alter.
  repeat case_decide; try done; try (exfalso; naive_solver lia).
  - destruct_and!; subst. by rewrite set_status_idemp.
  - destruct_and!; subst. done.
  - destruct_and!; subst. done.
Qed.

Lemma pairLoop_S n i buyOrders sellOrders token now matches s :
  pairLoop (S n) i buyOrders sellOrders token now matches s =
  pairLoop n (S i) buyOrders sellOrders token now
    (matches ++ [Match.mk (uuids s) (buyOrders !!! i) (sellOrders !!! i) token now])
    (set_status (sellOrders !!! i) "matched"
       (set_status (buyOrders !!! i) "matched" (uuidv4 s).2)).
Proof. reflexivity. Qed.

Lemma pairLoop_spec n : ∀ i buyOrders sellOrders token now matches s,
  i + n ≤ length buyOrders → i + n ≤ length sellOrders →
  let s' := (pairLoop n i buyOrders sellOrders token now matches s).1 in
  let matches' := (pairLoop n i buyOrders sellOrders token now matches s).2 in
  ∃ new,
    matches' = matches ++ new
    ∧ Match.buyOrder <$> new = take n (drop i buyOrders)
    ∧ Match.sellOrder <$> new = take n (drop i sellOrders)
    ∧ Forall (λ m, Match.tokenAddress m = token) new
    ∧ length (objects s') = length (objects s)
    ∧ (∀ r, r < length (objects s) →
         objects s' !!! r =
           if decide (r ∈ take n (drop i buyOrders) ++ take n (drop i sellOrders))
           then Order.set_status "matched" (objects s !!! r)
           else objects s !!! r)
    ∧ timers s' = timers s
    ∧ same_outside_objects s s'.
Proof.
  induction n as [|n IH]; intros i bs ss token now ms s HB HS.
  - exists []. simpl. rewrite app_nil_r. split_and!; try done.
  - rewrite pairLoop_S. cbv zeta.
    destruct (lookup_lt_is_Some_2 bs i) as [b Hb]; [lia|].
    destruct (lookup_lt_is_Some_2 ss i) as [sl Hsl]; [lia|].
    rewrite (list_lookup_total_correct _ _ _ Hb), (list_lookup_total_correct _ _ _ Hsl).
    set (s2 := set_status sl "matched" (set_status b "matched" (uuidv4 s).2)).
    set (m := Match.mk (uuids s) b sl token now).
    destruct (IH (S i) bs ss token now (ms ++ [m]) s2)
      as (new & Hms & Hbuy & Hsell & Htok & Hlen & Hobj & Htm & Hsame); [lia..|].
    exists (m :: new).
    rewrite Hms, <-app_assoc.
    rewrite (drop_S _ _ _ Hb), (drop_S _ _ _ Hsl).
    rewrite !fmap_cons, Hbuy, Hsell. cbn [take].
    assert (Hlen2 : length (objects s2) = length (objects s)).
    { subst s2. simpl. by rewrite !length_alter. }
    split_and!; try done.
    + by constructor.
    + by rewrite Hlen, Hlen2.
    + intros r Hr. rewrite Hobj by lia.
      assert (Hr2 : objects s2 !!! r =
                if decide (r = b ∨ r = sl)
                then Order.set_status "matched" (objects s !!! r)
                else objects s !!! r).
      { subst s2. simpl. by apply mark_two. }
      rewrite Hr2.
      repeat case_decide; try done; exfalso; set_solver.
Qed.

Section Matching.
Variable Buffer_from_base64 : jsval → option (list Z).

Local Abbreviation decryptSide := (decryptSide Buffer_from_base64).
Local Abbreviation is_buy := (is_buy Buffer_from_base64).
Local Abbreviation pendingBuys := (pendingBuys Buffer_from_base64).
Local Abbreviation pendingSells := (pendingSells Buffer_from_base64).
Local Abbreviation findMatches := (findMatches Buffer_from_base64).
Local Abbreviation cycleBody := (cycleBody Buffer_from_base64).

(** What one run of [findMatches] does, in terms of the two shuffled
    partitions. *)
Lemma findMatches_inv token orders rs now s :
  let s' := (findMatches token orders rs now s).1.1 in
  let matches := (findMatches token orders rs now s).1.2 in
  ∃ bs ss,
    bs ≡ₚ pendingBuys orders s ∧ ss ≡ₚ pendingSells orders s
    ∧ Match.buyOrder <$> matches = take (length bs `min` length ss) bs
    ∧ Match.sellOrder <$> matches = take (length bs `min` length ss) ss
    ∧ Forall (λ m, Match.tokenAddress m = token) matches
    ∧ length (objects s') = length (objects s)
    ∧ (∀ r, r < length (objects s) →
         objects s' !!! r =
           if decide (r ∈ take (length bs `min` length ss) bs
                          ++ take (length bs `min` length ss) ss)
           then Order.set_status "matched" (objects s !!! r)
           else objects s !!! r)
    ∧ timers s' = timers s
    ∧ same_outside_objects s s'.
Proof.
  unfold findMatches.
  change (filter (is_buy (objects s))
            (filter (is_pending (objects s)) orders)) with (pendingBuys orders s).
  change (filter (λ r, ¬ is_buy (objects s) r)
            (filter (is_pending (objects s)) orders)) with (pendingSells orders s).
  pose proof (shuffleArray_Permutation rs (pendingBuys orders s)) as Hb.
  destruct (shuffleArray rs (pendingBuys orders s)) as [bs rs1].
  pose proof (shuffleArray_Permutation rs1 (pendingSells orders s)) as Hs.
  destruct (shuffleArray rs1 (pendingSells orders s)) as [ss rs2].
  simpl in Hb, Hs.
  destruct (pairLoop_spec (length bs `min` length ss) 0 bs ss token now [] s)
    as (new & Hms & Hbuy & Hsell & Htok & Hlen & Hobj & Htm & Hsame); [lia..|].
  destruct (pairLoop _ _ _ _ _ _ _ _) as [s1 ms]. simpl in *. subst ms.
  exists bs, ss. split_and!; try done.
Qed.

(** The number of matches is the smaller of the two partition sizes. *)
Lemma findMatches_length token orders rs now s :
  length (findMatches token orders rs now s).1.2
  = length (pendingBuys orders s) `min` length (pendingSells orders s).
Proof.
  destruct (findMatches_inv token orders rs now s)
    as (bs & ss & Hb & Hs & Hbuy & _).
  rewrite <-(length_fmap Match.buyOrder), Hbuy, length_take.
  rewrite <-Hb, <-Hs. lia.
Qed.


Lemma elem_of_take_in {A} (x : A) n l : x ∈ take n l → x ∈ l.
Proof. intros (i & Hi & _)%elem_of_take. by eapply list_elem_of_lookup_2. Qed.

Lemma pendingBuys_elem orders s r :
  r ∈ pendingBuys orders s ↔ r ∈ orders ∧ is_pending (objects s) r ∧ is_buy (objects s) r.
Proof. unfold pendingBuys. rewrite !list_elem_of_filter. tauto. Qed.

Lemma pendingSells_elem orders s r :
  r ∈ pendingSells orders s ↔ r ∈ orders ∧ is_pending (objects s) r ∧ ¬ is_buy (objects s) r.
Proof. unfold pendingSells. rewrite !list_elem_of_filter. tauto. Qed.

(** C5.  In a book without repeated entries whose entries are live
    objects, a matching pass over the pending orders, [buyCount] of which
    resolve to a buy and [sellCount] to a sell, forms exactly
    [min buyCount sellCount] matches.  Each match pairs a pending buy with
    a pending sell and leaves both ['matched']; no order is in two matches.
    Of the buys, [buyCount - min] stay ['pending'], of the sells
    [sellCount - min]: the surplus of the longer side, and the only pending
    orders left in the book. *)
Theorem findMatches_pairing_conservation (token : jsval) (orders rs : list nat)
    (now : Z) (s : DarkPoolEngine) :
  NoDup orders →
  (∀ r, r ∈ orders → r < length (objects s)) →
  let buys := pendingBuys orders s in
  let sells := pendingSells orders s in
  let buyCount := length buys in
  let sellCount := length sells in
  let s' := (findMatches token orders rs now s).1.1 in
  let matches := (findMatches token orders rs now s).1.2 in
  length matches = buyCount `min` sellCount
  ∧ (∀ m, m ∈ matches →
       Match.buyOrder m ∈ buys ∧ Match.sellOrder m ∈ sells
       ∧ Order.status (objects s' !!! Match.buyOrder m) = "matched"%string
       ∧ Order.status (objects s' !!! Match.sellOrder m) = "matched"%string)
  ∧ NoDup (Match.buyOrder <$> matches)
  ∧ NoDup (Match.sellOrder <$> matches)
  ∧ length (filter (is_pending (objects s')) buys) = buyCount - buyCount `min` sellCount
  ∧ length (filter (is_pending (objects s')) sells) = sellCount - buyCount `min` sellCount
  ∧ pendingCount (objects s') orders = (buyCount - sellCount) + (sellCount - buyCount)
  ∧ orderBooks s' = orderBooks s.
Proof.
  intros Hnd Hlive buys sells buyCount sellCount s' matches.
  pose proof (findMatches_length token orders rs now s) as Hcount.
  destruct (findMatches_inv token orders rs now s)
    as (bs & ss & Hb & Hs & Hbuy & Hsell & _ & _ & Hobj & _ & Hbooks & _).
  fold s' matches in Hcount, Hbuy, Hsell, Hobj, Hbooks.
  fold buys in Hb. fold sells in Hs.
  set (n := length bs `min` length ss) in *.
  assert (Hn : n = buyCount `min` sellCount).
  { subst n buyCount sellCount. by rewrite Hb, Hs. }
  assert (Hndb : NoDup bs).
  { rewrite Hb. unfold buys, pendingBuys. by do 2 apply NoDup_filter. }
  assert (Hnds : NoDup ss).
  { rewrite Hs. unfold sells, pendingSells. by do 2 apply NoDup_filter. }
  assert (Hbs : ∀ r, r ∈ bs →
            r < length (objects s) ∧ is_pending (objects s) r ∧ is_buy (objects s) r).
  { intros r. rewrite Hb. unfold buys. rewrite pendingBuys_elem. naive_solver. }
  assert (Hss : ∀ r, r ∈ ss →
            r < length (objects s) ∧ is_pending (objects s) r ∧ ¬ is_buy (objects s) r).
  { intros r. rewrite Hs. unfold sells. rewrite pendingSells_elem. naive_solver. }
  assert (Hmarked : ∀ r, r < length (objects s) → r ∈ take n bs ++ take n ss →
            Order.status (objects s' !!! r) = "matched"%string).
  { intros r Hr Hin. rewrite Hobj by done. by rewrite decide_True. }
  assert (Hkept : ∀ r, r < length (objects s) → r ∉ take n bs ++ take n ss →
            objects s' !!! r = objects s !!! r).
  { intros r Hr Hin. rewrite Hobj by done. by rewrite decide_False. }
  assert (Hpb : ∀ r, r ∈ bs → is_pending (objects s') r ↔ r ∉ take n bs).
  { intros r Hr. destruct (Hbs r Hr) as (Hlt & Hp & Hbuyr). unfold is_pending. split.
    - intros Hp' Hin. rewrite Hmarked in Hp'; [done|done|].
      apply elem_of_app. by left.
    - intros Hin. rewrite Hkept; [done|done|].
      rewrite elem_of_app. intros [?|Hin2]; [done|].
      apply elem_of_take_in in Hin2. by destruct (Hss r Hin2) as (_ & _ & []). }
  assert (Hps : ∀ r, r ∈ ss → is_pending (objects s') r ↔ r ∉ take n ss).
  { intros r Hr. destruct (Hss r Hr) as (Hlt & Hp & Hsellr). unfold is_pending. split.
    - intros Hp' Hin. rewrite Hmarked in Hp'; [done|done|].
      apply elem_of_app. by right.
    - intros Hin. rewrite Hkept; [done|done|].
      rewrite elem_of_app. intros [Hin2|?]; [|done].
      apply elem_of_take_in in Hin2. by destruct (Hbs r Hin2) as (_ & _ & ?). }
  assert (Hleftb : length (filter (is_pending (objects s')) buys) = buyCount - n).
  { rewrite <-Hb. rewrite (filter_ext_in _ (λ x, x ∉ take n bs)) by done.
    rewrite filter_not_in_take by done. rewrite length_drop.
    subst buyCount. by rewrite <-Hb. }
  assert (Hlefts : length (filter (is_pending (objects s')) sells) = sellCount - n).
  { rewrite <-Hs. rewrite (filter_ext_in _ (λ x, x ∉ take n ss)) by done.
    rewrite filter_not_in_take by done. rewrite length_drop.
    subst sellCount. by rewrite <-Hs. }
  split_and!.
  - done.
  - intros m Hm.
    assert (Hmb : Match.buyOrder m ∈ take n bs).
    { rewrite <-Hbuy. by apply list_elem_of_fmap_2. }
    assert (Hmsl : Match.sellOrder m ∈ take n ss).
    { rewrite <-Hsell. by apply list_elem_of_fmap_2. }
    pose proof (elem_of_take_in _ _ _ Hmb) as Hmb'.
    pose proof (elem_of_take_in _ _ _ Hmsl) as Hms'.
    split_and!.
    + by rewrite <-Hb.
    + by rewrite <-Hs.
    + apply Hmarked; [by apply Hbs|]. apply elem_of_app. by left.
    + apply Hmarked; [by apply Hss|]. apply elem_of_app. by right.
  - rewrite Hbuy. apply (sublist_NoDup _ bs); [done|apply sublist_take].
  - rewrite Hsell. apply (sublist_NoDup _ ss); [done|apply sublist_take].
  - by rewrite Hleftb, Hn.
  - by rewrite Hlefts, Hn.
  - unfold pendingCount.
    assert (Hsub : filter (is_pending (objects s')) orders
                   = filter (is_pending (objects s'))
                       (filter (is_pending (objects s)) orders)).
    { rewrite list_filter_filter. apply filter_ext_in. intros r Hr.
      split; [|tauto]. intros Hp'. split; [done|].
      destruct (decide (r ∈ take n bs ++ take n ss)) as [Hin|Hout].
      - apply elem_of_app in Hin as [Hin|Hin]; apply elem_of_take_in in Hin.
        + by apply Hbs.
        + by apply Hss.
      - unfold is_pending in *. rewrite Hkept in Hp' by auto. done. }
    rewrite Hsub.
    rewrite <-(filter_app_complement (is_buy (objects s))
                 (filter (is_pending (objects s)) orders)).
    rewrite filter_app, length_app.
    change (filter (is_buy (objects s)) (filter (is_pending (objects s)) orders))
      with buys.
    change (filter (λ x, ¬ is_buy (objects s) x)
              (filter (is_pending (objects s)) orders)) with sells.
    rewrite Hleftb, Hlefts, Hn. lia.
  - done.
Qed.

(** C2 (as amended).  An order whose side cannot be decoded is not
    skipped: [decryptSide] answers ['buy'] for it, so a pending one is
    among the pass's buys.  Whenever the pending sells are at least as many
    as the pending buys, the pass puts it in a match and leaves it
    ['matched']. *)
Theorem undecodable_side_is_buy (token : jsval) (orders rs : list nat) (now : Z)
    (s : DarkPoolEngine) (r : nat) :
  NoDup orders →
  (∀ x, x ∈ orders → x < length (objects s)) →
  r ∈ orders →
  is_pending (objects s) r →
  Buffer_from_base64 (Order.encryptedSide (objects s !!! r)) = None →
  let s' := (findMatches token orders rs now s).1.1 in
  let matches := (findMatches token orders rs now s).1.2 in
  decryptSide (Order.encryptedSide (objects s !!! r)) = "buy"%string
  ∧ r ∈ pendingBuys orders s
  ∧ (length (pendingBuys orders s) ≤ length (pendingSells orders s) →
     (∃ m, m ∈ matches ∧ Match.buyOrder m = r)
     ∧ Order.status (objects s' !!! r) = "matched"%string).
Proof.
  intros Hnd Hlive Hr Hp Hfail s' matches.
  assert (Hside : decryptSide (Order.encryptedSide (objects s !!! r)) = "buy"%string).
  { unfold decryptSide. by rewrite Hfail. }
  assert (Hin : r ∈ pendingBuys orders s) by by apply pendingBuys_elem.
  split_and!; [done..|]. intros Hle.
  destruct (findMatches_inv token orders rs now s)
    as (bs & ss & Hb & Hs & Hbuy & _ & _ & _ & Hobj & _).
  fold s' matches in Hbuy, Hobj.
  assert (Hn : length bs `min` length ss = length bs).
  { rewrite Hb, Hs. lia. }
  rewrite Hn, firstn_all in Hbuy. rewrite Hn, firstn_all in Hobj.
  assert (Hrb : r ∈ bs) by by rewrite Hb.
  split.
  - rewrite <-Hbuy in Hrb. apply list_elem_of_fmap in Hrb as (m & -> & Hm). eauto.
  - rewrite Hobj by auto. rewrite decide_True; [done|].
    apply elem_of_app. by left.
Qed.

Lemma findMatches_none token orders rs now s :
  length (pendingBuys orders s) `min` length (pendingSells orders s) = 0 →
  (findMatches token orders rs now s).1 = (s, []).
Proof.
  intros Hmin. unfold findMatches.
  change (filter (is_buy (objects s)) (filter (is_pending (objects s)) orders))
    with (pendingBuys orders s).
  change (filter (λ r, ¬ is_buy (objects s) r)
            (filter (is_pending (objects s)) orders)) with (pendingSells orders s).
  pose proof (shuffleArray_Permutation rs (pendingBuys orders s)) as Hb.
  destruct (shuffleArray rs (pendingBuys orders s)) as [bs rs1].
  pose proof (shuffleArray_Permutation rs1 (pendingSells orders s)) as Hs.
  destruct (shuffleArray rs1 (pendingSells orders s)) as [ss rs2].
  simpl in Hb, Hs.
  assert (Hn : length bs `min` length ss = 0) by by rewrite Hb, Hs.
  by rewrite Hn.
Qed.



End Matching.

(** ** Execution price *)







(** ** Invariants of runs *)

Section Runs.
Variable Buffer_from_base64 : jsval → option (list Z).
Variable JSON_parse_payload : jsval → option Payload.t.

Local Abbreviation step := (step Buffer_from_base64 JSON_parse_payload).
Local Abbreviation run := (run Buffer_from_base64 JSON_parse_payload).
Local Abbreviation fresh_run := (fresh_run Buffer_from_base64 JSON_parse_payload).

Lemma status_only_refl h : status_only h h.
Proof. by split. Qed.

Lemma status_only_trans h1 h2 h3 :
  status_only h1 h2 → status_only h2 h3 → status_only h1 h3.
Proof.
  intros [Hl1 H1] [Hl2 H2]. split; [congruence|].
  intros r. by rewrite H2, H1.
Qed.

Lemma status_only_alter st i h : status_only h (alter (Order.set_status st) i h).
Proof.
  split; [apply length_alter|]. intros r.
  rewrite list_lookup_total_alter. case_decide as H; [|done].
  by destruct H as [-> _].
Qed.

Lemma status_only_nullifier h h' r :
  status_only h h' → Order.nullifier (h' !!! r) = Order.nullifier (h !!! r).
Proof.
  intros [_ H]. specialize (H r).
  by apply (f_equal Order.nullifier) in H.
Qed.

Lemma shrinks_refl books : shrinks books books.
Proof. intros token orders H. by exists orders. Qed.

(** A step that only shrinks books and only rewrites statuses keeps both
    invariants. *)
Lemma shrink_preserves s s' :
  shrinks (orderBooks s) (orderBooks s') →
  status_only (objects s) (objects s') →
  (books_ok s → books_ok s') ∧ (nullifier_unique s → nullifier_unique s').
Proof.
  intros Hshr Hst. split.
  - intros Hok token orders' Hin.
    destruct (Hshr _ _ Hin) as (orders & Hin0 & Hsub).
    destruct (Hok _ _ Hin0) as [Hnd Hlive]. split.
    + by eapply sublist_NoDup.
    + intros r Hr. destruct Hst as [-> _]. apply Hlive.
      by eapply elem_of_sublist.
  - intros Huniq token orders' Hin.
    destruct (Hshr _ _ Hin) as (orders & Hin0 & Hsub).
    assert (nullifiers_of (objects s') orders' = nullifiers_of (objects s) orders') as ->.
    { apply list_fmap_ext. intros i x _. by apply status_only_nullifier. }
    eapply sublist_NoDup; [by apply (Huniq token orders)|].
    unfold nullifiers_of. by apply fmap_sublist.
Qed.

(** *** Matching rewrites statuses only *)

Lemma pairLoop_status_only n : ∀ i buyOrders sellOrders token now matches s,
  let s' := (pairLoop n i buyOrders sellOrders token now matches s).1 in
  status_only (objects s) (objects s') ∧ orderBooks s' = orderBooks s.
Proof.
  induction n as [|n IH]; intros i bs ss token now ms s.
  - split; [apply status_only_refl|done].
  - rewrite pairLoop_S. cbv zeta.
    match goal with
    | |- context [pairLoop n (S i) bs ss token now ?ms' ?s2] =>
        destruct (IH (S i) bs ss token now ms' s2) as [Hst Hbooks]
    end.
    split; [|by rewrite Hbooks].
    eapply status_only_trans; [|exact Hst].
    eapply status_only_trans; apply status_only_alter.
Qed.

Lemma findMatches_status_only token orders rs now s :
  let s' := (findMatches Buffer_from_base64 token orders rs now s).1.1 in
  status_only (objects s) (objects s') ∧ orderBooks s' = orderBooks s.
Proof.
  unfold findMatches.
  destruct (shuffleArray rs _) as [bs rs1].
  destruct (shuffleArray rs1 _) as [ss rs2].
  match goal with
  | |- context [pairLoop ?n 0 bs ss token now [] s] =>
      pose proof (pairLoop_status_only n 0 bs ss token now [] s) as H;
      destruct (pairLoop n 0 bs ss token now [] s) as [s1 ms]
  end.
  exact H.
Qed.

Lemma cycleBody_status_only token orders rs now s :
  let s' := (cycleBody Buffer_from_base64 token orders rs now s).1.1 in
  status_only (objects s) (objects s') ∧ orderBooks s' = orderBooks s.
Proof.
  unfold cycleBody. case_bool_decide.
  - split; [apply status_only_refl|done].
  - pose proof (findMatches_status_only token orders rs now s) as Hfm.
    destruct (findMatches _ _ _ _ _ _) as [[s1 ms] rs1].
    by case_bool_decide.
Qed.

Lemma cycleLoop_status_only books : ∀ rs now s,
  let s' := cycleLoop Buffer_from_base64 books rs now s in
  status_only (objects s) (objects s') ∧ orderBooks s' = orderBooks s.
Proof.
  induction books as [|[token orders] books IH]; intros rs now s; simpl.
  - split; [apply status_only_refl|done].
  - pose proof (cycleBody_status_only token orders rs now s) as [Hst Hb].
    destruct (cycleBody _ _ _ _ _ _) as [[s1 ms] rs1]. simpl in Hst, Hb.
    destruct (IH rs1 now s1) as [Hst' Hb'].
    split; [by eapply status_only_trans|by rewrite Hb'].
Qed.

(** *** Settlement shrinks a book or rewrites statuses *)

Lemma executeMatch_cases swap random now m s :
  (∃ e, swap = SwapThrew e ∧ anoncoinService s = true)
  ∨ (∃ execution,
       (executeMatch JSON_parse_payload swap random now m s).2 = Returned execution).
Proof.
  unfold executeMatch. simpl.
  destruct swap as [tx|e], (anoncoinService s) eqn:Hsvc; simpl; eauto.
Qed.

Lemma timerCallback_shrinks swap random now m s :
  let s' := timerCallback JSON_parse_payload swap random now m s in
  shrinks (orderBooks s) (orderBooks s') ∧ status_only (objects s) (objects s').
Proof.
  unfold timerCallback.
  destruct (executeMatch_cases swap random now m s) as [(e & -> & Hsvc)|[ex Hex]].
  - destruct (executeMatch_threw JSON_parse_payload e random now m s Hsvc)
      as (Hres & Hobj & _ & Hbooks & _).
    destruct (executeMatch _ _ _ _ _ _) as [s1 res]. simpl in *. subst res.
    simpl. split.
    + rewrite Hbooks. apply shrinks_refl.
    + rewrite Hobj.
      eapply status_only_trans; [eapply status_only_trans|];
        [apply status_only_alter|apply status_only_alter|].
      eapply status_only_trans; apply status_only_alter.
  - destruct (executeMatch _ _ _ _ _ _) as [s1 res] eqn:E. simpl in Hex. subst res.
    apply executeMatch_returned in E as (_ & _ & _ & Hbooks & Hobj & _).
    rewrite Hobj. split; [|apply status_only_refl].
    rewrite Hbooks.
    destruct (jm_get (Match.tokenAddress m) (orderBooks s)) as [orders|] eqn:Hget;
      [|apply shrinks_refl].
    intros token orders' [[-> ->]|Hin]%jm_set_elem_of.
    + exists orders. split; [by apply jm_get_elem_of|apply sublist_filter].
    + by exists orders'.
Qed.

(** *** Cancellation shrinks a book *)

Lemma cancelOrder_shrinks nullifier commitment s :
  let s' := (cancelOrder nullifier commitment s).1 in
  shrinks (orderBooks s) (orderBooks s') ∧ objects s' = objects s.
Proof.
  unfold cancelOrder.
  destruct (cancelLoop _ _) as [books|] eqn:E; simpl; [|split; [apply shrinks_refl|done]].
  apply cancelLoop_Some in E
    as (pre & token & orders & rest & index & r & -> & _ & _ & ->).
  split; [|done].
  intros t os [Hin|[[= -> ->]|Hin]%elem_of_cons]%elem_of_app.
  - exists os. split; [|done]. apply elem_of_app. by left.
  - exists orders. split; [|apply sublist_delete]. apply elem_of_app. right. left.
  - exists os. split; [|done]. apply elem_of_app. right. by right.
Qed.

(** *** Admission appends one fresh reference *)

Lemma book_push_elem token r books t os :
  (t, os) ∈ book_push token r books →
  (t, os) ∈ books ∨ os = []
  ∨ (t = token
     ∧ ((jm_get token books = None ∧ os = [r])
        ∨ ∃ old, jm_get token books = Some old ∧ os = old ++ [r])).
Proof.
  unfold book_push, jm_has. case_bool_decide as Hhas.
  - destruct Hhas as [old Hold]. rewrite Hold. simpl.
    intros [[-> ->]|Hin]%jm_set_elem_of; [|by left].
    right. right. split; [done|]. right. by exists old.
  - assert (jm_get token books = None) as Hnone.
    { by destruct (jm_get token books); [destruct Hhas|]. }
    rewrite jm_get_set_eq. simpl.
    intros [[-> ->]|Hin]%jm_set_elem_of.
    + right. right. split; [done|]. by left.
    + apply jm_set_elem_of in Hin as [[-> ->]|Hin]; [right; by left|by left].
Qed.

Lemma submitOrder_cases eo now s :
  let s' := (submitOrder eo now s).1 in
  (orderBooks s' = orderBooks s ∧ objects s' = objects s)
  ∨ (∃ o, eo = Some o
        ∧ truthy (validateEncryptedOrder (Some o)) = true
        ∧ objects s' =
            objects s ++
              [Order.mk (uuids s) (EncryptedOrder.payload o) (EncryptedOrder.commitment o)
                 (EncryptedOrder.nullifier o) (EncryptedOrder.tokenAddress o) now
                 "pending" (EncryptedOrder.encryptedSide o)]
        ∧ orderBooks s' =
            book_push (EncryptedOrder.tokenAddress o) (length (objects s)) (orderBooks s)).
Proof.
  unfold submitOrder, uuidv4. cbv beta iota zeta. destruct eo as [o|]; [|by left].
  destruct (truthy (validateEncryptedOrder (Some o))) eqn:E; cbn [negb]; [|by left].
  right. exists o. by destruct (EncryptedOrder.tokenAddress o).
Qed.

Lemma nullifiers_of_app_l h o os :
  (∀ r, r ∈ os → r < length h) → nullifiers_of (h ++ [o]) os = nullifiers_of h os.
Proof.
  intros Hlive. apply list_fmap_ext. intros i r Hr.
  rewrite lookup_total_app_l; [done|]. apply Hlive. by eapply list_elem_of_lookup_2.
Qed.

Lemma submitOrder_preserves eo now s :
  let s' := (submitOrder eo now s).1 in
  books_ok s →
  books_ok s'
  ∧ (nullifier_unique s → fresh_submit s (Submit eo now) → nullifier_unique s').
Proof.
  intros s' Hok.
  destruct (submitOrder_cases eo now s) as [[Hb Ho]|(o & -> & Hvalid & Ho & Hb)];
    fold s' in Hb, Ho.
  { split.
    - intros t os. rewrite Hb, Ho. apply Hok.
    - intros Hu _ t os. rewrite Hb, Ho. apply Hu. }
  assert (Hlen : length (objects s') = S (length (objects s))).
  { rewrite Ho, length_app. simpl. lia. }
  split.
  - intros t os Hin. rewrite Hb in Hin.
    apply book_push_elem in Hin
      as [Hin|[->|(-> & [[Hnone ->]|(old & Hold & ->)])]].
    + destruct (Hok _ _ Hin) as [Hnd Hlive]. split; [done|].
      intros r Hr. specialize (Hlive r Hr). lia.
    + split; [constructor|]. by intros r ?%elem_of_nil.
    + split; [apply NoDup_singleton|]. intros r ->%list_elem_of_singleton. lia.
    + apply jm_get_elem_of in Hold. destruct (Hok _ _ Hold) as [Hnd Hlive]. split.
      * apply NoDup_app. split_and!; [done| |apply NoDup_singleton].
        intros r Hr ->%list_elem_of_singleton. specialize (Hlive _ Hr). lia.
      * intros r [Hr| ->%list_elem_of_singleton]%elem_of_app; [|lia].
        specialize (Hlive r Hr). lia.
  - intros Hu Hfresh t os Hin. rewrite Hb in Hin. rewrite Ho.
    apply book_push_elem in Hin
      as [Hin|[->|(-> & [[Hnone ->]|(old & Hold & ->)])]].
    + rewrite nullifiers_of_app_l by (by apply (Hok t os)). by apply (Hu t).
    + constructor.
    + apply NoDup_singleton.
    + pose proof (jm_get_elem_of _ _ _ Hold) as Hin.
      destruct (Hok _ _ Hin) as [_ Hlive].
      unfold nullifiers_of. rewrite fmap_app.
      fold (nullifiers_of (objects s ++ [Order.mk (uuids s) (EncryptedOrder.payload o)
              (EncryptedOrder.commitment o) (EncryptedOrder.nullifier o)
              (EncryptedOrder.tokenAddress o) now "pending"
              (EncryptedOrder.encryptedSide o)]) old).
      rewrite nullifiers_of_app_l by done.
      simpl. rewrite list_lookup_total_middle by done. simpl.
      apply NoDup_app. split_and!; [by apply (Hu (EncryptedOrder.tokenAddress o))|
                                    |apply NoDup_singleton].
      intros n Hn ->%list_elem_of_singleton. by apply (Hfresh Hvalid old Hold).
Qed.

Lemma step_preserves s e :
  books_ok s →
  books_ok (step s e)
  ∧ (nullifier_unique s → fresh_submit s e → nullifier_unique (step s e)).
Proof.
  intros Hok. destruct e as [eo now|n c|rs now|i swap random now]; simpl.
  - by apply submitOrder_preserves.
  - destruct (cancelOrder_shrinks n c s) as [Hshr Hobj].
    destruct (shrink_preserves s (cancelOrder n c s).1 Hshr) as [H1 H2].
    { rewrite Hobj. apply status_only_refl. }
    split; [by apply H1|]. intros Hu _. by apply H2.
  - destruct (cycleLoop_status_only (orderBooks s) rs now s) as [Hst Hb].
    unfold runMatchingCycle.
    destruct (shrink_preserves s (cycleLoop Buffer_from_base64 (orderBooks s) rs now s))
      as [H1 H2]; [rewrite Hb; apply shrinks_refl|done|].
    split; [by apply H1|]. intros Hu _. by apply H2.
  - destruct (timers s !! i) as [m|]; [|by split].
    destruct (timerCallback_shrinks swap random now m (set_timers (delete i) s))
      as [Hshr Hst].
    destruct (shrink_preserves s
                (timerCallback JSON_parse_payload swap random now m
                   (set_timers (delete i) s)) Hshr Hst) as [H1 H2].
    split; [by apply H1|]. intros Hu _. by apply H2.
Qed.

Lemma run_preserves es : ∀ s,
  books_ok s →
  books_ok (run s es)
  ∧ (nullifier_unique s → fresh_run s es → nullifier_unique (run s es)).
Proof.
  induction es as [|e es IH]; intros s Hok; simpl; [by split|].
  destruct (step_preserves s e Hok) as [Hok' Hu'].
  destruct (IH (step s e) Hok') as [H1 H2].
  split; [done|]. intros Hu [Hf Hfs]. apply H2; [by apply Hu'|done].
Qed.

(** Every state the engine reaches has books without repeated entries
    that refer to live objects. *)
Lemma reachable_books_ok service interval es :
  books_ok (run (constructor service interval) es).
Proof.
  apply run_preserves. by intros t os ?%elem_of_nil.
Qed.

(** C7 (as amended).  Admission does not look at nullifiers, so uniqueness
    is the submitters' doing: in a run of submissions, cancellations,
    matching passes and settlements where every admitted order brings a
    nullifier that no order in its token's book carries at that moment, no
    two orders of a book share a nullifier afterwards. *)
Theorem nullifier_unique_if_fresh (service : bool) (interval : option Z) (es : list event) :
  fresh_run (constructor service interval) es →
  nullifier_unique (run (constructor service interval) es).
Proof.
  intros Hfresh. apply run_preserves; [| |done].
  - by intros t os ?%elem_of_nil.
  - by intros t os ?%elem_of_nil.
Qed.

End Runs.

(** ** Where the stated properties fail *)

(** C1 as stated fails.  A buy with nullifier ["nA"] settles; a second buy
    with the same nullifier is admitted and matched, and its settlement
    call throws.  Both orders of the failed match are ['pending'] again,
    yet [checkMatchStatus] of the buy order's nullifier answers with the
    fill of the earlier settlement, not with nothing. *)
Lemma settlement_failure_counterexample :
  let s := sample_run true
             [Submit buyA 1; Submit sellB 2; Cycle [] 3;
              Fire 0 (SwapResolved (JStr "tx")) 0 4;
              Submit buyA 5; Submit sellB 6; Cycle [] 7] in
  let m := Match.mk 6 2 3 (JStr "T") 7 in
  let s' := step node_Buffer_from_base64 sample_parse s
              (Fire 0 (SwapThrew (Error "rpc")) 0 8) in
  anoncoinService s = true
  ∧ timers s = [m]
  ∧ (executeMatch sample_parse (SwapThrew (Error "rpc")) 0 8 m s).2 = Threw (Error "rpc")
  ∧ Order.nullifier (objects s !!! Match.buyOrder m) = JStr "nA"
  ∧ Order.status (objects s' !!! Match.buyOrder m) = "pending"%string
  ∧ Order.status (objects s' !!! Match.sellOrder m) = "pending"%string
  ∧ checkMatchStatus (JStr "nA") s' ≠ None.
Proof. vm_compute. split_and!; done. Qed.

(** C2 as stated fails.  A pending order whose side is the number 5, which
    [Buffer.from] refuses, is not skipped: the pass pairs it, as a buy,
    with the sell in the book and leaves it ['matched']. *)
Lemma undecodable_side_counterexample :
  let s := sample_run true [Submit sidelessX 1; Submit sellB 2] in
  let s' := step node_Buffer_from_base64 sample_parse s (Cycle [] 3) in
  orderBooks s = [(JStr "T", [0; 1])]
  ∧ node_Buffer_from_base64 (Order.encryptedSide (objects s !!! 0)) = None
  ∧ Order.status (objects s !!! 0) = "pending"%string
  ∧ timers s' = [Match.mk 2 0 1 (JStr "T") 3]
  ∧ Order.status (objects s' !!! 0) = "matched"%string.
Proof. vm_compute. split_and!; done. Qed.


(** C4 as stated fails.  The same buy is admitted twice; a pass matches one
    copy with the sell and leaves the other pending.  Cancelling with the
    credentials of the matched copy is answered with success and takes the
    pending copy out of the book. *)
Lemma cancel_matched_counterexample :
  let s := sample_run true [Submit buyA 1; Submit buyA 2; Submit sellB 3; Cycle [] 4] in
  let matched := objects s !!! 1 in
  orderBooks s = [(JStr "T", [0; 1; 2])]
  ∧ Order.status matched = "matched"%string
  ∧ (cancelOrder (Order.nullifier matched) (Order.commitment matched) s).2
    = CancelResult.mk true "Order cancelled"
  ∧ orderBooks (cancelOrder (Order.nullifier matched) (Order.commitment matched) s).1
    = [(JStr "T", [1; 2])].
Proof. vm_compute. split_and!; done. Qed.


(** C7 as stated fails.  Submitting the same order twice admits it twice:
    the book of token ["T"] then holds two pending orders with one
    nullifier. *)
Lemma nullifier_reuse_counterexample :
  let s := sample_run true [Submit buyA 1; Submit buyA 2] in
  orderBooks s = [(JStr "T", [0; 1])]
  ∧ Order.status <$> objects s = ["pending"%string; "pending"%string]
  ∧ Order.nullifier (objects s !!! 0) = Order.nullifier (objects s !!! 1)
  ∧ ¬ nullifier_unique s.
Proof.
  intros s.
  assert (Hb : orderBooks s = [(JStr "T", [0; 1])]) by (vm_compute; reflexivity).
  split_and!; [done|by vm_compute|by vm_compute|].
  intros Hu. specialize (Hu (JStr "T") [0; 1]). rewrite Hb in Hu.
  specialize (Hu ltac:(left)). vm_compute in Hu.
  apply NoDup_cons in Hu as [Hn _]. apply Hn. left.
Qed.

(** C10 as stated fails.  When the buy and the sell of a match carry the
    same nullifier ["n"], the settlement succeeds and the lookup of the buy
    order's nullifier answers with [side] ['sell']. *)
Lemma status_lookup_counterexample :
  let s := sample_run true [Submit buyN 1; Submit sellN 2; Cycle [] 3] in
  let m := Match.mk 2 0 1 (JStr "T") 3 in
  let result := executeMatch sample_parse (SwapResolved (JStr "tx")) 0 4 m s in
  timers s = [m]
  ∧ Order.nullifier (objects s !!! Match.buyOrder m) = JStr "n"
  ∧ Execution.matchId <$> (match result.2 with Returned e => Some e | Threw _ => None end)
    = Some 2
  ∧ fmap Fill.side (checkMatchStatus (JStr "n") result.1) = Some "sell"%string.
Proof. vm_compute. split_and!; done. Qed.

(** ** The theorems at sample inputs *)

(** C4 (as amended) at a sample input: once both sample orders are
    matched, cancelling the buy with its credentials is answered not-found
    and no book changes. *)
Lemma cancelOrder_pending_only_witness :
  let s := sample_run true [Submit buyA 1; Submit sellB 2; Cycle [] 3] in
  (cancelOrder (JStr "nA") (JStr "cA") s).2
  = CancelResult.mk false "Order not found or already matched"
  ∧ orderBooks (cancelOrder (JStr "nA") (JStr "cA") s).1 = orderBooks s.
Proof.
  intros s.
  destruct (cancelOrder_pending_only (JStr "nA") (JStr "cA") s)
    as (_ & _ & _ & _ & Hmatched & _).
  apply Hmatched. intros token orders r Hin Hr _.
  assert (Hb : orderBooks s = [(JStr "T", [0; 1])]) by (vm_compute; reflexivity).
  rewrite Hb in Hin. apply list_elem_of_singleton in Hin. injection Hin as -> ->.
  apply elem_of_cons in Hr as [->|Hr]; [by vm_compute|].
  apply list_elem_of_singleton in Hr as ->. by vm_compute.
Defined.

(** C1 (as amended) at a sample input: the settlement of the sample match
    throws. *)
Lemma settlement_failure_reverts_witness :
  let s := sample_run true [Submit buyA 1; Submit sellB 2; Cycle [] 3] in
  let m := Match.mk 2 0 1 (JStr "T") 3 in
  let s' := timerCallback sample_parse (SwapThrew (Error "rpc")) 0 4 m s in
  Order.status (objects s' !!! 0) = "pending"%string
  ∧ Order.status (objects s' !!! 1) = "pending"%string
  ∧ pendingMatches s' = pendingMatches s
  ∧ checkMatchStatus (Order.nullifier (objects s !!! 0)) s' = None.
Proof.
  intros s m s'.
  destruct (settlement_failure_reverts sample_parse (Error "rpc") 0 4 m s)
    as (_ & Hb & Hs & _ & Hpm & _ & Hnone & _).
  - vm_compute. reflexivity.
  - vm_compute. lia.
  - vm_compute. lia.
  - split_and!; [exact Hb|exact Hs|exact Hpm|]. apply Hnone. vm_compute. reflexivity.
Defined.


(** C10 (as amended) at a sample input: the two sample orders carry
    different nullifiers. *)
Lemma status_lookup_after_settlement_witness :
  let s := sample_run true [Submit buyA 1; Submit sellB 2; Cycle [] 3] in
  let m := Match.mk 2 0 1 (JStr "T") 3 in
  let result := executeMatch sample_parse (SwapResolved (JStr "tx")) 0 4 m s in
  ∃ execution,
    result.2 = Returned execution
    ∧ checkMatchStatus (JStr "nB") result.1
      = Some (Fill.mk execution "sell" (Execution.amount execution))
    ∧ checkMatchStatus (JStr "nA") result.1
      = Some (Fill.mk execution "buy" (Execution.amount execution)).
Proof.
  intros s m result.
  destruct result as [s' [execution|e]] eqn:E; [|by vm_compute in E].
  exists execution.
  destruct (status_lookup_after_settlement sample_parse _ _ _ _ _ _ _ E)
    as (Hsell & Hbuy & _).
  split_and!; [done|exact Hsell|]. apply Hbuy. by vm_compute.
Defined.

(** The references of a three-entry book are live in a store of three
    objects. *)
Lemma three_live (h : list Order.t) :
  length h = 3 → ∀ r, r ∈ [0; 1; 2] → r < length h.
Proof. intros -> r Hr. set_solver by lia. Qed.

(** C5 at a sample input: two pending buys and one pending sell give one
    match and leave one order pending. *)
Lemma findMatches_pairing_conservation_witness :
  let s := sample_run true [Submit buyA 1; Submit sellB 2; Submit buyC 3] in
  let result := findMatches node_Buffer_from_base64 (JStr "T") [0; 1; 2] [] 4 s in
  length (pendingBuys node_Buffer_from_base64 [0; 1; 2] s) = 2
  ∧ length (pendingSells node_Buffer_from_base64 [0; 1; 2] s) = 1
  ∧ length result.1.2 = 1
  ∧ pendingCount (objects result.1.1) [0; 1; 2] = 1.
Proof.
  intros s result.
  assert (Hnd : NoDup [0; 1; 2]) by compute_done.
  assert (Hlive : ∀ r, r ∈ [0; 1; 2] → r < length (objects s))
    by (apply three_live; vm_compute; reflexivity).
  destruct (findMatches_pairing_conservation node_Buffer_from_base64
              (JStr "T") [0; 1; 2] [] 4 s Hnd Hlive)
    as (Hlen & _ & _ & _ & _ & _ & Hleft & _).
  assert (Hbuys : length (pendingBuys node_Buffer_from_base64 [0; 1; 2] s) = 2)
    by (vm_compute; reflexivity).
  assert (Hsells : length (pendingSells node_Buffer_from_base64 [0; 1; 2] s) = 1)
    by (vm_compute; reflexivity).
  rewrite Hbuys, Hsells in Hlen, Hleft.
  split_and!; [done|done|exact Hlen|exact Hleft].
Defined.

(** C2 (as amended) at a sample input: the order with the undecodable
    side is matched as the only buy against the only sell. *)
Lemma undecodable_side_is_buy_witness :
  let s := sample_run true [Submit sidelessX 1; Submit sellB 2] in
  let result := findMatches node_Buffer_from_base64 (JStr "T") [0; 1] [] 3 s in
  decryptSide node_Buffer_from_base64 (Order.encryptedSide (objects s !!! 0)) = "buy"%string
  ∧ Order.status (objects result.1.1 !!! 0) = "matched"%string.
Proof.
  intros s result.
  assert (Hnd : NoDup [0; 1]) by compute_done.
  assert (Hlive : ∀ r, r ∈ [0; 1] → r < length (objects s)).
  { intros r Hr. assert (length (objects s) = 2) as -> by (vm_compute; reflexivity).
    set_solver by lia. }
  destruct (undecodable_side_is_buy node_Buffer_from_base64 (JStr "T") [0; 1] [] 3 s 0
              Hnd Hlive)
    as (Hside & _ & Hmatched).
  - set_solver.
  - vm_compute. reflexivity.
  - vm_compute. reflexivity.
  - split; [exact Hside|]. apply Hmatched. vm_compute. lia.
Defined.



(** C7 (as amended) at a sample input: the two sample orders carry
    different nullifiers. *)
Lemma nullifier_unique_if_fresh_witness :
  nullifier_unique
    (run node_Buffer_from_base64 sample_parse (constructor true None)
       [Submit buyA 1; Submit sellB 2]).
Proof.
  apply nullifier_unique_if_fresh. simpl. split_and!; [|..|done].
  - intros _ orders Hget. by vm_compute in Hget.
  - intros _ orders Hget. vm_compute in Hget. injection Hget as <-.
    vm_compute. set_solver.
Defined.

(** C8 at a sample input: an order with an empty nullifier is rejected and
    nothing is admitted. *)
Lemma submitOrder_structural_validation_witness :
  let s := constructor true None in
  let eo := Some (EncryptedOrder.mk (JStr "p") (JStr "c") (JStr "") (JStr "T") (JStr "AA==")) in
  (submitOrder eo 1 s).2 = Threw (Error "Invalid order structure")
  ∧ orderBooks (submitOrder eo 1 s).1 = []
  ∧ Stats.totalOrders (stats (submitOrder eo 1 s).1) = 0.
Proof.
  intros s eo.
  destruct (submitOrder_structural_validation eo 1 s) as (Hiff & Hsame & _).
  assert (Hlack : lacks_field eo).
  { exists (JStr ""). split; [|right; by left].
    unfold required_fields; simpl. set_solver. }
  split; [by apply Hiff|].
  destruct (Hsame Hlack) as (Hb & _ & Hst & _).
  split; [exact Hb|]. by rewrite Hst.
Defined.

(** * Further properties of the engine and its routes *)

(** ** Further properties of the shuffle *)

Lemma shuffleLoop_draws {A} i : ∀ (rs : list nat) (a : list A),
  (shuffleLoop i rs a).2 = drop i rs.
Proof.
  induction i as [|i IH]; intros rs a; [reflexivity|].
  cbn [shuffleLoop]. rewrite IH. destruct rs; simpl; [by rewrite drop_nil|done].
Qed.

(** X1.  [shuffleArray] only reorders: for every stream of draws the result
    is a permutation of the array, of the same length, and the shuffle of an
    array of [n] elements takes exactly [n - 1] draws from the stream. *)
Theorem shuffleArray_permutes {A} (rs : list nat) (a : list A) :
  (shuffleArray rs a).1 ≡ₚ a
  ∧ length (shuffleArray rs a).1 = length a
  ∧ (shuffleArray rs a).2 = drop (length a - 1) rs.
Proof.
  pose proof (shuffleArray_Permutation rs a) as Hp.
  split_and!; [done|by rewrite Hp|apply shuffleLoop_draws].
Qed.

(** ** The settlement delay *)



(** ** The scheduler *)

(** X3.  Whatever sequence of [start] and [stop] calls a new engine
    receives, at most one matching interval is active: exactly one, the one
    kept in [matchingTimer], while the engine is running, and none while it
    is stopped. *)
Theorem scheduler_single_interval (cs : list control) :
  let k := foldl control_step scheduler_init cs in
  (isRunning k = true
   ∧ ∃ h, Scheduler.matchingTimer k = Some h ∧ Scheduler.intervals k = [h])
  ∨ (isRunning k = false ∧ Scheduler.intervals k = []).
Proof.
  simpl.
  assert (Hinit : (isRunning scheduler_init = true
      ∧ ∃ h, Scheduler.matchingTimer scheduler_init = Some h
             ∧ Scheduler.intervals scheduler_init = [h])
    ∨ (isRunning scheduler_init = false ∧ Scheduler.intervals scheduler_init = []))
    by by right.
  revert Hinit. generalize scheduler_init as k.
  induction cs as [|c cs IH]; intros k Hk; simpl; [done|].
  apply IH. destruct k as [run timer ivs hs]. unfold isRunning in *. simpl in *.
  destruct c; unfold start, stop; simpl.
  - destruct Hk as [[-> ?]|[-> ->]]; simpl; [by left|].
    left. split; [done|]. by exists hs.
  - destruct Hk as [[-> (h & -> & ->)]|[-> ->]]; simpl; [|by right].
    right. split; [done|]. by rewrite filter_cons_False, filter_nil by naive_solver.
Qed.

(** ** Decoded order details *)




(** ** Removing the orders of a match *)

Lemma jm_set_set {V} k (v v' : V) m : jm_set k v (jm_set k v' m) = jm_set k v m.
Proof.
  induction m as [|[k0 v0] m IH]; simpl.
  - by rewrite decide_True.
  - destruct (decide (k = k0)) as [->|Hk]; simpl.
    + by rewrite decide_True.
    + rewrite decide_False by done. by rewrite IH.
Qed.

Lemma filter_idemp {A} (P : A → Prop) `{!∀ x, Decision (P x)} (l : list A) :
  filter P (filter P l) = filter P l.
Proof. apply filter_all. by intros x [? _]%list_elem_of_filter. Qed.

(** X5.  [removeMatchedOrders] is idempotent, changes nothing when the
    match's token has no book, and never touches the book of another
    token. *)
Theorem removeMatchedOrders_idempotent (m : Match.t) (s : DarkPoolEngine) :
  removeMatchedOrders m (removeMatchedOrders m s) = removeMatchedOrders m s
  ∧ (if jm_get (Match.tokenAddress m) (orderBooks s) is None
     then removeMatchedOrders m s = s else True)
  ∧ ∀ token, Match.tokenAddress m ≠ token →
      jm_get token (orderBooks (removeMatchedOrders m s)) = jm_get token (orderBooks s).
Proof.
  split_and!.
  - destruct (jm_get (Match.tokenAddress m) (orderBooks s)) as [orders|] eqn:Hget.
    + assert (E : removeMatchedOrders m s =
                  set_orderBooks
                    (jm_set (Match.tokenAddress m)
                       (filter (λ o, Order.id (objects s !!! o)
                                       ≠ Order.id (objects s !!! Match.buyOrder m)
                                     ∧ Order.id (objects s !!! o)
                                       ≠ Order.id (objects s !!! Match.sellOrder m))
                          orders)) s).
      { unfold removeMatchedOrders. by rewrite Hget. }
      rewrite E. unfold removeMatchedOrders. cbn [orderBooks objects set_orderBooks].
      rewrite jm_get_set_eq. unfold set_orderBooks. cbn.
      by rewrite filter_idemp, jm_set_set.
    + assert (E : removeMatchedOrders m s = s).
      { unfold removeMatchedOrders. by rewrite Hget. }
      by rewrite !E.
  - unfold removeMatchedOrders.
    by destruct (jm_get (Match.tokenAddress m) (orderBooks s)).
  - intros token Hne. rewrite removeMatchedOrders_books.
    destruct (jm_get (Match.tokenAddress m) (orderBooks s)); [|done].
    by apply jm_get_set_ne.
Qed.

Lemma removeMatchedOrders_idempotent_witness :
  let s := sample_run true [Submit buyA 1; Submit sellB 2; Cycle [] 3] in
  let m := Match.mk 2 0 1 (JStr "T") 3 in
  removeMatchedOrders m (removeMatchedOrders m s) = removeMatchedOrders m s
  ∧ jm_get (JStr "U") (orderBooks (removeMatchedOrders m s))
    = jm_get (JStr "U") (orderBooks s).
Proof.
  intros s m. destruct (removeMatchedOrders_idempotent m s) as (H1 & _ & H3).
  split; [exact H1|]. apply H3. simpl. discriminate.
Defined.

(** ** Admission, the successful path *)

Lemma book_push_get token r books :
  jm_get token (book_push token r books)
  = Some (default [] (jm_get token books) ++ [r]).
Proof.
  unfold book_push, jm_has. rewrite jm_get_set_eq. case_bool_decide as Hhas; [done|].
  rewrite jm_get_set_eq. simpl.
  by destruct (jm_get token books); [destruct Hhas|].
Qed.

Lemma book_push_get_ne token r books t :
  token ≠ t → jm_get t (book_push token r books) = jm_get t books.
Proof.
  intros Hne. unfold book_push. rewrite jm_get_set_ne by done.
  destruct (jm_has token books); [done|]. by rewrite jm_get_set_ne.
Qed.

(** X6.  An order whose five fields are all truthy is admitted, whether or
    not the call returns: the order object is created with status
    ['pending'] and the submitted fields, it goes to the end of the book of
    its token (a new book if the token had none), no other book changes,
    [totalOrders] grows by one, and no fill, timer or earlier order is
    touched.  The call returns the receipt when the token address is a
    string and throws a [TypeError] otherwise. *)
Theorem submitOrder_admits (o : EncryptedOrder.t) (now : Z) (s : DarkPoolEngine) :
  truthy (validateEncryptedOrder (Some o)) = true →
  let s' := (submitOrder (Some o) now s).1 in
  let order :=
    Order.mk (uuids s) (EncryptedOrder.payload o) (EncryptedOrder.commitment o)
      (EncryptedOrder.nullifier o) (EncryptedOrder.tokenAddress o) now "pending"
      (EncryptedOrder.encryptedSide o) in
  objects s' = objects s ++ [order]
  ∧ jm_get (EncryptedOrder.tokenAddress o) (orderBooks s')
    = Some (default [] (jm_get (EncryptedOrder.tokenAddress o) (orderBooks s))
            ++ [length (objects s)])
  ∧ (∀ token, EncryptedOrder.tokenAddress o ≠ token →
       jm_get token (orderBooks s') = jm_get token (orderBooks s))
  ∧ Stats.totalOrders (stats s') = S (Stats.totalOrders (stats s))
  ∧ pendingMatches s' = pendingMatches s ∧ timers s' = timers s
  ∧ (submitOrder (Some o) now s).2
    = match EncryptedOrder.tokenAddress o with
      | JStr _ =>
          Returned (Receipt.mk (uuids s) now "pending" (getEstimatedMatchTime now s)
                      (EncryptedOrder.commitment o))
      | _ => Threw (TypeError "order.tokenAddress.substring is not a function")
      end.
Proof.
  intros Hvalid s' order. subst s'.
  unfold submitOrder, uuidv4. cbv beta iota zeta. rewrite Hvalid. cbn [negb].
  destruct (EncryptedOrder.tokenAddress o) eqn:Htok; cbn;
    (split_and!; [done|apply book_push_get|intros; by apply book_push_get_ne|done..]).
Qed.

Lemma submitOrder_admits_witness :
  let o := EncryptedOrder.mk (JStr "p") (JStr "c") (JStr "n") (JNum (num_of_Z 7))
             (JStr "AA==") in
  let result := submitOrder (Some o) 1 (constructor true None) in
  orderBooks result.1 = [(JNum (num_of_Z 7), [0])]
  ∧ Stats.totalOrders (stats result.1) = 1
  ∧ result.2 = Threw (TypeError "order.tokenAddress.substring is not a function").
Proof.
  intros o result.
  destruct (submitOrder_admits o 1 (constructor true None))
    as (_ & _ & _ & Htotal & _ & _ & Hres).
  - by vm_compute.
  - split_and!; [by vm_compute|exact Htotal|exact Hres].
Defined.

(** ** The HTTP routes *)

(** X7.  [POST /order] answers in one of four ways.  It answers 400
    [Missing required fields] exactly when one of [encryptedPayload],
    [commitment], [nullifier], [tokenAddress] is falsy, and then does not
    call the engine.  A body with those four but a falsy [encryptedSide]
    gets the engine's [Invalid order structure] error, and nothing is
    admitted.  A complete body is admitted, and answered with 200 and the
    receipt when the token address is a string, and with a [TypeError]
    when it is not. *)
Theorem postOrder_replies (body : OrderRequest.t) (now : Z) (s : DarkPoolEngine) :
  let four :=
    truthy (OrderRequest.encryptedPayload body) && truthy (OrderRequest.commitment body)
    && truthy (OrderRequest.nullifier body) && truthy (OrderRequest.tokenAddress body) in
  let s' := (postOrder body now s).1 in
  match (postOrder body now s).2 with
  | ErrorJson code error =>
      code = 400 ∧ error = "Missing required fields"%string ∧ four = false ∧ s' = s
  | Next (Error message) =>
      message = "Invalid order structure"%string
      ∧ four = true ∧ truthy (OrderRequest.encryptedSide body) = false
      ∧ orderBooks s' = orderBooks s ∧ objects s' = objects s ∧ stats s' = stats s
  | Next (TypeError _) =>
      four = true ∧ truthy (OrderRequest.encryptedSide body) = true
      ∧ (if OrderRequest.tokenAddress body is JStr _ then False else True)
      ∧ length (objects s') = S (length (objects s))
  | ReceiptJson code receipt =>
      code = 200 ∧ four = true ∧ truthy (OrderRequest.encryptedSide body) = true
      ∧ (if OrderRequest.tokenAddress body is JStr _ then True else False)
      ∧ length (objects s') = S (length (objects s))
      ∧ Receipt.status receipt = "pending"%string
      ∧ Receipt.commitment receipt = OrderRequest.commitment body
  | _ => False
  end.
Proof.
  destruct body as [p c n t e]. unfold postOrder. cbn [OrderRequest.encryptedPayload
    OrderRequest.commitment OrderRequest.nullifier OrderRequest.tokenAddress
    OrderRequest.encryptedSide].
  destruct (truthy p) eqn:Hp, (truthy c) eqn:Hc, (truthy n) eqn:Hn, (truthy t) eqn:Ht;
    cbn [negb orb andb]; try done.
  unfold submitOrder, uuidv4, validateEncryptedOrder. cbv beta iota zeta.
  cbn [EncryptedOrder.payload EncryptedOrder.commitment EncryptedOrder.nullifier
       EncryptedOrder.tokenAddress EncryptedOrder.encryptedSide].
  rewrite !truthy_js_and, Hp, Hc, Hn, Ht. cbn [andb].
  destruct (truthy e) eqn:He; cbn [negb]; [|done].
  destruct t; cbn; rewrite ?length_app; cbn; split_and!; try done; lia.
Qed.

(** ** Side indicator: from the encryption helper to the engine *)

(** X8.  The engine resolves the side the encryption helper wrote: for a
    platform on which the base64 text of the helper's side buffer decodes
    back to that buffer, [decryptSide] answers ['buy'] when the helper was
    given the side ['buy'] and ['sell'] for every other side. *)
Theorem encryptSide_resolves (Buffer_from_base64 : jsval → option (list Z))
    (toString_base64 : list Z → string) (side : jsval) (randomBytes : list Z) :
  0 < length randomBytes →
  Buffer_from_base64 (JStr (toString_base64 (encryptSide side randomBytes)))
  = Some (encryptSide side randomBytes) →
  decryptSide Buffer_from_base64 (JStr (toString_base64 (encryptSide side randomBytes)))
  = if strict_eq side (JStr "buy") then "buy"%string else "sell"%string.
Proof.
  intros Hlen Hround. unfold decryptSide. rewrite Hround.
  unfold encryptSide. rewrite list_lookup_insert_eq by done.
  by destruct (strict_eq side (JStr "buy")).
Qed.

Lemma encryptSide_resolves_witness :
  decryptSide node_Buffer_from_base64
    (JStr (node_toString_base64 (encryptSide (JStr "sell") sample_randomBytes)))
  = "sell"%string
  ∧ decryptSide node_Buffer_from_base64
      (JStr (node_toString_base64 (encryptSide (JStr "buy") sample_randomBytes)))
    = "buy"%string.
Proof.
  split.
  - apply (encryptSide_resolves node_Buffer_from_base64 node_toString_base64
             (JStr "sell") sample_randomBytes); [vm_compute; lia|vm_compute; reflexivity].
  - apply (encryptSide_resolves node_Buffer_from_base64 node_toString_base64
             (JStr "buy") sample_randomBytes); [vm_compute; lia|vm_compute; reflexivity].
Defined.

(** ** What each operation changes *)

Lemma only_matched_refl h : only_matched h h.
Proof. split; [done|]. intros r. by left. Qed.

Lemma only_matched_trans h1 h2 h3 :
  only_matched h1 h2 → only_matched h2 h3 → only_matched h1 h3.
Proof.
  intros [Hl1 H1] [Hl2 H2]. split; [congruence|]. intros r.
  destruct (H2 r) as [->| ->], (H1 r) as [->| ->]; auto.
Qed.

Lemma only_matched_alter i h : only_matched h (alter (Order.set_status "matched") i h).
Proof.
  split; [apply length_alter|]. intros r.
  rewrite list_lookup_total_alter. case_decide as H; [|by left].
  destruct H as [-> _]. by right.
Qed.

Lemma only_matched_status_only h h' : only_matched h h' → status_only h h'.
Proof.
  intros [Hl H]. split; [done|]. intros r. by destruct (H r) as [->| ->].
Qed.

(** The effect of the pairing loop on everything but the orders it
    marks. *)
Lemma pairLoop_effect n : ∀ i buyOrders sellOrders token now matches s,
  let s' := (pairLoop n i buyOrders sellOrders token now matches s).1 in
  only_matched (objects s) (objects s')
  ∧ same_outside_objects s s' ∧ timers s' = timers s ∧ uuids s' = n + uuids s.
Proof.
  induction n as [|n IH]; intros i bs ss token now ms s.
  - split_and!; [apply only_matched_refl|done..].
  - rewrite pairLoop_S. cbv zeta.
    match goal with
    | |- context [pairLoop n (S i) bs ss token now ?ms' ?s2] =>
        destruct (IH (S i) bs ss token now ms' s2) as (Hobj & Hsame & Htm & Hu)
    end.
    split_and!.
    + eapply only_matched_trans; [|exact Hobj].
      eapply only_matched_trans; apply only_matched_alter.
    + exact Hsame.
    + exact Htm.
    + rewrite Hu. simpl. lia.
Qed.

Lemma findMatches_effect decode token orders rs now s :
  let s' := (findMatches decode token orders rs now s).1.1 in
  only_matched (objects s) (objects s')
  ∧ same_outside_objects s s' ∧ timers s' = timers s ∧ uuids s ≤ uuids s'.
Proof.
  unfold findMatches.
  destruct (shuffleArray rs _) as [bs rs1].
  destruct (shuffleArray rs1 _) as [ss rs2].
  match goal with
  | |- context [pairLoop ?n 0 bs ss token now [] s] =>
      pose proof (pairLoop_effect n 0 bs ss token now [] s) as (H1 & H2 & H3 & H4);
      destruct (pairLoop n 0 bs ss token now [] s) as [s1 ms]
  end.
  simpl in *. split_and!; [done..|lia].
Qed.

Lemma cycleBody_effect decode token orders rs now s :
  let s' := (cycleBody decode token orders rs now s).1.1 in
  let matches := (cycleBody decode token orders rs now s).1.2 in
  only_matched (objects s) (objects s')
  ∧ same_outside_objects s s' ∧ timers s' = timers s ++ matches ∧ uuids s ≤ uuids s'.
Proof.
  unfold cycleBody. case_bool_decide as Hgate; simpl.
  - rewrite app_nil_r. split_and!; [apply only_matched_refl|done..].
  - pose proof (findMatches_effect decode token orders rs now s) as (H1 & H2 & H3 & H4).
    destruct (findMatches decode token orders rs now s) as [[s1 ms] rs1]. simpl in *.
    case_bool_decide as Hlen; simpl.
    + split_and!; [done|exact H2|by rewrite H3|done].
    + destruct ms; [|simpl in Hlen; lia].
      rewrite app_nil_r. by split_and!.
Qed.

Lemma same_outside_objects_trans s1 s2 s3 :
  same_outside_objects s1 s2 → same_outside_objects s2 s3 → same_outside_objects s1 s3.
Proof.
  unfold same_outside_objects. intros (?&?&?&?&?&?&?) (?&?&?&?&?&?&?).
  split_and!; congruence.
Qed.

Lemma cycleLoop_effect decode books : ∀ rs now s,
  let s' := cycleLoop decode books rs now s in
  only_matched (objects s) (objects s')
  ∧ same_outside_objects s s' ∧ timers s `prefix_of` timers s' ∧ uuids s ≤ uuids s'.
Proof.
  induction books as [|[token orders] books IH]; intros rs now s; simpl.
  - split_and!; [apply only_matched_refl|done..].
  - pose proof (cycleBody_effect decode token orders rs now s) as (H1 & H2 & H3 & H4).
    destruct (cycleBody decode token orders rs now s) as [[s1 ms] rs1]. simpl in *.
    destruct (IH rs1 now s1) as (H1' & H2' & H3' & H4').
    split_and!.
    + by eapply only_matched_trans.
    + by eapply same_outside_objects_trans.
    + etrans; [|exact H3']. rewrite H3. by apply prefix_app_r.
    + lia.
Qed.

(** X9.  A matching pass changes orders only by setting their status to
    ['matched'].  It removes nothing from any book, records no fill,
    leaves the statistics, the events sent and the settlement calls as they
    were, and keeps every settlement that was already waiting, adding its
    own after them. *)
Theorem runMatchingCycle_only_matches (decode : jsval → option (list Z))
    (rs : list nat) (now : Z) (s : DarkPoolEngine) :
  let s' := runMatchingCycle decode rs now s in
  orderBooks s' = orderBooks s
  ∧ pendingMatches s' = pendingMatches s
  ∧ stats s' = stats s ∧ emitted s' = emitted s ∧ swaps s' = swaps s
  ∧ timers s `prefix_of` timers s'
  ∧ length (objects s') = length (objects s)
  ∧ ∀ r, objects s' !!! r = objects s !!! r
         ∨ objects s' !!! r = Order.set_status "matched" (objects s !!! r).
Proof.
  destruct (cycleLoop_effect decode (orderBooks s) rs now s)
    as ([Hlen Hobj] & (Hb & Hpm & Hst & _ & _ & Hsw & Hem) & Htm & _).
  unfold runMatchingCycle. by split_and!.
Qed.

(** ** Cycles that find nothing *)

Lemma cycleLoop_one_sided decode now s books : ∀ rs,
  (∀ token orders, (token, orders) ∈ books →
     pendingBuys decode orders s = [] ∨ pendingSells decode orders s = []) →
  cycleLoop decode books rs now s = s.
Proof.
  induction books as [|[token orders] books IH]; intros rs Hside; [done|].
  cbn [cycleLoop].
  assert (Hbody : (cycleBody decode token orders rs now s).1 = (s, [])).
  { unfold cycleBody. case_bool_decide as Hgate; [done|].
    assert (Hnone : (findMatches decode token orders rs now s).1 = (s, [])).
    { apply findMatches_none.
      destruct (Hside token orders) as [-> | ->]; [left|simpl; lia..]. }
    destruct (findMatches decode token orders rs now s) as [[s1 ms] rs1].
    simpl in Hnone. injection Hnone as -> ->. done. }
  destruct (cycleBody decode token orders rs now s) as [[s1 ms] rs1].
  simpl in Hbody. injection Hbody as -> ->.
  apply IH. intros t os Hin. apply (Hside t os). by right.
Qed.

(** X10.  A matching cycle needs both sides in one book: when every book
    lacks a pending buy or lacks a pending sell, the cycle leaves the whole
    engine as it was, however many orders the books hold.  No order changes,
    no settlement is scheduled and no identifier is drawn. *)
Theorem runMatchingCycle_one_sided (decode : jsval → option (list Z)) (rs : list nat)
    (now : Z) (s : DarkPoolEngine) :
  (∀ token orders, (token, orders) ∈ orderBooks s →
     pendingBuys decode orders s = [] ∨ pendingSells decode orders s = []) →
  runMatchingCycle decode rs now s = s.
Proof. apply cycleLoop_one_sided. Qed.

Lemma runMatchingCycle_one_sided_witness :
  let s := sample_run true [Submit buyA 1; Submit buyC 2; Submit buyA 3] in
  orderBooks s = [(JStr "T", [0; 1; 2])]
  ∧ runMatchingCycle node_Buffer_from_base64 [] 4 s = s.
Proof.
  intros s.
  assert (Hb : orderBooks s = [(JStr "T", [0; 1; 2])]) by (vm_compute; reflexivity).
  split; [exact Hb|].
  apply runMatchingCycle_one_sided. intros token orders Hin.
  rewrite Hb in Hin. apply list_elem_of_singleton in Hin. injection Hin as -> ->.
  right. vm_compute. reflexivity.
Defined.

(** ** Submission followed by cancellation *)

Lemma strict_eq_refl v : truthy v = true → strict_eq v v = true.
Proof.
  destruct v as [| |b|n|str]; simpl; try done.
  - intros _. by apply bool_decide_eq_true.
  - destruct n; simpl; try done; intros _; by apply bool_decide_eq_true.
  - intros _. by apply bool_decide_eq_true.
Qed.

Lemma findIndex_app_last {A} (p : A → bool) l x :
  (∀ y, y ∈ l → p y = false) → p x = true →
  findIndex p (l ++ [x]) = Some (length l).
Proof.
  intros Hl Hx. induction l as [|a l IH]; simpl; [by rewrite Hx|].
  rewrite (Hl a) by left. rewrite IH; [done|]. intros y Hy. apply Hl. by right.
Qed.

Lemma delete_app_last {A} (l : list A) x : delete (length l) (l ++ [x]) = l.
Proof. induction l as [|a l IH]; simpl; [done|]. by rewrite IH. Qed.

Lemma jm_set_same {V} (k : jsval) (v : V) m : jm_get k m = Some v → jm_set k v m = m.
Proof.
  induction m as [|[k' v'] m IH]; simpl; [done|].
  case_decide as Hk; [by intros [= ->]; subst|]. intros H. by rewrite IH.
Qed.

Lemma jm_set_absent {V} (k : jsval) (v : V) m : jm_get k m = None → jm_set k v m = m ++ [(k, v)].
Proof.
  induction m as [|[k' v'] m IH]; simpl; [done|].
  case_decide as Hk; [done|]. intros H. by rewrite IH.
Qed.

(** Cancelling the entry that was just pushed restores the value of the
    key. *)
Lemma cancelLoop_jm_set p token old r books :
  (∀ t os x, (t, os) ∈ books → x ∈ os → p x = false) →
  (∀ x, x ∈ old → p x = false) → p r = true →
  cancelLoop p (jm_set token (old ++ [r]) books) = Some (jm_set token old books).
Proof.
  intros Hbooks Hold Hr. induction books as [|[k' v'] books IH]; simpl.
  - rewrite findIndex_app_last by done. by rewrite delete_app_last.
  - case_decide as Hk; simpl.
    + rewrite findIndex_app_last by done. by rewrite delete_app_last.
    + assert (findIndex p v' = None) as ->.
      { apply findIndex_None. intros x Hx. eapply Hbooks; [left|done]. }
      rewrite IH; [done|]. intros t os x Hin. eapply Hbooks. by right.
Qed.

(** X11.  Cancelling an order right after it was admitted, with its own
    nullifier and commitment, succeeds when no pending order in the books
    carried those two values before, and it takes the new entry out again:
    the books are as before the submission, except that a token without a
    book now has an empty one.  The order object itself stays, with status
    ['pending'], and [totalOrders] keeps counting it. *)
Theorem submit_then_cancel (o : EncryptedOrder.t) (now : Z) (s : DarkPoolEngine) :
  books_ok s →
  truthy (validateEncryptedOrder (Some o)) = true →
  ¬ cancellable s (EncryptedOrder.nullifier o) (EncryptedOrder.commitment o) →
  let s1 := (submitOrder (Some o) now s).1 in
  let cancelled :=
    cancelOrder (EncryptedOrder.nullifier o) (EncryptedOrder.commitment o) s1 in
  cancelled.2 = CancelResult.mk true "Order cancelled"
  ∧ orderBooks cancelled.1
    = (if jm_has (EncryptedOrder.tokenAddress o) (orderBooks s) then orderBooks s
       else orderBooks s ++ [(EncryptedOrder.tokenAddress o, [])])
  ∧ length (objects cancelled.1) = S (length (objects s))
  ∧ Order.status (objects cancelled.1 !!! length (objects s)) = "pending"%string
  ∧ Stats.totalOrders (stats cancelled.1) = S (Stats.totalOrders (stats s)).
Proof.
  intros Hok Hvalid Hnone s1 cancelled.
  pose proof (proj1 (validate_truthy o) Hvalid) as Hfields.
  rewrite Forall_forall in Hfields.
  set (token := EncryptedOrder.tokenAddress o) in *.
  set (order := Order.mk (uuids s) (EncryptedOrder.payload o) (EncryptedOrder.commitment o)
                  (EncryptedOrder.nullifier o) token now "pending"
                  (EncryptedOrder.encryptedSide o)).
  set (r := length (objects s)).
  assert (Hobj : objects s1 = objects s ++ [order]).
  { subst s1. unfold submitOrder, uuidv4. cbv beta iota zeta. rewrite Hvalid. cbn [negb].
    by destruct (EncryptedOrder.tokenAddress o). }
  assert (Hbooks : orderBooks s1 = book_push token r (orderBooks s)).
  { subst s1. unfold submitOrder, uuidv4. cbv beta iota zeta. rewrite Hvalid. cbn [negb].
    by destruct (EncryptedOrder.tokenAddress o). }
  assert (Hstats : Stats.totalOrders (stats s1) = S (Stats.totalOrders (stats s))).
  { subst s1. unfold submitOrder, uuidv4. cbv beta iota zeta. rewrite Hvalid. cbn [negb].
    by destruct (EncryptedOrder.tokenAddress o). }
  set (p := cancel_pred (objects s1) (EncryptedOrder.nullifier o)
              (EncryptedOrder.commitment o)).
  assert (Hold : ∀ t os x, (t, os) ∈ orderBooks s → x ∈ os → p x = false).
  { intros t os x Hin Hx. destruct (Hok t os Hin) as [_ Hlive].
    subst p. unfold cancel_pred. rewrite Hobj, lookup_total_app_l by auto.
    apply not_true_is_false. intros Hp. apply Hnone. exists t, os, x.
    apply andb_prop in Hp as [[H1 H2]%andb_prop H3]. apply bool_decide_eq_true in H3.
    by split_and!. }
  assert (Hnew : p r = true).
  { subst p r. unfold cancel_pred. rewrite Hobj, list_lookup_total_middle by done.
    simpl. rewrite !strict_eq_refl; [done|..]; apply Hfields;
      unfold required_fields; set_solver. }
  assert (Hloop : cancelLoop p (orderBooks s1)
                  = Some (if jm_has token (orderBooks s) then orderBooks s
                          else orderBooks s ++ [(token, [])])).
  { rewrite Hbooks. unfold book_push, jm_has. case_bool_decide as Hhas.
    - destruct Hhas as [old Hget]. rewrite Hget. simpl.
      rewrite cancelLoop_jm_set; [by rewrite jm_set_same|done| |done].
      intros x Hx. apply (Hold token old); [by apply jm_get_elem_of|done].
    - assert (Hget : jm_get token (orderBooks s) = None).
      { by destruct (jm_get token (orderBooks s)); [destruct Hhas|]. }
      rewrite jm_get_set_eq. simpl.
      change [r] with ([] ++ [r]).
      rewrite cancelLoop_jm_set.
      + by rewrite jm_set_set, jm_set_absent.
      + intros t os x [[-> ->]|Hin]%jm_set_elem_of Hx; [by apply elem_of_nil in Hx|].
        by apply (Hold t os).
      + by intros x ?%elem_of_nil.
      + done. }
  subst cancelled. unfold cancelOrder. fold p. rewrite Hloop. simpl.
  rewrite Hobj, length_app. simpl.
  split_and!; [done|done|lia| |done].
  fold r. by rewrite list_lookup_total_middle.
Qed.

Lemma submit_then_cancel_witness :
  let s := sample_run true [Submit buyA 1] in
  let o := EncryptedOrder.mk (JStr "p") (JStr "cB") (JStr "nB") (JStr "T") (JStr "AQ==") in
  let s2 := (cancelOrder (JStr "nB") (JStr "cB") (submitOrder (Some o) 2 s).1).1 in
  orderBooks s = [(JStr "T", [0])] ∧ orderBooks s2 = [(JStr "T", [0])]
  ∧ length (objects s2) = 2.
Proof.
  intros s o s2.
  assert (Hb : orderBooks s = [(JStr "T", [0])]) by (vm_compute; reflexivity).
  destruct (submit_then_cancel o 2 s) as (_ & Hbooks & Hlen & _).
  - intros token orders Hin. rewrite Hb in Hin.
    apply list_elem_of_singleton in Hin. injection Hin as -> ->.
    split; [compute_done|]. intros r ->%list_elem_of_singleton. vm_compute. lia.
  - vm_compute. reflexivity.
  - intros (token & orders & r & Hin & Hr & [Hn _] & _). rewrite Hb in Hin.
    apply list_elem_of_singleton in Hin. injection Hin as -> ->.
    apply list_elem_of_singleton in Hr as ->. by vm_compute in Hn.
  - split_and!; [exact Hb| |exact Hlen].
    refine (eq_trans Hbooks _). vm_compute. reflexivity.
Defined.

(** ** What a successful settlement sends out *)

Lemma removeMatchedOrders_emitted m s : emitted (removeMatchedOrders m s) = emitted s.
Proof. unfold removeMatchedOrders. by destruct (jm_get _ _). Qed.

(** X12.  Whenever [executeMatch] returns an execution, everything it sent
    out agrees with it: the one event emitted to the token's room carries
    the execution's price, amount and timestamp; an engine with a
    settlement service made exactly one call, which resolved, for the same
    amount and price, with the buy order's commitment and nullifier, no
    stealth address, and ['SOL'] as the other token; an engine without a
    service made no call.  [totalVolume] grows by amount times price, and
    both orders keep the status ['matched']. *)
Theorem settlement_outputs_agree (JSON_parse_payload : jsval → option Payload.t)
    (swap : swapOutcome) (random : Qc) (now : Z) (m : Match.t)
    (s s' : DarkPoolEngine) (execution : Execution.t) :
  executeMatch JSON_parse_payload swap random now m s = (s', Returned execution) →
  (∃ event,
     emitted s' = emitted s ++ [event]
     ∧ Emitted.tokenAddress event = Match.tokenAddress m
     ∧ Emitted.price event = Execution.price execution
     ∧ Emitted.amount event = Execution.amount execution
     ∧ Emitted.timestamp event = Execution.timestamp execution)
  ∧ (if anoncoinService s
     then (∃ transactionId, swap = SwapResolved transactionId)
          ∧ ∃ call,
              swaps s' = swaps s ++ [call]
              ∧ Swap.fromToken call = Match.tokenAddress m
              ∧ Swap.toToken call = JStr "SOL"
              ∧ Swap.amount call = Execution.amount execution
              ∧ Swap.executionPrice call = Execution.price execution
              ∧ Swap.stealthAddress call = JUndefined
              ∧ Swap.commitment call = Order.commitment (objects s !!! Match.buyOrder m)
              ∧ Swap.nullifier call = Order.nullifier (objects s !!! Match.buyOrder m)
     else swaps s' = swaps s)
  ∧ Stats.totalVolume (stats s')
    = num_add (Stats.totalVolume (stats s))
        (num_mul (Execution.amount execution) (Execution.price execution))
  ∧ objects s' = objects s.
Proof.
  unfold executeMatch. simpl.
  destruct swap as [tx|e], (anoncoinService s) eqn:Hsvc; simpl;
    try discriminate; intros [= <- <-]; simpl;
    match goal with
    | |- context [removeMatchedOrders m ?x] =>
        rewrite (removeMatchedOrders_emitted m x);
        destruct (removeMatchedOrders_frame m x) as (-> & _ & -> & _ & -> & _)
    end; simpl.
  - split; [eexists; split_and!; reflexivity|].
    split; [|by split].
    split; [by eexists|]. eexists. split_and!; reflexivity.
  - split; [eexists; split_and!; reflexivity|]. by split_and!.
  - split; [eexists; split_and!; reflexivity|]. by split_and!.
Qed.

Lemma settlement_outputs_agree_witness :
  let s := sample_run true [Submit buyA 1; Submit sellB 2; Cycle [] 3] in
  let m := Match.mk 2 0 1 (JStr "T") 3 in
  let result := executeMatch sample_parse (SwapResolved (JStr "tx")) 0 4 m s in
  length (emitted result.1) = 1 ∧ length (swaps result.1) = 1
  ∧ objects result.1 = objects s.
Proof.
  intros s m result.
  destruct result as [s' [execution|e]] eqn:E; [|by vm_compute in E].
  destruct (settlement_outputs_agree sample_parse _ _ _ _ _ _ _ E)
    as ((event & Hev & _) & Hcall & _ & Hobj).
  assert (Hsvc : anoncoinService s = true) by (vm_compute; reflexivity).
  rewrite Hsvc in Hcall. destruct Hcall as (_ & call & Hsw & _).
  simpl. rewrite Hev, Hsw. split_and!; [by vm_compute|by vm_compute|exact Hobj].
Defined.

(** ** Reported liquidity and the size gate *)



(** ** What submission, cancellation and settlement change *)

Lemma submitOrder_effect eo now s :
  let s' := (submitOrder eo now s).1 in
  (pendingMatches s' = pendingMatches s ∧ config s' = config s
   ∧ anoncoinService s' = anoncoinService s ∧ timers s' = timers s
   ∧ swaps s' = swaps s ∧ emitted s' = emitted s ∧ uuids s' = S (uuids s))
  ∧ ((objects s' = objects s ∧ orderBooks s' = orderBooks s ∧ stats s' = stats s)
     ∨ ∃ o, eo = Some o
        ∧ objects s' =
            objects s ++
              [Order.mk (uuids s) (EncryptedOrder.payload o) (EncryptedOrder.commitment o)
                 (EncryptedOrder.nullifier o) (EncryptedOrder.tokenAddress o) now
                 "pending" (EncryptedOrder.encryptedSide o)]
        ∧ orderBooks s' =
            book_push (EncryptedOrder.tokenAddress o) (length (objects s)) (orderBooks s)
        ∧ stats s' =
            Stats.mk (S (Stats.totalOrders (stats s))) (Stats.totalMatches (stats s))
              (Stats.totalVolume (stats s)) (Stats.totalExecuted (stats s))
              (Stats.lastMatchTime (stats s)) (Stats.lastExecutionTime (stats s))).
Proof.
  unfold submitOrder, uuidv4. cbv beta iota zeta.
  destruct eo as [o|]; [|split; [done|by left]].
  destruct (truthy (validateEncryptedOrder (Some o))) eqn:E; cbn [negb];
    [|split; [done|by left]].
  split; [by destruct (EncryptedOrder.tokenAddress o)|].
  right. exists o. by destruct (EncryptedOrder.tokenAddress o).
Qed.

Lemma cancelOrder_frame nullifier commitment s :
  let s' := (cancelOrder nullifier commitment s).1 in
  objects s' = objects s ∧ pendingMatches s' = pendingMatches s
  ∧ config s' = config s ∧ anoncoinService s' = anoncoinService s
  ∧ timers s' = timers s ∧ swaps s' = swaps s ∧ emitted s' = emitted s
  ∧ uuids s' = uuids s ∧ stats s' = stats s.
Proof. unfold cancelOrder. by destruct (cancelLoop _ _). Qed.

(** Cancellation leaves every order that is not pending in its book. *)
Lemma cancelOrder_keeps nullifier commitment s t os r :
  (t, os) ∈ orderBooks s → r ∈ os → ¬ is_pending (objects s) r →
  ∃ os', (t, os') ∈ orderBooks (cancelOrder nullifier commitment s).1 ∧ r ∈ os'.
Proof.
  unfold cancelOrder. destruct (cancelLoop _ _) as [books|] eqn:E; simpl; [|eauto].
  apply cancelLoop_Some in E
    as (pre & token & orders & rest & index & r0 & Hb & Hidx & Hp & ->).
  rewrite Hb. intros [Hin|[[= -> ->]|Hin]%elem_of_cons]%elem_of_app Hr Hnp.
  - exists os. split; [|done]. apply elem_of_app. by left.
  - exists (delete index orders). split; [apply elem_of_app; right; left|].
    eapply elem_of_delete_ne; [done..|]. intros ->. apply Hnp.
    by apply cancel_pred_true in Hp as [_ ?].
  - exists os. split; [|done]. apply elem_of_app. right. by right.
Qed.

(** Resetting the two orders of a match, in any number of rounds: every
    order is as it was, or is one of the two with the new status. *)
Lemma reset_one st b sl i (h : list Order.t) :
  i = b ∨ i = sl →
  ∀ r, alter (Order.set_status st) i h !!! r = h !!! r
       ∨ ((r = b ∨ r = sl)
          ∧ alter (Order.set_status st) i h !!! r = Order.set_status st (h !!! r)).
Proof.
  intros Hi r. rewrite list_lookup_total_alter. case_decide as H; [|by left].
  destruct H as [-> _]. right. by split.
Qed.

Lemma reset_four st b sl (h : list Order.t) r :
  let h' := alter (Order.set_status st) sl (alter (Order.set_status st) b
              (alter (Order.set_status st) sl (alter (Order.set_status st) b h))) in
  h' !!! r = h !!! r
  ∨ ((r = b ∨ r = sl) ∧ h' !!! r = Order.set_status st (h !!! r)).
Proof.
  intros h'. subst h'.
  set (h1 := alter (Order.set_status st) b h).
  set (h2 := alter (Order.set_status st) sl h1).
  set (h3 := alter (Order.set_status st) b h2).
  destruct (reset_one st b sl b h (or_introl eq_refl) r) as [E1|[Hr1 E1]];
  destruct (reset_one st b sl sl h1 (or_intror eq_refl) r) as [E2|[Hr2 E2]];
  destruct (reset_one st b sl b h2 (or_introl eq_refl) r) as [E3|[Hr3 E3]];
  destruct (reset_one st b sl sl h3 (or_intror eq_refl) r) as [E4|[Hr4 E4]];
  fold h1 in E1; fold h2 in E2; fold h3 in E3;
  rewrite E4, E3, E2, E1; auto.
Qed.

Lemma timerCallback_effect parse swap random now m s :
  let s' := timerCallback parse swap random now m s in
  (config s' = config s ∧ anoncoinService s' = anoncoinService s
   ∧ timers s' = timers s ∧ uuids s' = S (uuids s)
   ∧ length (objects s') = length (objects s))
  ∧ ((anoncoinService s = true ∧ (∃ e, swap = SwapThrew e)
      ∧ orderBooks s' = orderBooks s ∧ pendingMatches s' = pendingMatches s
      ∧ stats s' = stats s ∧ emitted s' = emitted s
      ∧ length (swaps s') = S (length (swaps s))
      ∧ ∀ r, objects s' !!! r = objects s !!! r
             ∨ ((r = Match.buyOrder m ∨ r = Match.sellOrder m)
                ∧ objects s' !!! r = Order.set_status "pending" (objects s !!! r)))
     ∨ (objects s' = objects s
        ∧ orderBooks s' = orderBooks (removeMatchedOrders m s)
        ∧ length (emitted s') = S (length (emitted s))
        ∧ Stats.totalOrders (stats s') = Stats.totalOrders (stats s)
        ∧ Stats.totalMatches (stats s') = S (Stats.totalMatches (stats s))
        ∧ Stats.totalExecuted (stats s') = S (Stats.totalExecuted (stats s))
        ∧ (if anoncoinService s then length (swaps s') = S (length (swaps s))
           else swaps s' = swaps s))).
Proof.
  unfold timerCallback, executeMatch. simpl.
  destruct swap as [tx|e], (anoncoinService s) eqn:Hsvc; simpl.
  3: { split.
       - split_and!; try done. by rewrite !length_alter.
       - left. split_and!; try done; [by eexists|rewrite length_app; simpl; lia|].
         intros r. apply reset_four. }
  all: match goal with
       | |- context [removeMatchedOrders ?m0 ?x] =>
           rewrite (removeMatchedOrders_emitted m0 x), (removeMatchedOrders_books m0 x);
           destruct (removeMatchedOrders_frame m0 x)
             as (-> & _ & -> & -> & -> & -> & -> & ->)
       end; simpl; rewrite removeMatchedOrders_books, ?length_app; simpl;
       rewrite ?Hsvc;
       (split; [by split_and!|right; split_and!; try done; lia]).
Qed.

(** ** Invariants of every run *)

(** A field other than the status reads the same in two stores that differ
    in statuses only. *)
Lemma status_only_field {A} (f : Order.t → A) h h' r :
  (∀ st o, f (Order.set_status st o) = f o) →
  status_only h h' → f (h' !!! r) = f (h !!! r).
Proof.
  intros Hf [_ H]. specialize (H r). apply (f_equal f) in H. by rewrite !Hf in H.
Qed.

Lemma jm_set_elem {V} (k : jsval) (v : V) m : (k, v) ∈ jm_set k v m.
Proof. apply jm_get_elem_of, jm_get_set_eq. Qed.

(** An old entry survives a [set] unless it was the value of the key. *)
Lemma jm_set_elem_of_inv {V} (k : jsval) (v : V) m kx vx :
  (kx, vx) ∈ m → (kx, vx) ∈ jm_set k v m ∨ (kx = k ∧ jm_get k m = Some vx).
Proof.
  induction m as [|[k0 v0] m IH]; simpl; [by intros ?%elem_of_nil|].
  destruct (decide (k = k0)) as [->|Hk].
  - intros [[= -> ->]|Hin]%elem_of_cons; [by right|]. left. by right.
  - intros [[= -> ->]|Hin]%elem_of_cons; [left; left|].
    destruct (IH Hin) as [?|[-> ?]]; [left; by right|by right].
Qed.

(** Admission only adds to the books. *)
Lemma book_push_mono token r books t os :
  (t, os) ∈ books →
  ∃ os', (t, os') ∈ book_push token r books ∧ ∀ x, x ∈ os → x ∈ os'.
Proof.
  intros Hin. unfold book_push.
  set (books1 := if jm_has token books then books else jm_set token [] books).
  assert (Hin1 : (t, os) ∈ books1).
  { subst books1. unfold jm_has. case_bool_decide as Hhas; [done|].
    destruct (jm_set_elem_of_inv token [] books t os Hin) as [?|[_ Hget]]; [done|].
    destruct Hhas. by rewrite Hget. }
  destruct (jm_set_elem_of_inv token (default [] (jm_get token books1) ++ [r])
              books1 t os Hin1) as [?|[-> Hget]].
  - by exists os.
  - exists (os ++ [r]). rewrite Hget. simpl. split; [apply jm_set_elem|].
    intros x Hx. apply elem_of_app. by left.
Qed.

Lemma elem_of_matched_orders r ms :
  r ∈ matched_orders ms
  ↔ ∃ m, m ∈ ms ∧ (r = Match.buyOrder m ∨ r = Match.sellOrder m).
Proof. unfold matched_orders. rewrite elem_of_app, !list_elem_of_fmap. naive_solver. Qed.

Lemma matched_orders_Permutation ms ms' :
  ms ≡ₚ ms' → matched_orders ms ≡ₚ matched_orders ms'.
Proof. intros H. unfold matched_orders. by rewrite H. Qed.

Lemma matched_orders_app ms ms' :
  matched_orders (ms ++ ms') ≡ₚ matched_orders ms ++ matched_orders ms'.
Proof.
  unfold matched_orders. rewrite !fmap_app, <-!app_assoc. f_equiv.
  rewrite !app_assoc. f_equiv. apply Permutation_app_comm.
Qed.

Lemma matched_orders_delete ms i m :
  ms !! i = Some m →
  matched_orders ms
  ≡ₚ Match.buyOrder m :: Match.sellOrder m :: matched_orders (delete i ms).
Proof.
  intros Hi. rewrite (matched_orders_Permutation ms (m :: delete i ms))
    by by apply delete_Permutation.
  unfold matched_orders. rewrite !fmap_cons. simpl. f_equiv.
  by rewrite <-Permutation_middle.
Qed.

Lemma jm_get_None_keys {V} (k : jsval) (m : list (jsval * V)) :
  jm_get k m = None → k ∉ m.*1.
Proof.
  induction m as [|[k0 v0] m IH]; simpl; [by intros _ ?%elem_of_nil|].
  case_decide as Hk; [done|]. intros H [->|Hin]%elem_of_cons; [done|]. by apply IH.
Qed.

Lemma jm_set_keys_present {V} (k : jsval) (v : V) m :
  is_Some (jm_get k m) → (jm_set k v m).*1 = m.*1.
Proof.
  induction m as [|[k0 v0] m IH]; [by intros [? ?]|].
  cbn [jm_get jm_set]. case_decide as Hk; intros H; rewrite !fmap_cons; [by subst|].
  f_equal. by apply IH.
Qed.

(** With distinct keys, [get] finds every entry. *)
Lemma jm_get_of_elem {V} (k : jsval) (v : V) m :
  NoDup m.*1 → (k, v) ∈ m → jm_get k m = Some v.
Proof.
  induction m as [|[k0 v0] m IH]; simpl; [by intros _ ?%elem_of_nil|].
  intros [Hk Hnd]%NoDup_cons [[= -> ->]|Hin]%elem_of_cons.
  - by rewrite decide_True.
  - rewrite decide_False; [by apply IH|]. intros ->. apply Hk.
    apply list_elem_of_fmap. by exists (k0, v).
Qed.

Lemma book_push_keys token r books : NoDup books.*1 → NoDup (book_push token r books).*1.
Proof.
  intros Hnd. unfold book_push, jm_has. case_bool_decide as Hhas.
  - by rewrite jm_set_keys_present.
  - assert (Hget : jm_get token books = None).
    { by destruct (jm_get token books); [destruct Hhas|]. }
    rewrite jm_set_keys_present by (rewrite jm_get_set_eq; eauto).
    rewrite (jm_set_absent _ _ _ Hget), fmap_app. simpl.
    apply NoDup_app. split_and!; [done| |apply NoDup_singleton].
    intros x Hx ->%list_elem_of_singleton. by apply (jm_get_None_keys _ _ Hget).
Qed.


Section Invariants.
Variable Buffer_from_base64 : jsval → option (list Z).
Variable JSON_parse_payload : jsval → option Payload.t.

Local Abbreviation step := (step Buffer_from_base64 JSON_parse_payload).
Local Abbreviation run := (run Buffer_from_base64 JSON_parse_payload).
Local Abbreviation timerCallback := (timerCallback JSON_parse_payload).
Local Abbreviation findMatches := (findMatches Buffer_from_base64).
Local Abbreviation cycleBody := (cycleBody Buffer_from_base64).
Local Abbreviation cycleLoop := (cycleLoop Buffer_from_base64).
Local Abbreviation pendingBuys := (pendingBuys Buffer_from_base64).
Local Abbreviation pendingSells := (pendingSells Buffer_from_base64).

(** What a step does to the order objects and to the identifiers. *)
Lemma step_objects s e :
  (uuids s ≤ uuids (step s e) ∧ status_only (objects s) (objects (step s e)))
  ∨ ∃ o now,
      e = Submit (Some o) now ∧ uuids (step s e) = S (uuids s)
      ∧ objects (step s e) =
          objects s ++
            [Order.mk (uuids s) (EncryptedOrder.payload o) (EncryptedOrder.commitment o)
               (EncryptedOrder.nullifier o) (EncryptedOrder.tokenAddress o) now
               "pending" (EncryptedOrder.encryptedSide o)].
Proof.
  destruct e as [eo now|n c|rs now|i swap random now]; simpl.
  - destruct (submitOrder_effect eo now s)
      as [(_ & _ & _ & _ & _ & _ & Hu) [(Ho & _)|(o & -> & Ho & _)]].
    + left. rewrite Hu, Ho. split; [lia|apply status_only_refl].
    + right. by exists o, now.
  - destruct (cancelOrder_frame n c s) as (Ho & _ & _ & _ & _ & _ & _ & Hu & _).
    left. rewrite Ho, Hu. split; [lia|apply status_only_refl].
  - destruct (cycleLoop_effect Buffer_from_base64 (orderBooks s) rs now s)
      as (Hobj & _ & _ & Hu).
    left. split; [done|by apply only_matched_status_only].
  - destruct (timers s !! i) as [m|]; [|left; split; [lia|apply status_only_refl]].
    destruct (timerCallback_effect JSON_parse_payload swap random now m
                (set_timers (delete i) s)) as [(_ & _ & _ & Hu & _) _].
    destruct (timerCallback_shrinks JSON_parse_payload swap random now m
                (set_timers (delete i) s)) as [_ Hst].
    left. split; [rewrite Hu; simpl; lia|exact Hst].
Qed.

Lemma ids_distinct_step s e : ids_distinct s → ids_distinct (step s e).
Proof.
  intros [Hlt Hinj].
  destruct (step_objects s e) as [[Hu Hst]|(o & now & -> & Hu & Hobj)].
  - pose proof Hst as [Hlen _].
    assert (Hid : ∀ r, Order.id (objects (step s e) !!! r) = Order.id (objects s !!! r)).
    { intros r. by apply status_only_field. }
    split.
    + intros r Hr. rewrite Hid. rewrite Hlen in Hr. specialize (Hlt r Hr). lia.
    + intros r1 r2 H1 H2. rewrite !Hid. rewrite Hlen in H1, H2. by apply Hinj.
  - set (s' := step s (Submit (Some o) now)) in *.
    assert (Hget : ∀ r, r < length (objects s') →
              (r < length (objects s)
               ∧ Order.id (objects s' !!! r) = Order.id (objects s !!! r))
              ∨ (r = length (objects s) ∧ Order.id (objects s' !!! r) = uuids s)).
    { intros r Hr. rewrite Hobj in Hr |- *. rewrite length_app in Hr. simpl in Hr.
      destruct (decide (r < length (objects s))) as [Hlt'|Hge].
      - left. split; [done|]. by rewrite lookup_total_app_l.
      - right. assert (r = length (objects s)) as -> by lia.
        split; [done|]. by rewrite list_lookup_total_middle. }
    split.
    + intros r Hr. rewrite Hu.
      destruct (Hget r Hr) as [[Hr' ->]|[_ ->]]; [specialize (Hlt r Hr')|]; lia.
    + intros r1 r2 H1 H2 Heq.
      destruct (Hget r1 H1) as [[Hr1 E1]|[-> E1]], (Hget r2 H2) as [[Hr2 E2]|[-> E2]];
        rewrite ?E1, ?E2 in Heq.
      * by apply Hinj.
      * specialize (Hlt r1 Hr1). lia.
      * specialize (Hlt r2 Hr2). lia.
      * done.
Qed.

Lemma statuses_known_step s e : statuses_known s → statuses_known (step s e).
Proof.
  intros Hk. destruct e as [eo now|n c|rs now|i swap random now]; simpl.
  - destruct (submitOrder_effect eo now s) as [_ [(Ho & _)|(o & -> & Ho & _)]].
    + intros r. rewrite Ho. apply Hk.
    + intros r. rewrite Ho, length_app. simpl. intros Hr.
      destruct (decide (r < length (objects s))) as [Hlt|Hge].
      * rewrite lookup_total_app_l by done. by apply Hk.
      * assert (r = length (objects s)) as -> by lia.
        rewrite list_lookup_total_middle by done. by left.
  - destruct (cancelOrder_frame n c s) as (Ho & _). intros r. rewrite Ho. apply Hk.
  - destruct (cycleLoop_effect Buffer_from_base64 (orderBooks s) rs now s)
      as ([Hlen Hobj] & _).
    unfold runMatchingCycle. intros r Hr. rewrite Hlen in Hr.
    destruct (Hobj r) as [->| ->]; [by apply Hk|by right].
  - destruct (timers s !! i) as [m|]; [|done].
    destruct (timerCallback_effect JSON_parse_payload swap random now m
                (set_timers (delete i) s))
      as [(_ & _ & _ & _ & Hlen) [(_ & _ & _ & _ & _ & _ & _ & Hobj)|(Hobj & _)]].
    + intros r Hr. rewrite Hlen in Hr.
      destruct (Hobj r) as [->|[_ ->]]; [by apply Hk|by left].
    + intros r. rewrite Hobj. apply Hk.
Qed.

Lemma stats_consistent_step s e : stats_consistent s → stats_consistent (step s e).
Proof.
  intros (Hto & Htm & Hte & Hsw).
  destruct e as [eo now|n c|rs now|i swap random now]; simpl.
  - destruct (submitOrder_effect eo now s)
      as [(_ & _ & Hsvc & _ & Hs & He & _) [(Ho & _ & Hst)|(o & -> & Ho & _ & Hst)]];
      unfold stats_consistent; rewrite Hsvc, Hs, He, Ho, Hst; [done|].
    simpl. rewrite length_app. simpl. split_and!; [lia|done..].
  - destruct (cancelOrder_frame n c s) as (Ho & _ & _ & Hsvc & _ & Hs & He & _ & Hst).
    unfold stats_consistent. by rewrite Hsvc, Hs, He, Ho, Hst.
  - destruct (cycleLoop_effect Buffer_from_base64 (orderBooks s) rs now s)
      as ([Hlen _] & (_ & _ & Hst & _ & Hsvc & Hs & He) & _).
    unfold runMatchingCycle, stats_consistent. by rewrite Hsvc, Hs, He, Hlen, Hst.
  - destruct (timers s !! i) as [m|]; [|done].
    destruct (timerCallback_effect JSON_parse_payload swap random now m
                (set_timers (delete i) s))
      as [(_ & Hsvc & _ & _ & Hlen)
          [(Htrue & _ & _ & _ & Hst & He & Hs & _)|(_ & _ & He & H1 & H2 & H3 & Hs)]];
      unfold stats_consistent; rewrite Hsvc, Hlen; simpl in *.
    + rewrite Hst, He. rewrite Htrue in Hsw |- *. split_and!; [done..|lia].
    + rewrite H1, H2, H3, He. split_and!; [lia..|].
      destruct (anoncoinService s); [lia|by rewrite Hs].
Qed.

(** A step that only shrinks books and only rewrites statuses keeps each
    order in a book of its token. *)
Lemma shrink_by_token s s' :
  shrinks (orderBooks s) (orderBooks s') →
  status_only (objects s) (objects s') →
  books_by_token s → books_by_token s'.
Proof.
  intros Hshr Hst Hbt token orders' r Hin Hr.
  destruct (Hshr _ _ Hin) as (orders & Hin0 & Hsub).
  rewrite (status_only_field Order.tokenAddress (objects s)) by done.
  apply (Hbt token orders); [done|]. by eapply elem_of_sublist.
Qed.

Lemma books_by_token_step s e :
  books_ok s → books_by_token s → books_by_token (step s e).
Proof.
  intros Hok Hbt. destruct e as [eo now|n c|rs now|i swap random now]; simpl.
  - destruct (submitOrder_effect eo now s) as [_ [(Ho & Hb & _)|(o & -> & Ho & Hb & _)]].
    + intros t os r. rewrite Ho, Hb. apply Hbt.
    + intros t os r Hin Hr. rewrite Hb in Hin. rewrite Ho.
      assert (Hold : ∀ t' os', (t', os') ∈ orderBooks s → r ∈ os' →
                Order.tokenAddress ((objects s ++ [Order.mk (uuids s)
                  (EncryptedOrder.payload o) (EncryptedOrder.commitment o)
                  (EncryptedOrder.nullifier o) (EncryptedOrder.tokenAddress o) now
                  "pending" (EncryptedOrder.encryptedSide o)]) !!! r) = t').
      { intros t' os' Hin' Hr'. destruct (Hok _ _ Hin') as [_ Hlive].
        rewrite lookup_total_app_l by auto. by apply (Hbt t' os'). }
      apply book_push_elem in Hin
        as [Hin|[->|(-> & [[Hnone ->]|(old & Hget & ->)])]].
      * by apply (Hold t os).
      * by apply elem_of_nil in Hr.
      * apply list_elem_of_singleton in Hr as ->.
        by rewrite list_lookup_total_middle.
      * apply elem_of_app in Hr as [Hr| ->%list_elem_of_singleton].
        -- apply (Hold _ old); [by apply jm_get_elem_of|done].
        -- by rewrite list_lookup_total_middle.
  - destruct (cancelOrder_shrinks n c s) as [Hshr Hobj].
    apply (shrink_by_token s); [done| |done]. rewrite Hobj. apply status_only_refl.
  - destruct (cycleLoop_status_only Buffer_from_base64 (orderBooks s) rs now s)
      as [Hst Hb].
    apply (shrink_by_token s); [|done..]. unfold runMatchingCycle. rewrite Hb.
    apply shrinks_refl.
  - destruct (timers s !! i) as [m|]; [|done].
    destruct (timerCallback_shrinks JSON_parse_payload swap random now m
                (set_timers (delete i) s)) as [Hshr Hst].
    by apply (shrink_by_token s).
Qed.

(** *** Waiting matches *)

(** The matches a pass finds join the waiting ones without breaking the
    invariant. *)
Lemma findMatches_in_flight token orders rs now s s' :
  let s1 := (findMatches token orders rs now s).1.1 in
  let matches := (findMatches token orders rs now s).1.2 in
  (token, orders) ∈ orderBooks s →
  books_ok s → books_by_token s → in_flight_ok s →
  objects s' = objects s1 → orderBooks s' = orderBooks s →
  timers s' = timers s ++ matches →
  in_flight_ok s'.
Proof.
  intros s1 matches Hin Hok Hbt (Hnd & Hlive & Htok) Hobj' Hbooks' Htimers'.
  destruct (Hok _ _ Hin) as [Hndo Hliveo].
  destruct (findMatches_inv Buffer_from_base64 token orders rs now s)
    as (bs & ss & Hb & Hs & Hbuy & Hsell & Hmtok & Hlen & Hobj & _ & _).
  destruct (findMatches_status_only Buffer_from_base64 token orders rs now s)
    as [Hst _].
  fold s1 matches in Hbuy, Hsell, Hmtok, Hlen, Hobj, Hst.
  set (n := length bs `min` length ss) in *.
  assert (Hbs : ∀ r, r ∈ take n bs →
            r ∈ orders ∧ is_pending (objects s) r
            ∧ is_buy Buffer_from_base64 (objects s) r).
  { intros r Hr%elem_of_take_in. rewrite Hb in Hr. by apply pendingBuys_elem in Hr. }
  assert (Hss : ∀ r, r ∈ take n ss →
            r ∈ orders ∧ is_pending (objects s) r
            ∧ ¬ is_buy Buffer_from_base64 (objects s) r).
  { intros r Hr%elem_of_take_in. rewrite Hs in Hr. by apply pendingSells_elem in Hr. }
  assert (Hboth : ∀ r, r ∈ take n bs ++ take n ss →
            r ∈ orders ∧ is_pending (objects s) r).
  { intros r [Hr|Hr]%elem_of_app; [apply Hbs in Hr|apply Hss in Hr]; tauto. }
  assert (Hnew : matched_orders matches = take n bs ++ take n ss).
  { unfold matched_orders. by rewrite Hbuy, Hsell. }
  assert (Hfl : in_flight s' ≡ₚ in_flight s ++ (take n bs ++ take n ss)).
  { unfold in_flight. rewrite Htimers', matched_orders_app. by rewrite Hnew. }
  assert (Hkeep : ∀ r, Order.tokenAddress (objects s' !!! r)
                       = Order.tokenAddress (objects s !!! r)).
  { rewrite Hobj'. intros r. by apply status_only_field. }
  split_and!.
  - rewrite Hfl. apply NoDup_app. split_and!; [done| |].
    + intros r Hr Hr'. destruct (Hlive r Hr) as [_ Hm].
      destruct (Hboth r Hr') as [_ Hp]. unfold is_pending in Hp. by rewrite Hm in Hp.
    + apply NoDup_app. split_and!.
      * apply (sublist_NoDup _ bs); [|apply sublist_take].
        rewrite Hb. by do 2 apply NoDup_filter.
      * intros r H1 H2. apply Hbs in H1. apply Hss in H2. tauto.
      * apply (sublist_NoDup _ ss); [|apply sublist_take].
        rewrite Hs. by do 2 apply NoDup_filter.
  - intros r Hr. rewrite Hfl in Hr. rewrite Hobj', Hlen.
    apply elem_of_app in Hr as [Hr|Hr].
    + destruct (Hlive r Hr) as [Hlt Hm]. split; [done|].
      rewrite Hobj by done. by case_decide.
    + destruct (Hboth r Hr) as [Hro _]. pose proof (Hliveo r Hro) as Hlt.
      split; [done|]. rewrite Hobj by done. by rewrite decide_True.
  - intros m r Hm Hr. rewrite Htimers' in Hm. rewrite Hkeep, Hbooks'.
    apply elem_of_app in Hm as [Hm|Hm]; [by apply Htok|].
    assert (Hrin : r ∈ take n bs ++ take n ss).
    { rewrite <-Hnew. apply elem_of_matched_orders. eauto. }
    destruct (Hboth r Hrin) as [Hro _].
    rewrite Forall_forall in Hmtok. rewrite (Hmtok m Hm).
    split; [by apply (Hbt token orders)|]. by exists orders.
Qed.

Lemma cycleBody_in_flight token orders rs now s :
  (token, orders) ∈ orderBooks s →
  books_ok s → books_by_token s → in_flight_ok s →
  in_flight_ok (cycleBody token orders rs now s).1.1.
Proof.
  intros Hin Hok Hbt Hfl. unfold cycleBody. case_bool_decide as Hgate; [done|].
  pose proof (λ s', findMatches_in_flight token orders rs now s s' Hin Hok Hbt Hfl) as H.
  pose proof (findMatches_effect Buffer_from_base64 token orders rs now s)
    as (_ & (Hb & _) & Htm & _).
  destruct (findMatches token orders rs now s) as [[s1 ms] rs1]. simpl in *.
  case_bool_decide as Hlen; simpl.
  - apply H; [done|done|]. simpl. by rewrite Htm.
  - destruct ms; [|simpl in Hlen; lia]. apply H; [done|done|]. by rewrite app_nil_r.
Qed.

Lemma cycleLoop_in_flight books : ∀ rs now s,
  (∀ token orders, (token, orders) ∈ books → (token, orders) ∈ orderBooks s) →
  books_ok s → books_by_token s → in_flight_ok s →
  in_flight_ok (cycleLoop books rs now s).
Proof.
  induction books as [|[token orders] books IH]; intros rs now s Hsub Hok Hbt Hfl;
    simpl; [done|].
  assert (Hin : (token, orders) ∈ orderBooks s) by (apply Hsub; left).
  pose proof (cycleBody_in_flight token orders rs now s Hin Hok Hbt Hfl) as Hfl1.
  pose proof (cycleBody_status_only Buffer_from_base64 token orders rs now s) as [Hst Hb].
  destruct (cycleBody token orders rs now s) as [[s1 ms] rs1]. simpl in *.
  destruct (shrink_preserves s s1) as [Hok1 _]; [rewrite Hb; apply shrinks_refl|done|].
  apply IH; [|by apply Hok1| |done].
  - intros t os Hin'. rewrite Hb. apply Hsub. by right.
  - apply (shrink_by_token s); [rewrite Hb; apply shrinks_refl|done..].
Qed.

(** The settlement of a waiting match, failed or not, leaves the other
    waiting matches as they were. *)
Lemma timerCallback_in_flight swap random now i m s :
  timers s !! i = Some m →
  ids_distinct s → in_flight_ok s →
  in_flight_ok (timerCallback swap random now m (set_timers (delete i) s)).
Proof.
  intros Hi [_ Hinj] (Hnd & Hlive & Htok).
  set (s0 := set_timers (delete i) s).
  pose proof (matched_orders_delete (timers s) i m Hi) as Hperm.
  change (matched_orders (delete i (timers s))) with (in_flight s0) in Hperm.
  assert (Hnd0 : NoDup (Match.buyOrder m :: Match.sellOrder m :: in_flight s0)).
  { unfold in_flight at 1 in Hnd. by rewrite Hperm in Hnd. }
  apply NoDup_cons in Hnd0 as [Hb0 [Hs0 Hnd0]%NoDup_cons].
  assert (Hsub : ∀ r, r ∈ in_flight s0 → r ∈ in_flight s).
  { intros r Hr. unfold in_flight at 1. rewrite Hperm. by do 2 right. }
  assert (Hne : ∀ r, r ∈ in_flight s0 → r ≠ Match.buyOrder m ∧ r ≠ Match.sellOrder m).
  { intros r Hr. split; intros ->; [apply Hb0; by right|by apply Hs0]. }
  assert (Hm0 : ∀ m', m' ∈ timers s0 → m' ∈ timers s).
  { intros m' Hm'. eapply elem_of_sublist; [exact Hm'|apply sublist_delete]. }
  assert (Hm : m ∈ timers s) by by eapply list_elem_of_lookup_2.
  assert (Hbl : Match.buyOrder m < length (objects s)).
  { apply Hlive, elem_of_matched_orders. eauto. }
  assert (Hsl : Match.sellOrder m < length (objects s)).
  { apply Hlive, elem_of_matched_orders. eauto. }
  destruct (timerCallback_shrinks JSON_parse_payload swap random now m s0) as [_ Hst].
  destruct (timerCallback_effect JSON_parse_payload swap random now m s0)
    as [(_ & _ & Htm & _ & Hlen)
        [(_ & _ & Hbooks & _ & _ & _ & _ & Hobj)|(Hobj & Hbooks & _)]].
  - assert (Hsame : ∀ r, r ∈ in_flight s0 →
              objects (timerCallback swap random now m s0) !!! r = objects s !!! r).
    { intros r Hr. destruct (Hobj r) as [E|[[->| ->] _]]; [exact E|..];
        by destruct (Hne _ Hr). }
    split_and!.
    + unfold in_flight. by rewrite Htm.
    + intros r Hr. unfold in_flight in Hr. rewrite Htm in Hr.
      rewrite Hlen, Hsame by done. apply Hlive. by apply Hsub.
    + intros m' r Hm' Hr. rewrite Htm in Hm'. rewrite Hbooks.
      rewrite (status_only_field Order.tokenAddress (objects s0)) by done.
      apply Htok; [by apply Hm0|done].
  - split_and!.
    + unfold in_flight. by rewrite Htm.
    + intros r Hr. unfold in_flight in Hr. rewrite Htm in Hr.
      rewrite Hobj. apply Hlive. by apply Hsub.
    + intros m' r Hm' Hr. rewrite Htm in Hm'. rewrite Hobj.
      destruct (Htok m' r (Hm0 _ Hm') Hr) as [Ht (os & Hin & Hros)].
      split; [done|].
      rewrite Hbooks, removeMatchedOrders_books.
      change (orderBooks s0) with (orderBooks s). change (objects s0) with (objects s).
      destruct (jm_get (Match.tokenAddress m) (orderBooks s)) as [orders|] eqn:Hget;
        [|by exists os].
      match goal with
      | |- context [jm_set ?k ?v ?b] =>
          destruct (jm_set_elem_of_inv k v b _ os Hin) as [?|[Heq Hget']];
            [by exists os|]; exists v
      end.
      rewrite Hget in Hget'. injection Hget' as ->.
      split; [rewrite Heq; apply jm_set_elem|].
      apply list_elem_of_filter. split; [|done].
      assert (Hrfl : r ∈ in_flight s0) by (apply elem_of_matched_orders; eauto).
      destruct (Hne r Hrfl) as [N1 N2]. destruct (Hlive r (Hsub r Hrfl)) as [Hrl _].
      split; intros Hid; [apply N1|apply N2]; by apply Hinj.
Qed.

Lemma in_flight_ok_step s e :
  books_ok s → ids_distinct s → books_by_token s → in_flight_ok s →
  in_flight_ok (step s e).
Proof.
  intros Hok Hids Hbt Hfl.
  destruct e as [eo now|n c|rs now|i swap random now]; simpl.
  - destruct Hfl as (Hnd & Hlive & Htok).
    destruct (submitOrder_effect eo now s) as [(_ & _ & _ & Htm & _) Hcases].
    set (s' := (submitOrder eo now s).1) in *.
    assert (Hobj : ∀ r, r < length (objects s) →
              objects s' !!! r = objects s !!! r ∧ r < length (objects s')).
    { intros r Hr. destruct Hcases as [(-> & _)|(o & _ & -> & _)]; [done|].
      rewrite lookup_total_app_l, length_app by done. split; [done|lia]. }
    assert (Hbooks : ∀ t os, (t, os) ∈ orderBooks s →
              ∃ os', (t, os') ∈ orderBooks s' ∧ ∀ x, x ∈ os → x ∈ os').
    { intros t os Hin. destruct Hcases as [(_ & -> & _)|(o & _ & _ & -> & _)].
      - by exists os.
      - by apply book_push_mono. }
    split_and!.
    + unfold in_flight. by rewrite Htm.
    + intros r Hr. unfold in_flight in Hr. rewrite Htm in Hr.
      destruct (Hlive r Hr) as [Hlt Hst]. destruct (Hobj r Hlt) as [-> ?]. done.
    + intros m r Hm Hr. rewrite Htm in Hm.
      destruct (Htok m r Hm Hr) as [Ht (os & Hin & Hros)].
      assert (Hrfl : r ∈ in_flight s) by (apply elem_of_matched_orders; eauto).
      destruct (Hlive r Hrfl) as [Hlt _]. destruct (Hobj r Hlt) as [-> _].
      split; [done|]. destruct (Hbooks _ _ Hin) as (os' & ? & Hsub).
      exists os'. auto.
  - destruct Hfl as (Hnd & Hlive & Htok).
    destruct (cancelOrder_frame n c s) as (Ho & _ & _ & _ & Htm & _).
    split_and!.
    + unfold in_flight. by rewrite Htm.
    + intros r Hr. unfold in_flight in Hr. rewrite Htm in Hr. rewrite Ho.
      by apply Hlive.
    + intros m r Hm Hr. rewrite Htm in Hm. rewrite Ho.
      destruct (Htok m r Hm Hr) as [Ht (os & Hin & Hros)]. split; [done|].
      apply (cancelOrder_keeps n c s _ os); [done..|].
      assert (Hrfl : r ∈ in_flight s) by (apply elem_of_matched_orders; eauto).
      destruct (Hlive r Hrfl) as [_ Hst]. unfold is_pending. by rewrite Hst.
  - by apply cycleLoop_in_flight.
  - destruct (timers s !! i) as [m|] eqn:Hi; [|done].
    by apply timerCallback_in_flight.
Qed.

(** *** The books keep one entry per token, the configuration stays *)

Lemma keys_step s e : NoDup (orderBooks s).*1 → NoDup (orderBooks (step s e)).*1.
Proof.
  intros Hnd. destruct e as [eo now|n c|rs now|i swap random now]; simpl.
  - destruct (submitOrder_effect eo now s) as [_ [(_ & -> & _)|(o & _ & _ & -> & _)]];
      [done|by apply book_push_keys].
  - unfold cancelOrder. destruct (cancelLoop _ _) as [books|] eqn:E; [|done]. simpl.
    apply cancelLoop_Some in E
      as (pre & token & orders & rest & index & r0 & Hb & _ & _ & ->).
    rewrite Hb in Hnd. by rewrite !fmap_app, !fmap_cons in *.
  - destruct (cycleLoop_effect Buffer_from_base64 (orderBooks s) rs now s)
      as (_ & (Hb & _) & _).
    unfold runMatchingCycle. by rewrite Hb.
  - destruct (timers s !! i) as [m|]; [|done].
    destruct (timerCallback_effect JSON_parse_payload swap random now m
                (set_timers (delete i) s))
      as [_ [(_ & _ & -> & _)|(_ & -> & _)]]; [done|].
    rewrite removeMatchedOrders_books. simpl.
    destruct (jm_get (Match.tokenAddress m) (orderBooks s)) eqn:Hget; [|done].
    rewrite jm_set_keys_present; [done|by rewrite Hget].
Qed.

Lemma step_config s e :
  config (step s e) = config s ∧ anoncoinService (step s e) = anoncoinService s.
Proof.
  destruct e as [eo now|n c|rs now|i swap random now]; simpl.
  - by destruct (submitOrder_effect eo now s) as [(_ & -> & -> & _) _].
  - by destruct (cancelOrder_frame n c s) as (_ & _ & -> & -> & _).
  - destruct (cycleLoop_effect Buffer_from_base64 (orderBooks s) rs now s)
      as (_ & (_ & _ & _ & Hc & Hsvc & _) & _).
    unfold runMatchingCycle. by rewrite Hc, Hsvc.
  - destruct (timers s !! i) as [m|]; [|done].
    by destruct (timerCallback_effect JSON_parse_payload swap random now m
                   (set_timers (delete i) s)) as [(-> & -> & _) _].
Qed.

(** *** Runs *)

Lemma run_invariants es : ∀ s,
  books_ok s → NoDup (orderBooks s).*1 → ids_distinct s → books_by_token s →
  in_flight_ok s → stats_consistent s → statuses_known s →
  let s' := run s es in
  books_ok s' ∧ NoDup (orderBooks s').*1 ∧ ids_distinct s' ∧ books_by_token s'
  ∧ in_flight_ok s' ∧ stats_consistent s' ∧ statuses_known s'
  ∧ config s' = config s ∧ anoncoinService s' = anoncoinService s.
Proof.
  induction es as [|e es IH]; intros s Hok Hkeys Hids Hbt Hfl Hst Hkn; simpl;
    [by split_and!|].
  destruct (step_preserves Buffer_from_base64 JSON_parse_payload s e Hok) as [Hok' _].
  destruct (step_config s e) as [Hc Hsvc].
  destruct (IH (step s e)) as (?&?&?&?&?&?&?& Hc' & Hsvc');
    [done|by apply keys_step|by apply ids_distinct_step|by apply books_by_token_step
    |by apply in_flight_ok_step|by apply stats_consistent_step
    |by apply statuses_known_step|].
  split_and!; [done..|by rewrite Hc', Hc|by rewrite Hsvc', Hsvc].
Qed.

Lemma reachable_invariants service interval es :
  let s := run (constructor service interval) es in
  books_ok s ∧ NoDup (orderBooks s).*1 ∧ ids_distinct s ∧ books_by_token s
  ∧ in_flight_ok s ∧ stats_consistent s ∧ statuses_known s
  ∧ config s = config (constructor service interval)
  ∧ anoncoinService s = service.
Proof.
  apply run_invariants.
  - by intros t os ?%elem_of_nil.
  - constructor.
  - split; simpl; intros; lia.
  - by intros t os r ?%elem_of_nil.
  - split_and!; [constructor|by intros r ?%elem_of_nil|by intros m r ?%elem_of_nil].
  - split_and!; try done. destruct service; simpl; [lia|done].
  - intros r. simpl. lia.
Qed.

(** X14.  In every state the engine reaches from a new one, under any
    sequence of submissions, cancellations, matching cycles and
    settlements, the counters agree with what happened: [totalOrders] is
    the number of orders ever admitted (cancelled and settled ones
    included), [totalMatches] and [totalExecuted] are equal and count the
    execution events sent, not the matches found.  An engine with a
    settlement service has called it at least once per execution, and an
    engine without one has never called it. *)
Theorem reachable_stats_consistent (service : bool) (interval : option Z)
    (es : list event) :
  let s := run (constructor service interval) es in
  Stats.totalOrders (stats s) = length (objects s)
  ∧ Stats.totalMatches (stats s) = length (emitted s)
  ∧ Stats.totalExecuted (stats s) = Stats.totalMatches (stats s)
  ∧ (if service then length (emitted s) ≤ length (swaps s) else swaps s = []).
Proof.
  destruct (reachable_invariants service interval es)
    as (_ & _ & _ & _ & _ & (H1 & H2 & H3 & H4) & _ & _ & Hsvc).
  simpl. rewrite Hsvc in H4. split_and!; [done|done|by rewrite H2, H3|done].
Qed.


(** X16.  In every reachable state there is one book per token, and a
    book holds each of its orders once, holds live orders only, and holds
    orders of its own token only. *)
Theorem reachable_books_by_token (service : bool) (interval : option Z)
    (es : list event) :
  let s := run (constructor service interval) es in
  NoDup (orderBooks s).*1
  ∧ ∀ token orders, (token, orders) ∈ orderBooks s →
      jm_get token (orderBooks s) = Some orders
      ∧ NoDup orders
      ∧ ∀ r, r ∈ orders →
          r < length (objects s) ∧ Order.tokenAddress (objects s !!! r) = token.
Proof.
  destruct (reachable_invariants service interval es)
    as (Hok & Hkeys & _ & Hbt & _).
  simpl. split; [done|]. intros token orders Hin.
  destruct (Hok _ _ Hin) as [Hnd Hlive].
  split_and!; [by apply jm_get_of_elem|done|].
  intros r Hr. split; [by apply Hlive|by apply (Hbt token orders)].
Qed.

(** X17.  In every reachable state the matches that wait for settlement
    are disjoint: no order waits in two of them or on both sides of one.
    Every waiting order is a live object with status ['matched'], carries
    the token of its match, and is still in the book of that token. *)
Theorem reachable_in_flight_ok (service : bool) (interval : option Z)
    (es : list event) :
  let s := run (constructor service interval) es in
  NoDup (in_flight s)
  ∧ ∀ m r, m ∈ timers s → r = Match.buyOrder m ∨ r = Match.sellOrder m →
      r < length (objects s)
      ∧ Order.status (objects s !!! r) = "matched"%string
      ∧ Order.tokenAddress (objects s !!! r) = Match.tokenAddress m
      ∧ ∃ orders,
          jm_get (Match.tokenAddress m) (orderBooks s) = Some orders ∧ r ∈ orders.
Proof.
  destruct (reachable_invariants service interval es)
    as (_ & Hkeys & _ & _ & (Hnd & Hlive & Htok) & _).
  simpl. split; [done|]. intros m r Hm Hr.
  assert (Hrfl : r ∈ in_flight (run (constructor service interval) es))
    by (apply elem_of_matched_orders; eauto).
  destruct (Hlive r Hrfl) as [Hlt Hst].
  destruct (Htok m r Hm Hr) as [Ht (orders & Hin & Hro)].
  split_and!; [done..|]. exists orders. split; [by apply jm_get_of_elem|done].
Qed.

(** X18.  With the identifiers of [uuidv4] distinct, as the model hands
    them out, the filter by identifier of [removeMatchedOrders] removes
    exactly the two orders of the match: for every match that waits in a
    reachable state, both orders are in the book of the match's token, and
    removing the match leaves that book with all its other orders, two
    fewer than before. *)
Theorem settlement_removes_exactly (service : bool) (interval : option Z)
    (es : list event) (m : Match.t) :
  let s := run (constructor service interval) es in
  m ∈ timers s →
  ∃ orders,
    jm_get (Match.tokenAddress m) (orderBooks s) = Some orders
    ∧ Match.buyOrder m ∈ orders ∧ Match.sellOrder m ∈ orders
    ∧ jm_get (Match.tokenAddress m) (orderBooks (removeMatchedOrders m s))
      = Some (filter (λ r, r ≠ Match.buyOrder m ∧ r ≠ Match.sellOrder m) orders)
    ∧ length (filter (λ r, r ≠ Match.buyOrder m ∧ r ≠ Match.sellOrder m) orders) + 2
      = length orders.
Proof.
  intros s Hm.
  destruct (reachable_invariants service interval es)
    as (Hok & Hkeys & [_ Hinj] & _ & (Hnd & Hlive & Htok) & _).
  fold s in Hok, Hkeys, Hinj, Hnd, Hlive, Htok.
  set (b := Match.buyOrder m). set (sl := Match.sellOrder m).
  destruct (Htok m b Hm (or_introl eq_refl)) as [_ (orders & Hin1 & Hb)].
  destruct (Htok m sl Hm (or_intror eq_refl)) as [_ (os2 & Hin2 & Hsl)].
  pose proof (jm_get_of_elem _ _ _ Hkeys Hin1) as Hget.
  pose proof (jm_get_of_elem _ _ _ Hkeys Hin2) as Hget2.
  rewrite Hget in Hget2. injection Hget2 as <-.
  destruct (Hok _ _ Hin1) as [Hndo Hliveo].
  assert (Hne : b ≠ sl).
  { unfold in_flight, matched_orders in Hnd. apply NoDup_app in Hnd as (_ & Hdis & _).
    intros Heq. apply (Hdis b).
    - apply list_elem_of_fmap. by exists m.
    - rewrite Heq. apply list_elem_of_fmap. by exists m. }
  assert (Hfilter :
    filter (λ o, Order.id (objects s !!! o) ≠ Order.id (objects s !!! b)
                 ∧ Order.id (objects s !!! o) ≠ Order.id (objects s !!! sl)) orders
    = filter (λ r, r ≠ b ∧ r ≠ sl) orders).
  { apply filter_ext_in. intros r Hr.
    pose proof (Hliveo r Hr) as Hrl.
    pose proof (Hliveo b Hb) as Hbl. pose proof (Hliveo sl Hsl) as Hsll.
    split; intros [A B]; split; intros E.
    - apply A. by rewrite E.
    - apply B. by rewrite E.
    - apply A. by apply Hinj.
    - apply B. by apply Hinj. }
  exists orders. split_and!; [done..| |].
  - rewrite removeMatchedOrders_books, Hget, jm_get_set_eq. fold b sl.
    by rewrite Hfilter.
  - pose proof (filter_app_complement (λ r, r ≠ b ∧ r ≠ sl) orders) as Hperm.
    assert (Htwo : filter (λ r, ¬ (r ≠ b ∧ r ≠ sl)) orders ≡ₚ [b; sl]).
    { apply NoDup_Permutation.
      - by apply NoDup_filter.
      - apply NoDup_cons. split; [by intros ?%list_elem_of_singleton|].
        apply NoDup_singleton.
      - intros x. rewrite list_elem_of_filter. split.
        + intros [Hx _]. destruct (decide (x = b)) as [->|Hxb]; [left|].
          destruct (decide (x = sl)) as [->|Hxs]; [right; left|]. by destruct Hx.
        + intros [->|[->|[]%elem_of_nil]%elem_of_cons]%elem_of_cons;
            (split; [tauto|done]). }
    apply Permutation_length in Hperm. rewrite length_app in Hperm.
    apply Permutation_length in Htwo. simpl in Htwo. lia.
Qed.


End Invariants.


Lemma reachable_books_by_token_witness :
  let s := run node_Buffer_from_base64 sample_parse (constructor true None)
             [Submit buyA 1; Submit sellB 2] in
  jm_get (JStr "T") (orderBooks s) = Some [0; 1]
  ∧ Order.tokenAddress (objects s !!! 1) = JStr "T".
Proof.
  intros s.
  destruct (reachable_books_by_token node_Buffer_from_base64 sample_parse true None
              [Submit buyA 1; Submit sellB 2]) as [_ H].
  destruct (H (JStr "T") [0; 1]) as (Hget & _ & Hr).
  - vm_compute. left.
  - split; [exact Hget|]. apply Hr. right. left.
Defined.

Lemma reachable_in_flight_ok_witness :
  let s := run node_Buffer_from_base64 sample_parse (constructor true None)
             [Submit buyA 1; Submit sellB 2; Cycle [] 3] in
  Order.status (objects s !!! 0) = "matched"%string
  ∧ ∃ orders, jm_get (JStr "T") (orderBooks s) = Some orders ∧ 0 ∈ orders.
Proof.
  intros s.
  destruct (reachable_in_flight_ok node_Buffer_from_base64 sample_parse true None
              [Submit buyA 1; Submit sellB 2; Cycle [] 3]) as [_ H].
  destruct (H (Match.mk 2 0 1 (JStr "T") 3) 0) as (_ & Hst & _ & Hbook).
  - vm_compute. left.
  - by left.
  - split; [exact Hst|exact Hbook].
Defined.

Lemma settlement_removes_exactly_witness :
  let s := run node_Buffer_from_base64 sample_parse (constructor true None)
             [Submit buyA 1; Submit sellB 2; Submit buyC 3; Cycle [] 4] in
  let m := Match.mk 3 2 1 (JStr "T") 4 in
  timers s = [m]
  ∧ ∃ orders,
      jm_get (JStr "T") (orderBooks s) = Some orders
      ∧ jm_get (JStr "T") (orderBooks (removeMatchedOrders m s))
        = Some (filter (λ r, r ≠ 2 ∧ r ≠ 1) orders).
Proof.
  intros s m.
  assert (Ht : timers s = [m]) by (vm_compute; reflexivity).
  split; [exact Ht|].
  assert (Hm : m ∈ timers s) by (rewrite Ht; left).
  destruct (settlement_removes_exactly node_Buffer_from_base64 sample_parse true None
              [Submit buyA 1; Submit sellB 2; Submit buyC 3; Cycle [] 4] m Hm)
    as (orders & Hget & _ & _ & Hrem & _).
  exists orders. split; [exact Hget|exact Hrem].
Defined.


(** ** Fills, cancelled orders and the cancellation route *)

Lemma strict_eq_true a b : strict_eq a b = true → a = b.
Proof.
  unfold strict_eq. destruct a as [| |?|[]|?]; try done;
    by intros ?%bool_decide_eq_true.
Qed.


Section Finality.
Variable Buffer_from_base64 : jsval → option (list Z).
Variable JSON_parse_payload : jsval → option Payload.t.

Local Abbreviation step := (step Buffer_from_base64 JSON_parse_payload).
Local Abbreviation run := (run Buffer_from_base64 JSON_parse_payload).
Local Abbreviation timerCallback := (timerCallback JSON_parse_payload).
Local Abbreviation executeMatch := (executeMatch JSON_parse_payload).
Local Abbreviation cycleBody := (cycleBody Buffer_from_base64).
Local Abbreviation cycleLoop := (cycleLoop Buffer_from_base64).

Lemma well_formed_step s e : well_formed s → well_formed (step s e).
Proof.
  intros (Hok & Hk & Hids & Hbt & Hfl).
  destruct (step_preserves Buffer_from_base64 JSON_parse_payload s e Hok) as [Hok' _].
  split_and!; [done|by apply keys_step|by apply ids_distinct_step
              |by apply books_by_token_step|by apply in_flight_ok_step].
Qed.

Lemma well_formed_reachable service interval es :
  well_formed (run (constructor service interval) es).
Proof.
  destruct (reachable_invariants Buffer_from_base64 JSON_parse_payload service interval es)
    as (?&?&?&?&?&_).
  by split_and!.
Qed.

(** Every order object stays where it is, with all its fields but the
    status. *)
Lemma step_keeps_orders s e r :
  r < length (objects s) →
  r < length (objects (step s e))
  ∧ Order.set_status "" (objects (step s e) !!! r) = Order.set_status "" (objects s !!! r).
Proof.
  intros Hr. destruct (step_objects Buffer_from_base64 JSON_parse_payload s e)
    as [[_ [Hlen Hst]]|(o & now & _ & _ & Hobj)].
  - split; [by rewrite Hlen|apply Hst].
  - rewrite Hobj, length_app, lookup_total_app_l by done. split; [lia|done].
Qed.

(** *** Fills *)

Lemma timerCallback_fills swap random now m s :
  let s' := timerCallback swap random now m s in
  pendingMatches s' = pendingMatches s
  ∨ ∃ execution,
      Execution.executedOnChain execution = true
      ∧ pendingMatches s' =
          <[Order.nullifier (objects s !!! Match.sellOrder m) :=
              Fill.mk execution "sell" (Execution.amount execution)]>
            (<[Order.nullifier (objects s !!! Match.buyOrder m) :=
                 Fill.mk execution "buy" (Execution.amount execution)]>
               (pendingMatches s)).
Proof.
  unfold timerCallback.
  destruct (executeMatch_cases JSON_parse_payload swap random now m s)
    as [(e & -> & Hsvc)|[ex Hex]].
  - destruct (executeMatch_threw JSON_parse_payload e random now m s Hsvc)
      as (Hres & _ & Hpm & _).
    destruct (executeMatch _ _ _ _ _) as [s1 res]. simpl in *. subst res. by left.
  - destruct (executeMatch _ _ _ _ _) as [s1 res] eqn:E. simpl in Hex. subst res.
    apply executeMatch_returned in E as (Hexe & Hpm & _).
    right. exists ex. rewrite Hpm. split; [by rewrite Hexe|]. by rewrite Hexe.
Qed.

Lemma fills_ok_step s e : in_flight_ok s → fills_ok s → fills_ok (step s e).
Proof.
  intros (_ & Hlive & _) Hf.
  assert (Hkeep : ∀ n,
    (∃ r, r < length (objects s) ∧ Order.nullifier (objects s !!! r) = n) →
    ∃ r, r < length (objects (step s e))
         ∧ Order.nullifier (objects (step s e) !!! r) = n).
  { intros n (r & Hr & Hn). exists r.
    destruct (step_keeps_orders s e r Hr) as [Hr' Heq]. split; [done|].
    apply (f_equal Order.nullifier) in Heq. simpl in Heq. by rewrite Heq. }
  assert (Hold : pendingMatches (step s e) = pendingMatches s → fills_ok (step s e)).
  { intros Hpm n fill Hlook. rewrite Hpm in Hlook.
    destruct (Hf _ _ Hlook) as (? & ? & ? & Hr). split_and!; auto. }
  destruct e as [eo now|n c|rs now|i swap random now]; simpl in *.
  - apply Hold. by destruct (submitOrder_effect eo now s) as [(-> & _) _].
  - apply Hold. by destruct (cancelOrder_frame n c s) as (_ & -> & _).
  - apply Hold.
    destruct (cycleLoop_effect Buffer_from_base64 (orderBooks s) rs now s)
      as (_ & (_ & Hpm & _) & _).
    exact Hpm.
  - destruct (timers s !! i) as [m|] eqn:Hi; [|done].
    assert (Hm : m ∈ timers s) by by eapply list_elem_of_lookup_2.
    destruct (timerCallback_fills swap random now m (set_timers (delete i) s))
      as [Hpm|(ex & Hon & Hpm)]; [by apply Hold|].
    intros n fill Hlook. rewrite Hpm in Hlook. simpl in Hlook.
    apply lookup_insert_Some in Hlook as [[<- <-]|[_ Hlook]];
      [|apply lookup_insert_Some in Hlook as [[<- <-]|[_ Hlook]]].
    + split_and!; [done|by right|done|]. apply Hkeep.
      exists (Match.sellOrder m). split; [|done].
      apply Hlive, elem_of_matched_orders. eauto.
    + split_and!; [done|by left|done|]. apply Hkeep.
      exists (Match.buyOrder m). split; [|done].
      apply Hlive, elem_of_matched_orders. eauto.
    + destruct (Hf _ _ Hlook) as (? & ? & ? & Hr). split_and!; auto.
Qed.

Lemma fills_ok_run es : ∀ s, well_formed s → fills_ok s → fills_ok (run s es).
Proof.
  induction es as [|e es IH]; intros s Hwf Hf; simpl; [done|].
  apply IH; [by apply well_formed_step|].
  apply fills_ok_step; [|done]. by destruct Hwf as (_ & _ & _ & _ & ?).
Qed.

(** X20.  Status lookups only ever answer for admitted orders: in every
    reachable state a fill found under a nullifier is the buy or the sell
    side of an execution done on chain, repeats its amount, and the
    nullifier is that of some order object.  So [GET /status/:nullifier]
    answers 404 [not_found] for every nullifier that no admitted order
    carries. *)
Theorem reachable_fills_belong_to_orders (service : bool) (interval : option Z)
    (es : list event) :
  let s := run (constructor service interval) es in
  (∀ nullifier fill, checkMatchStatus nullifier s = Some fill →
     Fill.fillAmount fill = Execution.amount (Fill.execution fill)
     ∧ (Fill.side fill = "buy"%string ∨ Fill.side fill = "sell"%string)
     ∧ Execution.executedOnChain (Fill.execution fill) = true
     ∧ ∃ r, r < length (objects s) ∧ Order.nullifier (objects s !!! r) = nullifier)
  ∧ ∀ nullifier : string,
      (∀ r, r < length (objects s) → Order.nullifier (objects s !!! r) ≠ JStr nullifier) →
      getStatus nullifier s
      = NotFoundJson 404 "not_found" "Order not found or not yet matched".
Proof.
  intros s.
  assert (Hf : fills_ok s).
  { apply fills_ok_run.
    - apply (well_formed_reachable service interval []).
    - intros n fill Hl. simpl in Hl. by rewrite lookup_empty in Hl. }
  split; [exact Hf|]. intros n Hnone. unfold getStatus.
  destruct (checkMatchStatus (JStr n) s) as [fill|] eqn:E; [|done].
  destruct (Hf _ _ E) as (_ & _ & _ & r & Hr & Hn). by destruct (Hnone r Hr).
Qed.

(** *** Admitted orders are valid *)

Lemma orders_valid_step s e : orders_valid s → orders_valid (step s e).
Proof.
  intros Hv.
  destruct (step_objects Buffer_from_base64 JSON_parse_payload s e)
    as [[_ [Hlen Hst]]|(o & now & -> & _ & Hobj)].
  - intros r Hr. rewrite Hlen in Hr. specialize (Hv r Hr). specialize (Hst r).
    unfold order_fields in *.
    assert (Hf : ∀ {A} (f : Order.t → A), (∀ st x, f (Order.set_status st x) = f x) →
              f (objects (step s e) !!! r) = f (objects s !!! r)).
    { intros A f Hfield. apply (f_equal f) in Hst. by rewrite !Hfield in Hst. }
    by rewrite !Hf.
  - intros r. rewrite Hobj, length_app. simpl. intros Hr.
    destruct (decide (r < length (objects s))) as [Hlt|Hge].
    + rewrite lookup_total_app_l by done. by apply Hv.
    + assert (r = length (objects s)) as -> by lia.
      rewrite list_lookup_total_middle by done. unfold order_fields. simpl.
      assert (Hvalid : truthy (validateEncryptedOrder (Some o)) = true).
      { destruct (submitOrder_cases (Some o) now s) as [[_ Ho]|(o' & [= <-] & Hv' & _)];
          [|done].
        simpl in Hobj. rewrite Ho in Hobj.
        apply (f_equal length) in Hobj. rewrite length_app in Hobj. simpl in Hobj. lia. }
      by apply validate_truthy in Hvalid.
Qed.

Lemma orders_valid_run es : ∀ s, orders_valid s → orders_valid (run s es).
Proof.
  induction es as [|e es IH]; intros s Hv; simpl; [done|].
  by apply IH, orders_valid_step.
Qed.


(** X22.  The check of [DELETE /order] never gets in the engine's way: in
    every reachable state the route answers 200 with the success message
    exactly when a pending order with the given nullifier and commitment is
    in a book, and the engine is left as [cancelOrder] leaves it.  When
    there is no such order the engine is unchanged and the answer is either
    400, for a falsy nullifier or commitment, or 200 with the not-found
    message. *)
Theorem deleteOrder_agrees_with_engine (service : bool) (interval : option Z)
    (es : list event) (nullifier commitment : jsval) :
  let s := run (constructor service interval) es in
  let reply := (deleteOrder nullifier commitment s).2 in
  let s' := (deleteOrder nullifier commitment s).1 in
  (reply = CancelJson 200 (CancelResult.mk true "Order cancelled")
   ↔ cancellable s nullifier commitment)
  ∧ s' = (cancelOrder nullifier commitment s).1
  ∧ (¬ cancellable s nullifier commitment →
     s' = s
     ∧ (reply = ErrorJson 400 "Nullifier and commitment required"
        ∨ reply = CancelJson 200
                    (CancelResult.mk false "Order not found or already matched"))).
Proof.
  intros s reply s'.
  destruct (well_formed_reachable service interval es) as (Hok & _).
  fold s in Hok.
  assert (Hvalid : orders_valid s).
  { apply orders_valid_run. intros r'. simpl. lia. }
  assert (Htruthy : cancellable s nullifier commitment →
            truthy nullifier = true ∧ truthy commitment = true).
  { intros (t & os & r & Hin & Hr & [Hn Hc] & _).
    destruct (Hok _ _ Hin) as [_ Hlive]. specialize (Hvalid r (Hlive r Hr)).
    rewrite Forall_forall in Hvalid.
    apply strict_eq_true in Hn, Hc. rewrite <-Hn, <-Hc.
    split; apply Hvalid; unfold order_fields; set_solver. }
  assert (Hengine :
    (cancelOrder nullifier commitment s = (s, CancelResult.mk false
                                                "Order not found or already matched")
     ∧ ¬ cancellable s nullifier commitment)
    ∨ ((cancelOrder nullifier commitment s).2 = CancelResult.mk true "Order cancelled"
       ∧ cancellable s nullifier commitment)).
  { unfold cancelOrder.
    destruct (cancelLoop _ _) as [books|] eqn:E; simpl.
    - right. split; [done|].
      apply cancelLoop_Some in E
        as (pre & token & orders & rest & index & r & Hb & Hidx & Hp & _).
      apply cancel_pred_true in Hp as [Ha Hpend].
      exists token, orders, r. rewrite Hb.
      split_and!; [|by eapply list_elem_of_lookup_2|done..].
      apply elem_of_app. right. left.
    - left. split; [done|]. intros (t & os & r & Hin & Hr & Ha & Hpend).
      rewrite cancelLoop_None in E. specialize (E t os r Hin Hr).
      assert (cancel_pred (objects s) nullifier commitment r = true)
        by by apply cancel_pred_true.
      congruence. }
  subst reply s'. unfold deleteOrder.
  destruct Hengine as [[Heng Hnot]|[Heng Hcan]].
  - rewrite Heng.
    destruct (negb (truthy nullifier) || negb (truthy commitment)); simpl.
    + split_and!; [split; [done|by intros ?]|done|intros _; split; [done|by left]].
    + split_and!; [split; [done|by intros ?]|done|intros _; split; [done|by right]].
  - destruct (Htruthy Hcan) as [-> ->]. simpl.
    destruct (cancelOrder nullifier commitment s) as [s1 result]. simpl in *.
    subst result. split_and!; [by split|done|by intros []].
Qed.

(** *** A cancelled order is out for good *)







End Finality.

Lemma reachable_fills_belong_to_orders_witness :
  let s := run node_Buffer_from_base64 sample_parse (constructor true None)
             [Submit buyA 1; Submit sellB 2] in
  getStatus "nA" s = NotFoundJson 404 "not_found" "Order not found or not yet matched"
  ∧ getStatus "zz" s = NotFoundJson 404 "not_found" "Order not found or not yet matched".
Proof.
  intros s.
  destruct (reachable_fills_belong_to_orders node_Buffer_from_base64 sample_parse
              true None [Submit buyA 1; Submit sellB 2]) as [_ H].
  split; [by vm_compute|]. apply H. intros r Hr.
  assert (Hlen : length (objects s) = 2) by (vm_compute; reflexivity).
  fold s in Hr. rewrite Hlen in Hr.
  destruct r as [|[|r]]; [by vm_compute|by vm_compute|lia].
Defined.


Lemma deleteOrder_agrees_with_engine_witness :
  let s := run node_Buffer_from_base64 sample_parse (constructor true None)
             [Submit buyA 1; Submit sellB 2; Cycle [] 3] in
  (deleteOrder (JStr "nA") (JStr "cA") s).1 = s.
Proof.
  intros s.
  destruct (deleteOrder_agrees_with_engine node_Buffer_from_base64 sample_parse
              true None [Submit buyA 1; Submit sellB 2; Cycle [] 3]
              (JStr "nA") (JStr "cA")) as (_ & _ & H).
  apply H. intros (token & orders & r & Hin & Hr & _ & Hpend).
  assert (Hb : orderBooks s = [(JStr "T", [0; 1])]) by (vm_compute; reflexivity).
  fold s in Hin. rewrite Hb in Hin.
  apply list_elem_of_singleton in Hin. injection Hin as -> ->.
  fold s in Hpend.
  apply elem_of_cons in Hr as [->|Hr]; [by vm_compute in Hpend|].
  apply list_elem_of_singleton in Hr as ->. by vm_compute in Hpend.
Defined.


(** ** Matching does not look at payloads *)

Lemma pairLoop_matches_uuids n : ∀ i bs ss token now ms s s',
  uuids s' = uuids s →
  (pairLoop n i bs ss token now ms s').2 = (pairLoop n i bs ss token now ms s).2.
Proof.
  induction n as [|n IH]; intros i bs ss token now ms s s' Hu; [done|].
  rewrite !pairLoop_S, Hu. apply IH. simpl. by rewrite Hu.
Qed.

(** X24.  [findMatches] pairs orders by status and side alone.  Two
    engines whose orders in the book agree on status and side indicator,
    whatever their payloads, commitments and nullifiers, get the same
    matches from the same draws: the same pairs of orders, in the same
    order, with the same identifiers.  Limit prices and amounts play no part
    in who is matched with whom. *)
Theorem findMatches_ignores_payloads (decode : jsval → option (list Z)) (token : jsval)
    (orders rs : list nat) (now : Z) (s s' : DarkPoolEngine) :
  uuids s' = uuids s →
  (∀ r, r ∈ orders →
     Order.status (objects s' !!! r) = Order.status (objects s !!! r)
     ∧ Order.encryptedSide (objects s' !!! r) = Order.encryptedSide (objects s !!! r)) →
  (findMatches decode token orders rs now s').1.2
  = (findMatches decode token orders rs now s).1.2
  ∧ (findMatches decode token orders rs now s').2
    = (findMatches decode token orders rs now s).2.
Proof.
  intros Hu Hsame. unfold findMatches.
  assert (Hp : filter (is_pending (objects s')) orders
               = filter (is_pending (objects s)) orders).
  { apply filter_ext_in. intros r Hr. unfold is_pending.
    by destruct (Hsame r Hr) as [-> _]. }
  rewrite Hp.
  assert (Hb : filter (is_buy decode (objects s')) (filter (is_pending (objects s)) orders)
               = filter (is_buy decode (objects s)) (filter (is_pending (objects s)) orders)).
  { apply filter_ext_in. intros r [_ Hr]%list_elem_of_filter. unfold is_buy.
    by destruct (Hsame r Hr) as [_ ->]. }
  assert (Hs : filter (λ r, ¬ is_buy decode (objects s') r)
                 (filter (is_pending (objects s)) orders)
               = filter (λ r, ¬ is_buy decode (objects s) r)
                   (filter (is_pending (objects s)) orders)).
  { apply filter_ext_in. intros r [_ Hr]%list_elem_of_filter. unfold is_buy.
    by destruct (Hsame r Hr) as [_ ->]. }
  rewrite Hb, Hs.
  destruct (shuffleArray rs _) as [bs rs1]. destruct (shuffleArray rs1 _) as [ss rs2].
  pose proof (pairLoop_matches_uuids (length bs `min` length ss) 0 bs ss token now []
                s s' Hu) as Hms.
  destruct (pairLoop _ _ _ _ _ _ _ s') as [s1' ms'].
  destruct (pairLoop _ _ _ _ _ _ _ s) as [s1 ms]. simpl in *. by subst.
Qed.

Lemma findMatches_ignores_payloads_witness :
  let s := sample_run true [Submit buyA 1; Submit sellB 2] in
  let s' :=
    set_objects
      (fmap (λ o, Order.mk (Order.id o) (JStr "?") (JStr "?") (JStr "?")
                    (Order.tokenAddress o) (Order.timestamp o) (Order.status o)
                    (Order.encryptedSide o))) s in
  (findMatches node_Buffer_from_base64 (JStr "T") [0; 1] [] 3 s').1.2
  = [Match.mk 2 0 1 (JStr "T") 3].
Proof.
  intros s s'.
  destruct (findMatches_ignores_payloads node_Buffer_from_base64 (JStr "T") [0; 1] [] 3
              s s') as [Hms _].
  - reflexivity.
  - intros r [->|[->|[]%elem_of_nil]%elem_of_cons]%elem_of_cons; by vm_compute.
  - rewrite Hms. vm_compute. reflexivity.
Defined.
